(** * Arithmetic kernel and exercise engine of the math-studies front-end

    A shallow embedding of the pure core of [src/App.tsx]: the arithmetic
    helpers ([isPrime], [smallestFactor], [primeFactors],
    [divisibilityInfo], [normalizeFactorsInput], [multisetEqual],
    [productOf]), the exercise generator [generateExercise] and the answer
    check of [submit].

    Modelling conventions.

    - A JavaScript string is the list of its UTF-16 code units
      ([JS.jsstring]).  Literals are written with [JS.js], which decodes
      the UTF-8 bytes of a Rocq string literal into code units, so that
      they read as in the source.  [toLowerCase] is exact on the code units
      up to U+00FF and leaves the others unchanged; no code unit above
      U+00FF lower-cases to a digit, a separator or a letter of a canonical
      answer, so the results of [normalizeFactorsInput] and of [submit] on
      generated exercises do not depend on it.
    - JavaScript numbers are IEEE binary64 values.  The development keeps
      the values exact: an integer is a [Z], the result of [Number(text)]
      is a rational ([JS.number]), and [String(n)] prints the exact decimal
      digits of [n].  Model and program agree on every safe integer
      (magnitude at most 2^53 - 1) and on every literal that binary64
      represents exactly; rounding, the shortest-digits printing of larger
      values and overflow to [Infinity] are outside the model.
    - Loops are well-founded recursions where the source loop terminates on
      every input ([isPrime], [smallestFactor]), and fuelled recursions
      returning [option] where it does not ([primeFactors], whose inner
      loop spins on [x = 0]); the accompanying lemmas show that the fuel
      chosen by the top-level function is never exhausted.
    - [Math.random] is a source of values in [0, 1) threaded through the
      generator as state. *)

From Equations Require Import Equations.
From Stdlib Require Import ZArith NArith QArith Qround List Bool Lia.
From Stdlib Require Import Zdivisibility String Ascii Sorted Permutation.
Import ListNotations.

Close Scope string_scope.
Open Scope list_scope.
Open Scope Z_scope.

(** Keeps the equation [x = y] available after a case analysis on [x]. *)
Definition inspect {A : Type} (x : A) : { y : A | x = y } := exist _ x eq_refl.

(* ================================================================= *)
(** ** The JavaScript built-ins used by the program *)
(* ================================================================= *)

Module JS.

(** *** Strings *)

(** A code unit, and a string of code units. *)
Abbreviation char := N (only parsing).
Abbreviation jsstring := (list N) (only parsing).

(** [js s] decodes the UTF-8 bytes of the literal [s] (one, two and three
    byte sequences, i.e. the Basic Multilingual Plane) into code units. *)
Fixpoint js (s : string) : jsstring :=
  match s with
  | EmptyString => []
  | String a r =>
      let b0 := N_of_ascii a in
      if (b0 <? 192)%N then b0 :: js r
      else if (b0 <? 224)%N then
        match r with
        | String b r' =>
            ((b0 - 192) * 64 + (N_of_ascii b - 128))%N :: js r'
        | EmptyString => [b0]
        end
      else
        match r with
        | String b (String c r') =>
            ((b0 - 224) * 4096 + (N_of_ascii b - 128) * 64
             + (N_of_ascii c - 128))%N :: js r'
        | _ => b0 :: js r
        end
  end.
Arguments js _%_string.

Definition char_eqb (a b : char) : bool := (a =? b)%N.

Fixpoint string_eqb (a b : jsstring) : bool :=
  match a, b with
  | [], [] => true
  | x :: a', y :: b' => char_eqb x y && string_eqb a' b'
  | _, _ => false
  end.

(** [WhiteSpace] and [LineTerminator] code units: what [\s] matches and
    what [trim] and [Number] strip. *)
Definition isWhiteSpace (c : char) : bool :=
  ((9 <=? c) && (c <=? 13) || (c =? 32) || (c =? 160) || (c =? 5760)
   || (8192 <=? c) && (c <=? 8202) || (c =? 8232) || (c =? 8233)
   || (c =? 8239) || (c =? 8287) || (c =? 12288) || (c =? 65279))%N.

(** [/\d/] *)
Definition isDigit (c : char) : bool := ((48 <=? c) && (c <=? 57))%N.

(** Lower-casing of one code unit: ASCII and Latin-1 capitals move by 32
    (the multiplication sign U+00D7 sits among them and is not a letter);
    code units above U+00FF are left unchanged. *)
Definition toLower (c : char) : char :=
  if ((65 <=? c) && (c <=? 90)
      || (192 <=? c) && (c <=? 222) && negb (c =? 215))%N
  then (c + 32)%N else c.

Definition toLowerCase (s : jsstring) : jsstring := map toLower s.

Fixpoint trimStart (s : jsstring) : jsstring :=
  match s with
  | [] => []
  | c :: t => if isWhiteSpace c then trimStart t else s
  end.

Definition trimEnd (s : jsstring) : jsstring := rev (trimStart (rev s)).

Definition trim (s : jsstring) : jsstring := trimEnd (trimStart s).

(** [s.replace(/[class]/g, by)] for a character class given as a predicate. *)
Definition replace_class (cls : char -> bool) (by_ : jsstring) (s : jsstring)
  : jsstring :=
  flat_map (fun c => if cls c then by_ else [c]) s.

(** [s.replace(/\s+/g, by)]: every maximal run of white space becomes one
    copy of [by]; [in_run] tells that the previous code unit was white
    space. *)
Fixpoint replace_ws_runs_from (in_run : bool) (by_ : jsstring) (s : jsstring)
  : jsstring :=
  match s with
  | [] => []
  | c :: t =>
      if isWhiteSpace c
      then (if in_run then [] else by_) ++ replace_ws_runs_from true by_ t
      else c :: replace_ws_runs_from false by_ t
  end.

Definition replace_ws_runs (by_ : jsstring) (s : jsstring) : jsstring :=
  replace_ws_runs_from false by_ s.

(** [s.split(sep)] for a one-code-unit separator; the empty string splits
    into one empty piece. *)
Fixpoint split (sep : char) (s : jsstring) : list jsstring :=
  match s with
  | [] => [[]]
  | c :: t =>
      if char_eqb c sep then [] :: split sep t
      else match split sep t with
           | [] => [[c]]
           | piece :: rest => (c :: piece) :: rest
           end
  end.

(** [s.split("")] *)
Definition split_chars (s : jsstring) : list jsstring :=
  map (fun c => [c]) s.

(** [pieces.join(sep)] on strings. *)
Fixpoint join (sep : jsstring) (pieces : list jsstring) : jsstring :=
  match pieces with
  | [] => []
  | [p] => p
  | p :: rest => p ++ sep ++ join sep rest
  end.

(** *** Numbers *)

Inductive number : Type :=
| Finite (q : Q)
| NaN
| PosInfinity
| NegInfinity.

Definition of_Z (z : Z) : number := Finite (inject_Z z).

Definition Number_isFinite (x : number) : bool :=
  match x with Finite _ => true | _ => false end.

Definition Number_isInteger (x : number) : bool :=
  match x with
  | Finite q => Z.rem (Qnum q) (Z.pos (Qden q)) =? 0
  | _ => false
  end.

(** [x >= y] *)
Definition num_ge (x y : number) : bool :=
  match x, y with
  | Finite a, Finite b => Qle_bool b a
  | PosInfinity, (Finite _ | PosInfinity | NegInfinity) => true
  | (Finite _ | NegInfinity), NegInfinity => true
  | _, _ => false
  end.

(** The integer a number stands for.  The program computes with parsed
    values only after [Number_isInteger] accepted them, and with the
    [Number] of single decimal digits; [to_integer] is used there. *)
Definition to_integer (x : number) : Z :=
  match x with
  | Finite q => Z.quot (Qnum q) (Z.pos (Qden q))
  | _ => 0
  end.

Definition digit_value (c : char) : Z := Z.of_N c - 48.

(** Value of a digit sequence in a radix, most significant digit first. *)
Definition value_of_digits (radix : Z) (ds : list Z) : Z :=
  fold_left (fun acc d => acc * radix + d) ds 0.

(** Longest prefix of decimal digits, and what follows it. *)
Fixpoint span_digits (s : jsstring) : list Z * jsstring :=
  match s with
  | [] => ([], [])
  | c :: t =>
      if isDigit c
      then let (ds, r) := span_digits t in (digit_value c :: ds, r)
      else ([], s)
  end.

(** The rational [m * 10^p]. *)
Definition scale10 (m p : Z) : Q :=
  if 0 <=? p then inject_Z (m * 10 ^ p)
  else Qred (Qmake m (Z.to_pos (10 ^ (- p)))).

(** [ExponentPart_opt] followed by the end of the literal; [ds] are the
    digits read so far, [fraclen] of them after the decimal point. *)
Definition parse_exponent (ds : list Z) (fraclen : Z) (s : jsstring)
  : option Q :=
  let m := value_of_digits 10 ds in
  match s with
  | [] => Some (scale10 m (- fraclen))
  | c :: t =>
      if ((c =? 101) || (c =? 69))%N then
        let '(neg, t') :=
          match t with
          | s0 :: u => if (s0 =? 43)%N then (false, u)
                       else if (s0 =? 45)%N then (true, u)
                       else (false, t)
          | [] => (false, t)
          end in
        match span_digits t' with
        | ([], _) => None
        | (es, []) =>
            let e := value_of_digits 10 es in
            Some (scale10 m ((if neg then - e else e) - fraclen))
        | (_, _ :: _) => None
        end
      else None
  end.

(** [StrUnsignedDecimalLiteral] without the word [Infinity]. *)
Definition parse_unsigned_decimal (s : jsstring) : option Q :=
  let (ip, r1) := span_digits s in
  match r1 with
  | c :: r2 =>
      if (c =? 46)%N then
        let (fp, r3) := span_digits r2 in
        match ip, fp with
        | [], [] => None
        | _, _ => parse_exponent (ip ++ fp) (Z.of_nat (List.length fp)) r3
        end
      else match ip with
           | [] => None
           | _ => parse_exponent ip 0 r1
           end
  | [] => match ip with
          | [] => None
          | _ => parse_exponent ip 0 r1
          end
  end.

Definition radix_digit (radix : Z) (c : char) : option Z :=
  let v :=
    if isDigit c then digit_value c
    else if ((97 <=? c) && (c <=? 102))%N then Z.of_N c - 87
    else if ((65 <=? c) && (c <=? 70))%N then Z.of_N c - 55
    else radix in
  if v <? radix then Some v else None.

Fixpoint radix_digits (radix : Z) (s : jsstring) : option (list Z) :=
  match s with
  | [] => Some []
  | c :: t =>
      match radix_digit radix c, radix_digits radix t with
      | Some d, Some ds => Some (d :: ds)
      | _, _ => None
      end
  end.

(** [NonDecimalIntegerLiteral]: [0b], [0o], [0x] and their capitals. *)
Definition parse_non_decimal (s : jsstring) : option Q :=
  match s with
  | z :: p :: ((_ :: _) as ds) =>
      if (z =? 48)%N then
        let radix :=
          if ((p =? 98) || (p =? 66))%N then Some 2
          else if ((p =? 111) || (p =? 79))%N then Some 8
          else if ((p =? 120) || (p =? 88))%N then Some 16
          else None in
        match radix with
        | Some r =>
            match radix_digits r ds with
            | Some vs => Some (inject_Z (value_of_digits r vs))
            | None => None
            end
        | None => None
        end
      else None
  | _ => None
  end.

Definition Infinity_word : jsstring := js "Infinity".

(** [StrDecimalLiteral]: an optional sign, then [Infinity] or an unsigned
    decimal literal. *)
Definition parse_decimal (s : jsstring) : number :=
  let '(neg, body) :=
    match s with
    | c :: t => if (c =? 43)%N then (false, t)
                else if (c =? 45)%N then (true, t)
                else (false, s)
    | [] => (false, s)
    end in
  if string_eqb body Infinity_word
  then (if neg then NegInfinity else PosInfinity)
  else match parse_unsigned_decimal body with
       | Some q => Finite (if neg then Qred (Qopp q) else q)
       | None => NaN
       end.

(** [Number(text)], the abstract operation StringToNumber: white space is
    stripped, the empty string is [0], anything outside the grammar is
    [NaN]. *)
Definition Number (s : jsstring) : number :=
  match trim s with
  | [] => Finite (inject_Z 0)
  | t => match parse_non_decimal t with
         | Some q => Finite q
         | None => parse_decimal t
         end
  end.

(** Decimal digits of a non-negative integer, most significant first; the
    recursion is bounded by the binary size of the number. *)
Fixpoint decimal_digits_fuel (fuel : nat) (z : Z) : list Z :=
  match fuel with
  | O => [z]
  | S fuel' =>
      if z <? 10 then [z]
      else decimal_digits_fuel fuel' (z / 10) ++ [z mod 10]
  end.

Definition decimal_digits (z : Z) : list Z :=
  decimal_digits_fuel (Z.to_nat (Z.log2 z)) z.

Definition digit_char (d : Z) : char := Z.to_N (d + 48).

Fixpoint strip_zeros (ds : list Z) : list Z :=
  match ds with
  | [] => []
  | d :: t => if d =? 0 then strip_zeros t else ds
  end.

(** The digits without the trailing zeros. *)
Definition significand (ds : list Z) : list Z := rev (strip_zeros (rev ds)).

(** [String(z)] for a non-negative integer: the decimal digits when there
    are at most 21 of them, the exponent form [d.ddde+x] from 10^21 on.
    The digits are the exact ones; they are those binary64 prints whenever
    it holds [z] exactly and the digits before the trailing zeros number
    at most 15. *)
Definition unsigned_toString (z : Z) : jsstring :=
  let ds := decimal_digits z in
  let n := Z.of_nat (List.length ds) in
  if n <=? 21 then map digit_char ds
  else
    match significand ds with
    | [] => map digit_char ds
    | d :: rest =>
        digit_char d
        :: (match rest with [] => [] | _ => 46%N :: map digit_char rest end)
        ++ [101%N; 43%N] ++ map digit_char (decimal_digits (n - 1))
    end.

(** [String(z)] and the conversion inside template literals and [join]. *)
Definition Number_toString (z : Z) : jsstring :=
  if z <? 0 then 45%N :: unsigned_toString (- z) else unsigned_toString z.

(** JavaScript's [a % b] on integers: the remainder has the sign of the
    dividend.  Every divisor in this program is a non-zero constant or a
    trial divisor at least 2, so the [NaN] of [a % 0] does not arise. *)
Definition js_rem (a b : Z) : Z := Z.rem a b.

(** [Math.floor] *)
Definition Math_floor (q : Q) : Z := Qfloor q.

(** *** Arrays *)

(** [l.every((v, i) => p v i)] *)
Fixpoint every_from {A : Type} (p : A -> nat -> bool) (i : nat) (l : list A)
  : bool :=
  match l with
  | [] => true
  | v :: t => p v i && every_from p (S i) t
  end.

Definition every_indexed {A : Type} (p : A -> nat -> bool) (l : list A)
  : bool := every_from p 0%nat l.

(** [[...l].sort(cmp)] with a comparator returning a number: insertion of
    each element after the elements it does not precede. *)
Fixpoint sort_insert (cmp : Z -> Z -> Z) (x : Z) (l : list Z) : list Z :=
  match l with
  | [] => [x]
  | y :: t => if 0 <? cmp x y then y :: sort_insert cmp x t else x :: l
  end.

Fixpoint sort (cmp : Z -> Z -> Z) (l : list Z) : list Z :=
  match l with
  | [] => []
  | x :: t => sort_insert cmp x (sort cmp t)
  end.

End JS.

Import JS.

(* ================================================================= *)
(** ** Arithmetic kernel ("Utilidades de Matematica") *)
(* ================================================================= *)

(** The loop [for (let d = 3; d * d <= n; d += 2)] of [isPrime], entered
    with the current [d]. *)
Equations? isPrime_loop (n d : Z) : bool by wf (Z.to_nat (n + 1 - d)) lt :=
  isPrime_loop n d with inspect (d * d <=? n) => {
    | exist _ true Hle with js_rem n d =? 0 => {
        | true := false;
        | false := isPrime_loop n (d + 2) };
    | exist _ false _ := true }.
Proof.
  apply Z.leb_le in Hle. nia.
Qed.

Definition isPrime (n : Z) : bool :=
  if n <? 2 then false
  else if n =? 2 then true
  else if js_rem n 2 =? 0 then false
  else isPrime_loop n 3.

(** The same loop in [smallestFactor]; [None] is the source's [null]. *)
Equations? smallestFactor_loop (n d : Z) : option Z
  by wf (Z.to_nat (n + 1 - d)) lt :=
  smallestFactor_loop n d with inspect (d * d <=? n) => {
    | exist _ true Hle with js_rem n d =? 0 => {
        | true := Some d;
        | false := smallestFactor_loop n (d + 2) };
    | exist _ false _ := None }.
Proof.
  apply Z.leb_le in Hle. nia.
Qed.

Definition smallestFactor (n : Z) : option Z :=
  if n <? 2 then None
  else if js_rem n 2 =? 0 then Some 2
  else smallestFactor_loop n 3.

(** The inner loop [while (x % d === 0) { factors.push(d); x = x / d; }]
    of [primeFactors]; the result is the state [(x, factors)] at its exit,
    [None] when the fuel runs out.  The division is only reached when [d]
    divides [x], where it is exact. *)
Fixpoint primeFactors_inner (fuel : nat) (d x : Z) (factors : list Z)
  : option (Z * list Z) :=
  match fuel with
  | O => None
  | S fuel' =>
      if js_rem x d =? 0
      then primeFactors_inner fuel' d (x / d) (factors ++ [d])
      else Some (x, factors)
  end.

(** The outer loop [while (x >= 2 && d * d <= x)]. *)
Fixpoint primeFactors_outer (fuel : nat) (d x : Z) (factors : list Z)
  : option (Z * list Z) :=
  match fuel with
  | O => None
  | S fuel' =>
      if (2 <=? x) && (d * d <=? x) then
        match primeFactors_inner fuel d x factors with
        | Some (x', factors') =>
            primeFactors_outer fuel' (if d =? 2 then 3 else d + 2) x' factors'
        | None => None
        end
      else Some (x, factors)
  end.

Definition primeFactors_fuel (fuel : nat) (n : Z) : option (list Z) :=
  match primeFactors_outer fuel 2 n [] with
  | Some (x, factors) => Some (if 1 <? x then factors ++ [x] else factors)
  | None => None
  end.

(** [primeFactors n] runs the loops with [n + 1] units of fuel, which
    [primeFactors_fuel_enough] shows to be sufficient for every [n]; the
    [None] case is therefore never taken. *)
Definition primeFactors (n : Z) : list Z :=
  match primeFactors_fuel (S (Z.to_nat n)) n with
  | Some factors => factors
  | None => []
  end.

Record DivisibilityInfo : Type := {
  by2 : bool;
  by3 : bool;
  by5 : bool;
  by6 : bool;
  by10 : bool
}.

(** [String(n).split("").filter(c => /\d/.test(c))
      .reduce((a, b) => a + Number(b), 0)] *)
Definition sumDigits (n : Z) : Z :=
  fold_left (fun a b => a + to_integer (Number b))
    (filter (fun c => existsb isDigit c) (split_chars (Number_toString n)))
    0.

Definition divisibilityInfo (n : Z) : DivisibilityInfo :=
  {| by2 := js_rem n 2 =? 0;
     by3 := js_rem (sumDigits n) 3 =? 0;
     by5 := js_rem n 5 =? 0;
     by6 := js_rem n 6 =? 0;
     by10 := js_rem n 10 =? 0 |}.

(** The class [[×xX*·]] of the first [replace]. *)
Definition isTimesSign (c : char) : bool :=
  ((c =? 215) || (c =? 120) || (c =? 88) || (c =? 42) || (c =? 183))%N.

(** The class [[;,]] of the second [replace]. *)
Definition isListSeparator (c : char) : bool := ((c =? 59) || (c =? 44))%N.

Definition space : jsstring := js " ".

Definition cleaned (text : jsstring) : jsstring :=
  trim
    (replace_ws_runs space
       (replace_class isListSeparator space
          (replace_class isTimesSign space (toLowerCase text)))).

Definition normalizeFactorsInput (text : jsstring) : list number :=
  match cleaned text with
  | [] => []
  | c => filter Number_isFinite (map Number (split 32%N c))
  end.

(** The comparator [(x, y) => x - y]. *)
Definition ascending : Z -> Z -> Z := fun x y => x - y.

Definition multisetEqual (a b : list Z) : bool :=
  if negb (Nat.eqb (List.length a) (List.length b)) then false
  else
    let aa := sort ascending a in
    let bb := sort ascending b in
    every_indexed
      (fun v i => match nth_error bb i with
                  | Some w => v =? w
                  | None => false
                  end) aa.

Definition productOf (arr : list Z) : Z :=
  fold_left (fun acc v => acc * v) arr 1.

(* ================================================================= *)
(** ** Exercise engine ("Exercicios": gerador aleatorio e correcao) *)
(* ================================================================= *)

(** *** The random source

    [Math.random()] is the only effect of the generator.  A source is the
    sequence of the values the successive calls return; the generator is
    written in the state monad over it. *)

Definition RandomSource : Type := nat -> Q.

Definition Rand (A : Type) : Type := RandomSource -> A * RandomSource.

Definition ret {A : Type} (a : A) : Rand A := fun s => (a, s).

Definition bind {A B : Type} (m : Rand A) (k : A -> Rand B) : Rand B :=
  fun s => let (a, s') := m s in k a s'.

Notation "x <- m ;; k" := (bind m (fun x => k))
  (at level 61, m at next level, right associativity).

(** The source past its first value. *)
Definition rest (s : RandomSource) : RandomSource := fun i => s (S i).

Definition Math_random : Rand Q := fun s => (s 0%nat, rest s).

(** A source as [Math.random] provides it: every value lies in [0, 1). *)
Definition valid_source (s : RandomSource) : Prop :=
  forall i, (0 <= s i)%Q /\ (s i < 1)%Q.

(** [Math.floor(Math.random() * k)] *)
Definition random_below (k : Z) : Rand Z :=
  r <- Math_random ;; ret (Math_floor (r * inject_Z k)).

(** [arr[i]]; [None] is [undefined]. *)
Definition index {A : Type} (arr : list A) (i : Z) : option A :=
  if i <? 0 then None else nth_error arr (Z.to_nat i).

(** [arr[i]] for an array of numbers.  With a valid source the index is in
    range; [undefined] is rendered as [0]. *)
Definition index_number (arr : list Z) (i : Z) : Z :=
  match index arr i with Some v => v | None => 0 end.

(** *** Exercises *)

Record Exercise : Type := {
  type : jsstring;
  value : option Z;
  expected : option (list Z);
  prompt : jsstring;
  answer : jsstring;
  explain : jsstring
}.

Definition TYPES : list jsstring :=
  [js "divisibilidade"; js "primos"; js "fatoracao"; js "potenciacao";
   js "resto"].

Definition candidates : list Z :=
  [11; 12; 13; 14; 15; 16; 17; 19; 21; 23; 25; 29; 31; 33].

Definition factorization_pool : list Z := [12; 18; 20; 24; 36; 45; 50; 60].

(** [String(n).split("").reduce((a, b) => a + Number(b), 0)], on the
    subjects [n >= 10] of the generator, whose text holds digits only. *)
Definition digit_total (n : Z) : Z :=
  fold_left (fun a b => a + to_integer (Number b))
    (split_chars (Number_toString n)) 0.

Definition divisibilidade_case (t : jsstring) : Rand Exercise :=
  i <- random_below 190 ;;
  j <- random_below 4 ;;
  let n := 10 + i in
  let by_ := index_number [2; 3; 5; 10] j in
  let correct := js_rem n by_ =? 0 in
  ret {| type := t;
         value := None;
         expected := None;
         prompt := js "O número " ++ Number_toString n
                   ++ js " é divisível por " ++ Number_toString by_
                   ++ js "? (S/N)";
         answer := if correct then js "S" else js "N";
         explain :=
           if by_ =? 3
           then js "Soma dos algarismos de " ++ Number_toString n
                ++ js " = " ++ Number_toString (digit_total n) ++ js "; "
                ++ (if correct then js "é" else js "não é")
                ++ js " múltiplo de 3."
           else js "Regra prática de divisibilidade por "
                ++ Number_toString by_ ++ js "." |}.

Definition primos_case (t : jsstring) : Rand Exercise :=
  i <- random_below (Z.of_nat (List.length candidates)) ;;
  let n := index_number candidates i in
  ret {| type := t;
         value := None;
         expected := None;
         prompt := Number_toString n ++ js " é primo? (S/N)";
         answer := if isPrime n then js "sim" else js "não";
         explain :=
           if isPrime n
           then Number_toString n
                ++ js " tem apenas dois divisores (1 e ele mesmo)."
           else Number_toString n ++ js " não é primo; menor divisor: "
                ++ (match smallestFactor n with
                    | Some f => Number_toString f
                    | None => js "—"
                    end)
                ++ js "." |}.

Definition fatoracao_case (t : jsstring) : Rand Exercise :=
  i <- random_below 8 ;;
  let n := index_number factorization_pool i in
  let expectedFactors := primeFactors n in
  let fac := join (js " × ") (map Number_toString expectedFactors) in
  ret {| type := t;
         value := Some n;
         expected := Some expectedFactors;
         prompt := js "Fatore " ++ Number_toString n ++ js " em primos.";
         answer := fac;
         explain := js "Fatoração: " ++ fac ++ js "." |}.

Definition potenciacao_case (t : jsstring) : Rand Exercise :=
  i <- random_below 4 ;;
  j <- random_below 3 ;;
  let base := index_number [2; 3; 4; 5] i in
  let exp := index_number [2; 3; 4] j in
  ret {| type := t;
         value := None;
         expected := None;
         prompt := js "Calcule " ++ Number_toString base ++ js "^"
                   ++ Number_toString exp ++ js " ("
                   ++ Number_toString base ++ js " elevado a "
                   ++ Number_toString exp ++ js ").";
         answer := Number_toString (base ^ exp);
         explain := Number_toString base ++ js " multiplicado por si mesmo "
                    ++ Number_toString exp ++ js " vezes = "
                    ++ Number_toString (base ^ exp) |}.

Definition resto_case (t : jsstring) : Rand Exercise :=
  i <- random_below 90 ;;
  j <- random_below 9 ;;
  let a := 10 + i in
  let b := 3 + j in
  let q := a / b in
  let r := js_rem a b in
  ret {| type := t;
         value := None;
         expected := None;
         prompt := js "Em " ++ Number_toString a ++ js " ÷ "
                   ++ Number_toString b ++ js ", qual é o resto?";
         answer := Number_toString r;
         explain := Number_toString a ++ js " = " ++ Number_toString b
                    ++ js " × " ++ Number_toString q ++ js " + "
                    ++ Number_toString r ++ js "." |}.

Definition default_case : Exercise :=
  {| type := js "divisibilidade";
     value := None;
     expected := None;
     prompt := js "Erro ao gerar";
     answer := [];
     explain := [] |}.

Definition generateExercise : Rand Exercise :=
  i <- random_below (Z.of_nat (List.length TYPES)) ;;
  match index TYPES i with
  | Some t =>
      if string_eqb t (js "divisibilidade") then divisibilidade_case t
      else if string_eqb t (js "primos") then primos_case t
      else if string_eqb t (js "fatoracao") then fatoracao_case t
      else if string_eqb t (js "potenciacao") then potenciacao_case t
      else if string_eqb t (js "resto") then resto_case t
      else ret default_case
  | None => ret default_case
  end.

(** *** Grading: the feedback computed by [submit]

    [submit] also stores the feedback and bumps the persisted counters;
    only the feedback [{ correct, explain, expected }] is modelled. *)

Record Feedback : Type := {
  correct : bool;
  explanation : jsstring;
  expectedDisplay : jsstring
}.

Definition msg_format : jsstring :=
  js "Formato aceito: 2x2x3, 2 2 3, 2,2,3 ou 2×2×3.".

Definition msg_integers : jsstring := js "Use apenas inteiros ≥ 2.".

Definition msg_non_primes (nonPrimes : list Z) : jsstring :=
  js "Nem todos os fatores são primos ("
  ++ join (js ", ") (map Number_toString nonPrimes)
  ++ js "). Dica: fatorar compostos (ex.: 6 = 2x3).".

Definition msg_product (prod v : Z) : jsstring :=
  js "O produto dos fatores digitados é " ++ Number_toString prod
  ++ js ", mas deve ser " ++ Number_toString v ++ js ".".

(** Truthiness of [ex.value]: defined and not zero. *)
Definition truthy (v : option Z) : bool :=
  match v with Some n => negb (n =? 0) | None => false end.

(** The factorisation branch of [submit], entered with the truthy
    [ex.value].  Past the integer test every parsed value is an integer and
    is handled as such. *)
Definition submit_fatoracao (ex : Exercise) (v : Z) (input : jsstring)
  : Feedback :=
  let factors := normalizeFactorsInput input in
  if Nat.eqb (List.length factors) 0 then
    {| correct := false; explanation := msg_format;
       expectedDisplay := answer ex |}
  else if negb (forallb (fun k => Number_isInteger k && num_ge k (of_Z 2))
                  factors) then
    {| correct := false; explanation := msg_integers;
       expectedDisplay := answer ex |}
  else
    let ks := map to_integer factors in
    if existsb (fun k => negb (isPrime k)) ks then
      let nonPrimes := filter (fun k => negb (isPrime k)) ks in
      {| correct := false; explanation := msg_non_primes nonPrimes;
         expectedDisplay := answer ex |}
    else if negb (productOf ks =? v) then
      let prod := productOf ks in
      {| correct := false; explanation := msg_product prod v;
         expectedDisplay := answer ex |}
    else
      let expectedFactors :=
        match expected ex with
        | Some e => e
        | None => primeFactors v
        end in
      let c := multisetEqual ks expectedFactors in
      let shown := join (js " × ") (map Number_toString expectedFactors) in
      {| correct := c;
         explanation :=
           (if c then js "Perfeito! " else js "Revise: ")
           ++ Number_toString v ++ js " = " ++ shown ++ js ".";
         expectedDisplay := shown |}.

Definition submit (ex : Exercise) (input : jsstring) : Feedback :=
  if string_eqb (type ex) (js "fatoracao") && truthy (value ex)
  then submit_fatoracao ex (match value ex with Some v => v | None => 0 end)
         input
  else
    let normalized := toLowerCase (trim input) in
    {| correct := string_eqb normalized (toLowerCase (answer ex));
       explanation := explain ex;
       expectedDisplay := answer ex |}.

(* ================================================================= *)
(** ** Vocabulary of the specifications *)
(* ================================================================= *)

(** [x] has no divisor [k] with [2 <= k < d]: the invariant of the three
    trial-division loops. *)
Definition no_divisor_below (d x : Z) : Prop :=
  forall k, 2 <= k < d -> ~ (k | x).

(** The invariant of both loops of [primeFactors n]: [factors] holds, in
    ascending order, primes not above [d] whose product with the residue
    [x] is [n], and [x] has no divisor below [d]. *)
Definition pf_inv (n d x : Z) (factors : list Z) : Prop :=
  1 <= x /\ productOf factors * x = n /\ Forall Z.prime factors
  /\ StronglySorted Z.le factors /\ Forall (fun p => p <= d) factors
  /\ no_divisor_below d x.

(** The successive trial divisors 2, 3, 5, 7, ... *)
Definition trial_divisor (d : Z) : Prop :=
  d = 2 \/ (3 <= d /\ Z.odd d = true).


(** The reference sieve of the property tests: Eratosthenes' sieve on
    [2 .. limit].  Each round keeps the head of the list and strikes out
    its multiples. *)
Fixpoint sieve_rounds (fuel : nat) (l : list Z) : list Z :=
  match fuel, l with
  | S fuel', p :: t =>
      p :: sieve_rounds fuel' (filter (fun k => negb (k mod p =? 0)) t)
  | _, _ => []
  end.

Definition sieve (limit : nat) : list Z :=
  sieve_rounds limit (map Z.of_nat (seq 2 (limit - 1))).

Definition in_sieve (limit : nat) (n : Z) : bool :=
  existsb (Z.eqb n) (sieve limit).

(** An exercise as the factorisation case of [generateExercise] builds it
    for the subject value [n]. *)
Definition factorization_exercise (ex : Exercise) (n : Z) : Prop :=
  type ex = js "fatoracao" /\ In n factorization_pool
  /\ value ex = Some n /\ expected ex = Some (primeFactors n).

(** The test of the second grading rule on one parsed value. *)
Definition integer_ge_2 (k : number) : bool :=
  Number_isInteger k && num_ge k (of_Z 2).

(** A source that returns the values of [l], then zeros. *)
Definition const_source (l : list Q) : RandomSource :=
  fun i => nth i l 0%Q.

(** The factorisation exercise for the subject value 12, as generated. *)
Definition exercise_12 : Exercise :=
  {| type := js "fatoracao";
     value := Some 12;
     expected := Some (primeFactors 12);
     prompt := js "Fatore 12 em primos.";
     answer := js "2 × 2 × 3";
     explain := js "Fatoração: 2 × 2 × 3." |}.


(** Sum of the decimal digits of a non-negative integer. *)
Definition digit_sum (n : Z) : Z := fold_right Z.add 0 (decimal_digits n).

(** A decimal digit. *)
Definition is_digit_value (d : Z) : Prop := 0 <= d <= 9.

(** [Number.MAX_SAFE_INTEGER]: up to it every integer is a binary64 value
    and [String] prints its exact decimal expansion. *)
Definition MAX_SAFE_INTEGER : Z := 2 ^ 53 - 1.

(** The draws that make [generateExercise] ask whether 15 is divisible
    by 3: topic 0, [n = 10 + 5], divisor of index 1. *)
Definition source_15_by_3 : RandomSource :=
  const_source [0 # 1; 5 # 190; 1 # 4]%Q.

(** The draws that make it ask for 2^3: topic 3, base of index 0, exponent
    of index 1. *)
Definition source_2_pow_3 : RandomSource :=
  const_source [3 # 5; 0 # 1; 1 # 3]%Q.

(** A code unit that [normalizeFactorsInput] treats as a separator: a
    multiplication mark, a comma or semicolon, or white space. *)
Definition is_separator (c : char) : bool :=
  isTimesSign c || isListSeparator c || isWhiteSpace c.

(** An accepted separator: a non-empty run of separator code units, such
    as "x", "×", ",", ";" or any mix of white space. *)
Definition separator (s : jsstring) : Prop :=
  s <> [] /\ forallb is_separator s = true.

(** What lower-casing and the first two [replace] calls of
    [normalizeFactorsInput] do to one code unit. *)
Definition clean_char (c : char) : char :=
  let c1 := toLower c in
  let c2 := if isTimesSign c1 then 32%N else c1 in
  if isListSeparator c2 then 32%N else c2.

(** The code units of the texts [String] produces for non-negative
    integers: digits, the decimal point, [e] and [+]. *)
Definition is_numeral_char (c : char) : bool :=
  (isDigit c || (c =? 46) || (c =? 101) || (c =? 43))%N.

Definition no_white_space (s : jsstring) : Prop :=
  forallb (fun c => negb (isWhiteSpace c)) s = true.

Definition all_white_space (s : jsstring) : Prop :=
  forallb isWhiteSpace s = true.

(** The first code unit, if any, is not white space. *)
Definition starts_clean (s : jsstring) : Prop :=
  match s with [] => True | c :: _ => isWhiteSpace c = false end.

(** The first code unit, if any, is not a digit. *)
Definition starts_nondigit (s : jsstring) : Prop :=
  match s with [] => True | c :: _ => isDigit c = false end.

(** A first token followed by (separator, token) pairs, concatenated. *)
Definition interleave (tok : jsstring) (pairs : list (jsstring * jsstring))
  : jsstring :=
  tok ++ flat_map (fun p => fst p ++ snd p) pairs.

(** The fraction part of the exponent form: empty, or a point and the
    digits after the first. *)
Definition fraction_part (digits_after : list Z) : jsstring :=
  match digits_after with
  | [] => []
  | _ => 46%N :: map digit_char digits_after
  end.

(** A token of the cleaned text: non-empty and free of white space. *)
Definition token (t : jsstring) : Prop := t <> [] /\ no_white_space t.

(* ================================================================= *)
(** ** The widgets that call the kernel *)
(* ================================================================= *)

(** *** "Fatoracao Animada": the steps of the animated factorisation *)

Module Step.

Record Step : Type := {
  value : Z;
  factor : Z;
  remaining : Z
}.

End Step.

(** The loop [while (v >= 2)] of [buildSteps], entered with the array
    built so far; each [break] and the loop test return the array, [None]
    is the fuel running out.  [!f] holds for [null] and for [0].  The
    division is reached with a divisor [f] of [v], where it is exact. *)
Fixpoint buildSteps_loop (fuel : nat) (v : Z) (arr : list Step.Step)
  : option (list Step.Step) :=
  match fuel with
  | O => None
  | S fuel' =>
      if 2 <=? v then
        let stop :=
          Some (arr ++ [{| Step.value := v; Step.factor := v;
                           Step.remaining := 1 |}]) in
        match smallestFactor v with
        | None => stop
        | Some f =>
            if f =? 0 then stop
            else
              let arr' := arr ++ [{| Step.value := v; Step.factor := f;
                                     Step.remaining := v / f |}] in
              let v' := v / f in
              if v' =? 1 then Some arr' else buildSteps_loop fuel' v' arr'
        end
      else Some arr
  end.

(** [buildSteps x] runs the loop with [x + 1] units of fuel, which
    [buildSteps_fuel_enough] shows to be sufficient. *)
Definition buildSteps (x : Z) : list Step.Step :=
  match buildSteps_loop (S (Z.to_nat x)) x [] with
  | Some arr => arr
  | None => []
  end.

(** A chain of division steps from [v] down to 1: each step shows the
    current value, splits it into factor times remainder, and the next
    step starts from that remainder. *)
Fixpoint chained (v : Z) (steps : list Step.Step) : Prop :=
  match steps with
  | [] => v = 1
  | st :: others =>
      Step.value st = v
      /\ v = Step.factor st * Step.remaining st
      /\ chained (Step.remaining st) others
  end.

(** *** "Divisao Animada": groups of the size of the divisor *)

Module Divisao.

Record Groups : Type := {
  groups : Z;
  remainder : Z
}.

End Divisao.

(** The loop [while (rest >= divisor && divisor > 0)] of the [groups]
    memo; the result is [(arr, rest)] at its exit. *)
Fixpoint groups_loop (fuel : nat) (divisor rest_ : Z) (arr : list Z)
  : option (list Z * Z) :=
  match fuel with
  | O => None
  | S fuel' =>
      if (divisor <=? rest_) && (0 <? divisor)
      then groups_loop fuel' divisor (rest_ - divisor) (arr ++ [divisor])
      else Some (arr, rest_)
  end.

Definition groups_fuel (fuel : nat) (dividendo divisor : Z)
  : option Divisao.Groups :=
  match groups_loop fuel divisor dividendo [] with
  | Some (arr, rest_) =>
      Some {| Divisao.groups := Z.of_nat (List.length arr);
              Divisao.remainder := Z.max 0 rest_ |}
  | None => None
  end.

(** The memo [groups] of [DivisaoPage], with [dividendo + 1] units of
    fuel ([groups_fuel_enough]). *)
Definition groups (dividendo divisor : Z) : Divisao.Groups :=
  match groups_fuel (S (Z.to_nat dividendo)) dividendo divisor with
  | Some g => g
  | None => {| Divisao.groups := 0; Divisao.remainder := 0 |}
  end.

(** [shown = Math.min(step, groups.groups)] and the remainder displayed
    beside it, [Math.max(0, dividendo - shown * divisor)]. *)
Definition shown (step dividendo divisor : Z) : Z :=
  Z.min step (Divisao.groups (groups dividendo divisor)).

Definition displayed_rest (step dividendo divisor : Z) : Z :=
  Z.max 0 (dividendo - shown step dividendo divisor * divisor).

(** *** Sources for the other topics *)

(** Topic 1 and the candidate of index 0: is 11 prime? *)
Definition source_primos_11 : RandomSource := const_source [1 # 5; 0 # 1]%Q.

(** Topic 2 and the subject of index 0: factor 12. *)
Definition source_fatoracao_12 : RandomSource :=
  const_source [2 # 5; 0 # 1]%Q.

(** Topic 4, [a = 10 + 7] and [b = 3 + 2]: the remainder of 17 by 5. *)
Definition source_resto_17_5 : RandomSource :=
  const_source [4 # 5; 7 # 90; 2 # 9]%Q.

(** *** "FactorizacaoMini": the factorisation badge of the concepts page

    [fac = x >= 2 ? primeFactors(x) : []], for the integer values of the
    field [x]. *)
Definition FactorizacaoMini_fac (x : Z) : list Z :=
  if 2 <=? x then primeFactors x else [].

(** The text of the badge: [x < 2 ? "N/A" : fac.join(" × ") || "—"]; the
    dash stands in for an empty joined text. *)
Definition FactorizacaoMini_badge (x : Z) : jsstring :=
  if x <? 2 then js "N/A"
  else
    match join (js " × ") (map Number_toString (FactorizacaoMini_fac x)) with
    | [] => js "—"
    | c :: t => c :: t
    end.

(** *** "Fatoracao Animada": what the two panels show

    [arr.slice(0, end)] for an integer [end]; a negative [end] counts
    from the end of the array. *)
Definition slice_from_start {A : Type} (arr : list A) (end_ : Z) : list A :=
  let len := Z.of_nat (List.length arr) in
  let k := if end_ <? 0 then Z.max (len + end_) 0 else Z.min end_ len in
  firstn (Z.to_nat k) arr.

Module FatoracaoPage.

(** The button "Próximo passo":
    [setShown((s) => Math.min(steps.length, s + 1))]. *)
Definition proximo_passo (steps : list Step.Step) (s : Z) : Z :=
  Z.min (Z.of_nat (List.length steps)) (s + 1).

(** The update made by the timer of "Auto". *)
Definition tick (steps : list Step.Step) (s : Z) : Z :=
  if Z.of_nat (List.length steps) <=? s then s else s + 1.

Inductive Control : Type := ProximoPasso | Tick.

Definition control (steps : list Step.Step) (s : Z) (c : Control) : Z :=
  match c with
  | ProximoPasso => proximo_passo steps s
  | Tick => tick steps s
  end.

(** [shown] after some presses and ticks, from the 0 it is reset to when
    the steps are built. *)
Definition shown_after (steps : list Step.Step) (controls : list Control)
  : Z :=
  fold_left (control steps) controls 0.

(** The left panel: [steps.slice(0, shown)]. *)
Definition steps_shown (n shown : Z) : list Step.Step :=
  slice_from_start (buildSteps n) shown.

(** The right panel: [primeFactors(n).slice(0, Math.max(0, shown))]. *)
Definition factors_shown (n shown : Z) : list Z :=
  slice_from_start (primeFactors n) (Z.max 0 shown).

(** The test [shown >= steps.length && steps.length > 0] of the effect
    that grants the points of the page. *)
Definition completed (steps : list Step.Step) (shown : Z) : bool :=
  (Z.of_nat (List.length steps) <=? shown)
  && (0 <? Z.of_nat (List.length steps)).

End FatoracaoPage.

(** *** Vocabulary of the parsing properties

    A token that the cleaning of [normalizeFactorsInput] leaves as it is:
    not empty, free of white space, upper-case letters, multiplication
    marks and list separators. *)
Definition clean_token (t : jsstring) : Prop :=
  token t /\ map clean_char t = t.

(* ================================================================= *)
(** ** Progress tracking, the series of five and the prime hunt *)
(* ================================================================= *)

(** *** Objects used as tables

    A JavaScript object used as a table from string keys is the list of
    its own properties.  Reading a missing key gives [undefined], here
    [None]; writing an existing key keeps its place, writing a new key
    adds it.  The keys read by the program are the five topics and the
    medal identifiers, none of which is a property of
    [Object.prototype]. *)

Module Obj.

Fixpoint get_property {A : Type} (o : list (jsstring * A)) (k : jsstring)
  : option A :=
  match o with
  | [] => None
  | (k', v) :: o' => if string_eqb k' k then Some v else get_property o' k
  end.

Fixpoint set_property {A : Type} (o : list (jsstring * A)) (k : jsstring)
  (v : A) : list (jsstring * A) :=
  match o with
  | [] => [(k, v)]
  | (k', v') :: o' =>
      if string_eqb k' k then (k', v) :: o'
      else (k', v') :: set_property o' k v
  end.

End Obj.

(** *** The persisted statistics

    The counters are numbers that the program only increments by small
    integers; they are modelled by [Z], which is exact below [2^53]. *)

Module Topic.

Record Counters : Type := {
  correct : Z;
  wrong : Z
}.

End Topic.

Module Stats.

Record Stats : Type := {
  xp : Z;
  medals : list jsstring;
  bestFiveScore : Z;
  sessions : Z;
  totalQuestions : Z;
  correctQuestions : Z;
  perTopic : list (jsstring * Topic.Counters);
  achievements : list (jsstring * jsstring);
  primeHuntCompleted : bool
}.

(** The assignments [s.xp = v], [s.medals = v], ... to one field. *)

Definition with_xp (s : Stats) (v : Z) : Stats :=
  {| xp := v; medals := medals s; bestFiveScore := bestFiveScore s;
     sessions := sessions s; totalQuestions := totalQuestions s;
     correctQuestions := correctQuestions s; perTopic := perTopic s;
     achievements := achievements s;
     primeHuntCompleted := primeHuntCompleted s |}.

Definition with_medals (s : Stats) (v : list jsstring) : Stats :=
  {| xp := xp s; medals := v; bestFiveScore := bestFiveScore s;
     sessions := sessions s; totalQuestions := totalQuestions s;
     correctQuestions := correctQuestions s; perTopic := perTopic s;
     achievements := achievements s;
     primeHuntCompleted := primeHuntCompleted s |}.

Definition with_bestFiveScore (s : Stats) (v : Z) : Stats :=
  {| xp := xp s; medals := medals s; bestFiveScore := v;
     sessions := sessions s; totalQuestions := totalQuestions s;
     correctQuestions := correctQuestions s; perTopic := perTopic s;
     achievements := achievements s;
     primeHuntCompleted := primeHuntCompleted s |}.

Definition with_sessions (s : Stats) (v : Z) : Stats :=
  {| xp := xp s; medals := medals s; bestFiveScore := bestFiveScore s;
     sessions := v; totalQuestions := totalQuestions s;
     correctQuestions := correctQuestions s; perTopic := perTopic s;
     achievements := achievements s;
     primeHuntCompleted := primeHuntCompleted s |}.

Definition with_totalQuestions (s : Stats) (v : Z) : Stats :=
  {| xp := xp s; medals := medals s; bestFiveScore := bestFiveScore s;
     sessions := sessions s; totalQuestions := v;
     correctQuestions := correctQuestions s; perTopic := perTopic s;
     achievements := achievements s;
     primeHuntCompleted := primeHuntCompleted s |}.

Definition with_correctQuestions (s : Stats) (v : Z) : Stats :=
  {| xp := xp s; medals := medals s; bestFiveScore := bestFiveScore s;
     sessions := sessions s; totalQuestions := totalQuestions s;
     correctQuestions := v; perTopic := perTopic s;
     achievements := achievements s;
     primeHuntCompleted := primeHuntCompleted s |}.

Definition with_perTopic (s : Stats) (v : list (jsstring * Topic.Counters))
  : Stats :=
  {| xp := xp s; medals := medals s; bestFiveScore := bestFiveScore s;
     sessions := sessions s; totalQuestions := totalQuestions s;
     correctQuestions := correctQuestions s; perTopic := v;
     achievements := achievements s;
     primeHuntCompleted := primeHuntCompleted s |}.

Definition with_achievements (s : Stats) (v : list (jsstring * jsstring))
  : Stats :=
  {| xp := xp s; medals := medals s; bestFiveScore := bestFiveScore s;
     sessions := sessions s; totalQuestions := totalQuestions s;
     correctQuestions := correctQuestions s; perTopic := perTopic s;
     achievements := v;
     primeHuntCompleted := primeHuntCompleted s |}.

Definition with_primeHuntCompleted (s : Stats) (v : bool) : Stats :=
  {| xp := xp s; medals := medals s; bestFiveScore := bestFiveScore s;
     sessions := sessions s; totalQuestions := totalQuestions s;
     correctQuestions := correctQuestions s; perTopic := perTopic s;
     achievements := achievements s;
     primeHuntCompleted := v |}.

End Stats.


(** [arr.includes(x)] on an array of strings. *)
Definition includes (arr : list jsstring) (x : jsstring) : bool :=
  existsb (fun y => string_eqb y x) arr.

(** [awardMedal] changes the statistics in place and returns them; the
    changed statistics are the result here.  [now] is the text of
    [new Date().toISOString()] at the call. *)
Definition awardMedal (stats : Stats.Stats) (medalId : jsstring)
  (now : jsstring) : Stats.Stats :=
  let stats1 :=
    if negb (includes (Stats.medals stats) medalId)
    then Stats.with_medals stats (Stats.medals stats ++ [medalId])
    else stats in
  Stats.with_achievements stats1
    (Obj.set_property (Stats.achievements stats1) medalId now).

(** *** The series of five exercises *)

Module ExerciciosPage.

(** The state of the page: its five state variables and the statistics
    held by [statsRef]. *)
Record State : Type := {
  round : Z;
  ex : Exercise;
  input : jsstring;
  feedback : option Feedback;
  score : Z;
  stats : Stats.Stats
}.

(** What a handler leaves: the next state, or the [TypeError] of reading
    a property of [undefined], with the statistics as changed up to
    there. *)
Inductive Outcome : Type :=
| Done (st : State)
| TypeError (s : Stats.Stats).

(** [counters[correct ? "correct" : "wrong"] += 1] *)
Definition count (c : bool) (t : Topic.Counters) : Topic.Counters :=
  if c
  then {| Topic.correct := Topic.correct t + 1; Topic.wrong := Topic.wrong t |}
  else {| Topic.correct := Topic.correct t; Topic.wrong := Topic.wrong t + 1 |}.

(** The handler [submit]: the feedback of the grading, then the
    counters. *)
Definition submit (st : State) : Outcome :=
  let fb := submit (ex st) (input st) in
  let c := correct fb in
  let s1 := Stats.with_totalQuestions (stats st)
              (Stats.totalQuestions (stats st) + 1) in
  match Obj.get_property (Stats.perTopic s1) (type (ex st)) with
  | None => TypeError s1
  | Some t =>
      let s2 := Stats.with_perTopic s1
                  (Obj.set_property (Stats.perTopic s1) (type (ex st))
                     (count c t)) in
      let s3 :=
        if c
        then Stats.with_xp
               (Stats.with_correctQuestions s2
                  (Stats.correctQuestions s2 + 1))
               (Stats.xp s2 + 5)
        else s2 in
      Done {| round := round st;
              ex := ex st;
              input := input st;
              feedback := Some fb;
              score := if c then score st + 1 else score st;
              stats := s3 |}
  end.

(** The handler [next]; [now1] and [now2] are the times of the two calls
    of [awardMedal]. *)
Definition next (now1 now2 : jsstring) (st : State) : Rand State :=
  if 5 <=? round st then
    let s := stats st in
    let s1 := Stats.with_bestFiveScore s
                (Z.max (Stats.bestFiveScore s) (score st)) in
    let s2 := if score st =? 5
              then awardMedal s1 (js "medal_perfeicao_5_de_5") now1
              else s1 in
    let s3 := if 4 <=? score st
              then awardMedal s2 (js "medal_quase_lagrimas") now2
              else s2 in
    let s4 := Stats.with_xp s3 (Stats.xp s3 + score st * 3) in
    e <- generateExercise ;;
    ret {| round := 1; ex := e; input := []; feedback := None;
           score := 0; stats := s4 |}
  else
    e <- generateExercise ;;
    ret {| round := round st + 1; ex := e; input := []; feedback := None;
           score := score st; stats := stats st |}.

(** The effect [if (round === 1) { s.sessions += 1; ... }], run when the
    page is mounted and after each change of [round]. *)
Definition sessions_effect (st : State) : State :=
  if round st =? 1
  then {| round := round st; ex := ex st; input := input st;
          feedback := feedback st; score := score st;
          stats := Stats.with_sessions (stats st)
                     (Stats.sessions (stats st) + 1) |}
  else st.

(** The page as mounted on the loaded statistics. *)
Definition mount (loaded : Stats.Stats) : Rand State :=
  e <- generateExercise ;;
  ret (sessions_effect
         {| round := 1; ex := e; input := []; feedback := None;
            score := 0; stats := loaded |}).

(** What the user does: type in the field, answer, go on. *)
Inductive Action : Type :=
| Type_ (text : jsstring)
| Submit
| Next (now1 now2 : jsstring).

Definition step (a : Action) (st : State) : Rand Outcome :=
  match a with
  | Type_ text =>
      ret (Done {| round := round st; ex := ex st; input := text;
                   feedback := feedback st; score := score st;
                   stats := stats st |})
  | Submit => ret (submit st)
  | Next now1 now2 =>
      st' <- next now1 now2 st ;;
      ret (Done (if round st' =? round st then st' else sessions_effect st'))
  end.


End ExerciciosPage.

(** *** "Jogo dos Primos": the prime hunt on the cells 0 to 100 *)

Module PrimeHunt.

Inductive Mark : Type := correct | wrong.

Definition is_correct (m : Mark) : bool :=
  match m with correct => true | wrong => false end.

(** [clicked] is a table from the numbers of the cells to their marks;
    only its entries and their count are read. *)
Record State : Type := {
  clicked : list (Z * Mark);
  msg : option jsstring;
  stats : Stats.Stats
}.


(** [Array.from({ length: 101 }, (_, i) => i).filter((n) => isPrime(n))] *)
Definition primes : list Z := filter isPrime (map Z.of_nat (seq 0 101)).

Definition totalPrimes : Z := Z.of_nat (List.length primes).

(** [Object.values(clicked).filter((v) => v === "correct").length] *)
Definition correctCount (table : list (Z * Mark)) : Z :=
  Z.of_nat (List.length (filter is_correct (map snd table))).

(** [f ? ... : ...] holds for a factor that is neither [null] nor 0. *)
Definition explain (n : Z) : jsstring :=
  if n <? 2
  then Number_toString n
       ++ js " não é primo (por definição, primos começam em 2)."
  else if (js_rem n 2 =? 0) && negb (n =? 2)
  then Number_toString n ++ js " não é primo: é par (divisível por 2)."
  else
    match smallestFactor n with
    | Some f =>
        if f =? 0 then Number_toString n ++ js " é primo!"
        else Number_toString n ++ js " não é primo: divisível por "
             ++ Number_toString f ++ js "."
    | None => Number_toString n ++ js " é primo!"
    end.


Definition msg_completed : jsstring :=
  js "Parabéns! Você encontrou todos os primos até 100. Medalha conquistada!".

(** The effect on [correctCount] and [totalPrimes]. *)
Definition completion_effect (now : jsstring) (st : State) : State :=
  if (correctCount (clicked st) =? totalPrimes) && (0 <? totalPrimes)
  then
    let s1 := Stats.with_primeHuntCompleted (stats st) true in
    let s2 := awardMedal s1 (js "medal_caca_primos_0_100") now in
    let s3 := Stats.with_xp s2 (Stats.xp s2 + 50) in
    {| clicked := clicked st; msg := Some msg_completed; stats := s3 |}
  else st.


(** The page as mounted on the loaded statistics: nothing clicked; the
    effect runs once. *)
Definition mount (now : jsstring) (loaded : Stats.Stats) : State :=
  completion_effect now {| clicked := []; msg := None; stats := loaded |}.


End PrimeHunt.

(** *** Vocabulary of the progress properties *)





(** The statistics of an outcome, whichever it is. *)
Definition outcome_stats (o : ExerciciosPage.Outcome) : Stats.Stats :=
  match o with
  | ExerciciosPage.Done st => ExerciciosPage.stats st
  | ExerciciosPage.TypeError s => s
  end.





(* ================================================================= *)
(** ** Where exact arithmetic and binary64 agree *)
(* ================================================================= *)

From Stdlib Require Import Qpower.

(** The numbers of the program are binary64 values, and the model
    computes with exact integers and rationals.  The two give the same
    results as long as every value that arises is a binary64 value: a
    decimal text that denotes a binary64 value is read as that value, sums,
    differences and products of integers of magnitude at most [2^53 - 1]
    are exact when the result is in that range too, and [String] prints
    every digit of such an integer.  The predicates below name the inputs
    on which this holds; the statements that depend on what a text is read
    as, on a printed number or on an array carry them as hypotheses. *)

(** [q] is a finite binary64 value: [m * 2^e] with [|m| < 2^53] and
    [-1074 <= e <= 971]. *)
Definition binary64 (q : Q) : Prop :=
  exists m e : Z,
    Z.abs m < 2 ^ 53 /\ -1074 <= e <= 971 /\ (q == inject_Z m * 2 ^ e)%Q.

(** A value of the model that [Number] of the program gives as well: not
    a number, an infinity, or a binary64 value, which rounding leaves as it
    is.  A text such as "1e400", which overflows to [Infinity], or
    "2.0000000000000000001", which is rounded to 2, is read by the model as
    a value that is not of this kind. *)
Definition exact_number (x : number) : Prop :=
  match x with
  | Finite q => binary64 q
  | _ => True
  end.

(** The words that [normalizeFactorsInput] passes to [Number]. *)
Definition words (text : jsstring) : list jsstring :=
  match cleaned text with
  | [] => []
  | c :: t => split 32%N (c :: t)
  end.

(** Every word of the text is read by the program as the model reads
    it. *)
Definition read_exactly (text : jsstring) : Prop :=
  Forall exact_number (map Number (words text)).

(** A test that is sufficient for [binary64]: the denominator is a power
    of two [2^k] with [k <= 1074] and the numerator is below [2^53] in
    magnitude. *)
Fixpoint log2_exact (p : positive) : option Z :=
  match p with
  | xH => Some 0
  | xO p' =>
      match log2_exact p' with
      | Some k => Some (k + 1)
      | None => None
      end
  | xI _ => None
  end.

Definition binary64_check (q : Q) : bool :=
  match log2_exact (Qden q) with
  | Some k => (Z.abs (Qnum q) <? 2 ^ 53) && (k <=? 1074)
  | None => false
  end.

Definition exact_number_check (x : number) : bool :=
  match x with
  | Finite q => binary64_check q
  | _ => true
  end.

Definition read_exactly_check (text : jsstring) : bool :=
  forallb exact_number_check (map Number (words text)).

(** The largest length of an array; [push] beyond it raises. *)
Definition MAX_ARRAY_LENGTH : Z := 2 ^ 32 - 1.
(* ================================================================= *)
(** ** Properties of the arithmetic kernel *)
(* ================================================================= *)

Lemma isPrime_loop_eq n d :
  isPrime_loop n d =
  if d * d <=? n
  then (if js_rem n d =? 0 then false else isPrime_loop n (d + 2))
  else true.
Proof.
  funelim (isPrime_loop n d).
  - rewrite e. reflexivity.
  - rewrite Hle, Heq. reflexivity.
  - rewrite Hle, Heq. reflexivity.
Qed.

Lemma smallestFactor_loop_eq n d :
  smallestFactor_loop n d =
  if d * d <=? n
  then (if js_rem n d =? 0 then Some d else smallestFactor_loop n (d + 2))
  else None.
Proof.
  funelim (smallestFactor_loop n d).
  - rewrite e. reflexivity.
  - rewrite Hle, Heq. reflexivity.
  - rewrite Hle, Heq. reflexivity.
Qed.

Lemma js_rem_zero_divide a b :
  b <> 0 -> (js_rem a b =? 0) = true <-> (b | a).
Proof.
  intros Hb. unfold js_rem. rewrite Z.eqb_eq. apply Z.rem_divide. exact Hb.
Qed.

Lemma js_rem_nonzero_not_divide a b :
  b <> 0 -> (js_rem a b =? 0) = false <-> ~ (b | a).
Proof.
  intros Hb. rewrite <- (js_rem_zero_divide a b Hb).
  destruct (js_rem a b =? 0); split; intros; congruence.
Qed.

Lemma no_divisor_below_step d x :
  2 <= d -> Z.odd d = true -> no_divisor_below d x -> ~ (d | x) ->
  3 <= d -> no_divisor_below (d + 2) x.
Proof.
  intros Hd Hodd Hno Hnd H3 k Hk Hdiv.
  destruct (Z.eq_dec k d) as [-> | Hkd]; [auto |].
  destruct (Z.eq_dec k (d + 1)) as [-> | Hkd1].
  - apply (Hno 2); [lia |].
    apply Z.divide_trans with (d + 1); [| exact Hdiv].
    rewrite (Zodd_bool_iff d) in Hodd.
    destruct (Zodd_ex _ Hodd) as [m Hm].
    exists (m + 1). lia.
  - apply (Hno k); [lia | exact Hdiv].
Qed.

Lemma no_divisor_below_three x :
  ~ (2 | x) -> no_divisor_below 3 x.
Proof.
  intros H2 k Hk Hdiv. assert (k = 2) by lia. subst. auto.
Qed.

(** A number without a divisor [k >= 2] with [k * k <= x] is prime. *)
Lemma no_small_divisor_prime d x :
  1 < x -> x < d * d -> 0 <= d -> no_divisor_below d x -> Z.prime x.
Proof.
  intros Hx Hlt Hd Hno.
  split; [exact Hx |].
  intros k Hk [q Hq].
  assert (Hqpos : 1 < q < x) by nia.
  destruct (Z_lt_le_dec k d) as [Hkd | Hkd].
  - apply (Hno k); [lia | exists q; exact Hq].
  - destruct (Z_lt_le_dec q d) as [Hqd | Hqd].
    + apply (Hno q); [lia | exists k; lia].
    + nia.
Qed.

Lemma prime_no_divisor_below x d :
  Z.prime x -> d <= x -> no_divisor_below d x.
Proof.
  intros Hp Hd k Hk Hdiv.
  destruct Hp as [_ Hp].
  apply (Hp k); [lia | exact Hdiv].
Qed.

(** What the loop of [isPrime] decides, by induction on its distance to
    the exit. *)
Lemma isPrime_loop_spec n :
  forall m d, Z.to_nat (n + 1 - d) = m ->
    3 <= d -> Z.odd d = true -> 1 < n -> no_divisor_below d n ->
    isPrime_loop n d = true <-> Z.prime n.
Proof.
  induction m as [m IH] using lt_wf_ind.
  intros d Hm Hd Hodd Hn Hno.
  rewrite isPrime_loop_eq.
  destruct (d * d <=? n) eqn:Hle.
  - apply Z.leb_le in Hle.
    destruct (js_rem n d =? 0) eqn:Hrem.
    + apply js_rem_zero_divide in Hrem; [| lia].
      split; [discriminate |].
      intros Hp. exfalso.
      apply (prime_no_divisor_below n (d + 1) Hp) with (k := d);
        [nia | lia | exact Hrem].
    + apply js_rem_nonzero_not_divide in Hrem; [| lia].
      apply (IH (Z.to_nat (n + 1 - (d + 2)))); try lia.
      * nia.
      * rewrite Z.odd_add. rewrite Hodd. reflexivity.
      * apply no_divisor_below_step; auto; lia.
  - apply Z.leb_gt in Hle.
    split; [| reflexivity].
    intros _. apply (no_small_divisor_prime d); auto; lia.
Qed.

Lemma odd_of_rem n : (js_rem n 2 =? 0) = false -> ~ (2 | n).
Proof.
  intros H. apply js_rem_nonzero_not_divide in H; [exact H | lia].
Qed.

(** [isPrime] decides primality on every integer. *)
Lemma isPrime_correct n : isPrime n = true <-> Z.prime n.
Proof.
  unfold isPrime.
  destruct (n <? 2) eqn:H2.
  - apply Z.ltb_lt in H2. split; [discriminate |].
    intros Hp. apply Z.prime_ge_2 in Hp. lia.
  - apply Z.ltb_ge in H2.
    destruct (n =? 2) eqn:He.
    + apply Z.eqb_eq in He. subst. split; [intros _; apply Z.prime_2 | auto].
    + apply Z.eqb_neq in He.
      destruct (js_rem n 2 =? 0) eqn:Hr.
      * apply js_rem_zero_divide in Hr; [| lia].
        split; [discriminate |].
        intros Hp. exfalso.
        apply (prime_no_divisor_below n 3 Hp) with (k := 2);
          [lia | lia | exact Hr].
      * apply (isPrime_loop_spec n _ 3 eq_refl); try lia.
        -- reflexivity.
        -- apply no_divisor_below_three. apply odd_of_rem. exact Hr.
Qed.

Lemma isPrime_false_iff n : isPrime n = false <-> ~ Z.prime n.
Proof.
  rewrite <- isPrime_correct.
  destruct (isPrime n); split; intros; congruence.
Qed.

(** What the loop of [smallestFactor] returns. *)
Lemma smallestFactor_loop_spec n :
  forall m d, Z.to_nat (n + 1 - d) = m ->
    3 <= d -> Z.odd d = true -> 1 < n -> no_divisor_below d n ->
    match smallestFactor_loop n d with
    | Some f => d <= f /\ f * f <= n /\ (f | n) /\ no_divisor_below f n
    | None => Z.prime n
    end.
Proof.
  induction m as [m IH] using lt_wf_ind.
  intros d Hm Hd Hodd Hn Hno.
  rewrite smallestFactor_loop_eq.
  destruct (d * d <=? n) eqn:Hle.
  - apply Z.leb_le in Hle.
    destruct (js_rem n d =? 0) eqn:Hrem.
    + apply js_rem_zero_divide in Hrem; [| lia].
      repeat split; auto; lia.
    + apply js_rem_nonzero_not_divide in Hrem; [| lia].
      assert (Hnext : no_divisor_below (d + 2) n)
        by (apply no_divisor_below_step; auto; lia).
      assert (Hodd2 : Z.odd (d + 2) = true)
        by (rewrite Z.odd_add, Hodd; reflexivity).
      specialize (IH (Z.to_nat (n + 1 - (d + 2))) ltac:(nia) (d + 2)
                    eq_refl ltac:(lia) Hodd2 Hn Hnext).
      destruct (smallestFactor_loop n (d + 2)) as [f |]; [| exact IH].
      destruct IH as (H1 & H2 & H3 & H4). repeat split; auto; lia.
  - apply Z.leb_gt in Hle.
    apply (no_small_divisor_prime d); auto; lia.
Qed.

(** On a composite [n >= 2] the result is the least divisor above 1; it
    divides [n] and its square does not exceed [n]. *)
Lemma smallestFactor_composite n :
  2 <= n -> isPrime n = false ->
  exists f, smallestFactor n = Some f /\ 1 < f /\ (f | n) /\ f * f <= n
            /\ no_divisor_below f n.
Proof.
  intros Hn Hnp. apply isPrime_false_iff in Hnp.
  unfold smallestFactor.
  destruct (n <? 2) eqn:H2; [apply Z.ltb_lt in H2; lia |].
  destruct (js_rem n 2 =? 0) eqn:Hr.
  - apply js_rem_zero_divide in Hr; [| lia].
    exists 2. repeat split; auto; try lia.
    + destruct Hr as [q Hq].
      assert (q <> 1) by (intros ->; apply Hnp; replace n with 2 by lia;
                          apply Z.prime_2).
      nia.
    + intros k Hk. lia.
  - pose proof (smallestFactor_loop_spec n _ 3 eq_refl ltac:(lia) eq_refl
                  ltac:(lia)
                  (no_divisor_below_three n (odd_of_rem n Hr))) as Hspec.
    destruct (smallestFactor_loop n 3) as [f |]; [| contradiction].
    destruct Hspec as (H1 & H3 & H4 & H5).
    exists f. repeat split; auto; lia.
Qed.

(** On an odd Z.prime the result is [None]. *)
Lemma smallestFactor_odd_prime n :
  Z.prime n -> n <> 2 -> smallestFactor n = None.
Proof.
  intros Hp Hn2. pose proof (Z.prime_ge_2 n Hp) as Hge.
  unfold smallestFactor.
  destruct (n <? 2) eqn:H2; [reflexivity |].
  destruct (js_rem n 2 =? 0) eqn:Hr.
  - apply js_rem_zero_divide in Hr; [| lia].
    exfalso. apply (prime_no_divisor_below n 3 Hp) with (k := 2);
      [lia | lia | exact Hr].
  - pose proof (smallestFactor_loop_spec n _ 3 eq_refl ltac:(lia) eq_refl
                  ltac:(lia)
                  (no_divisor_below_three n (odd_of_rem n Hr))) as Hspec.
    destruct (smallestFactor_loop n 3) as [f |]; [| reflexivity].
    destruct Hspec as (H1 & H3 & H4 & H5).
    exfalso. apply (prime_no_divisor_below n (f + 1) Hp) with (k := f);
      [nia | lia | exact H4].
Qed.

(** *** [primeFactors] *)

Lemma fold_left_mul_init l : forall a,
  fold_left (fun acc v => acc * v) l a = a * productOf l.
Proof.
  unfold productOf.
  induction l as [| v l IH]; intros a; cbn [fold_left].
  - lia.
  - rewrite IH. rewrite (IH (1 * v)). lia.
Qed.

Lemma productOf_nil : productOf [] = 1.
Proof. reflexivity. Qed.

Lemma productOf_cons v l : productOf (v :: l) = v * productOf l.
Proof.
  unfold productOf at 1. cbn [fold_left]. rewrite fold_left_mul_init. lia.
Qed.

Lemma productOf_app l1 l2 :
  productOf (l1 ++ l2) = productOf l1 * productOf l2.
Proof.
  induction l1 as [| v l1 IH]; cbn [app].
  - rewrite productOf_nil. lia.
  - rewrite !productOf_cons, IH. lia.
Qed.

Lemma StronglySorted_snoc l d :
  StronglySorted Z.le l -> Forall (fun p => p <= d) l ->
  StronglySorted Z.le (l ++ [d]).
Proof.
  induction 1 as [| a l Hs IH Ha]; intros Hall; simpl.
  - repeat constructor.
  - inversion Hall; subst. constructor.
    + apply IH. assumption.
    + apply Forall_app. split; [assumption |]. constructor; [lia | constructor].
Qed.

Lemma pf_inv_push n d x factors :
  2 <= d -> (d | x) -> pf_inv n d x factors ->
  pf_inv n d (x / d) (factors ++ [d]).
Proof.
  intros Hd [q Hq] (Hx & Hprod & Hpr & Hsort & Hle & Hno).
  assert (Hdiv : x / d = q) by (subst x; apply Z.div_mul; lia).
  rewrite Hdiv.
  assert (Hq1 : 1 <= q) by nia.
  assert (Hdp : Z.prime d).
  { split; [lia |].
    intros k Hk Hkd. apply (Hno k); [lia |].
    apply Z.divide_trans with d; [exact Hkd | exists q; exact Hq]. }
  repeat split.
  - exact Hq1.
  - rewrite productOf_app, productOf_cons, productOf_nil. subst x n. lia.
  - apply Forall_app. split; [exact Hpr |].
    constructor; [exact Hdp | constructor].
  - apply StronglySorted_snoc; assumption.
  - apply Forall_app. split; [exact Hle | constructor; [lia | constructor]].
  - intros k Hk Hkq. apply (Hno k Hk).
    apply Z.divide_trans with q; [exact Hkq | exists d; lia].
Qed.

Lemma primeFactors_inner_spec n d :
  2 <= d ->
  forall fuel x factors,
    pf_inv n d x factors -> x < 2 * Z.of_nat fuel ->
    exists x' factors',
      primeFactors_inner fuel d x factors = Some (x', factors')
      /\ pf_inv n d x' factors' /\ ~ (d | x') /\ x' <= x.
Proof.
  intros Hd. induction fuel as [| fuel IH]; intros x factors Hinv Hfuel.
  - destruct Hinv as (Hx & _). lia.
  - simpl. destruct (js_rem x d =? 0) eqn:Hrem.
    + apply js_rem_zero_divide in Hrem; [| lia].
      pose proof (pf_inv_push n d x factors Hd Hrem Hinv) as Hinv'.
      assert (Hsmall : 1 <= x / d /\ 2 * (x / d) <= x).
      { destruct Hrem as [q Hq]. destruct Hinv as (Hx & _).
        assert (x / d = q) as -> by (subst x; apply Z.div_mul; lia).
        assert (1 <= q) by nia. split; [assumption | nia]. }
      assert (Hfuel' : x / d < 2 * Z.of_nat fuel).
      { destruct Hsmall as [H1 H2]. revert H1 H2 Hfuel.
        generalize (x / d). intros q H1 H2 Hfuel. lia. }
      destruct (IH (x / d) (factors ++ [d]) Hinv' Hfuel')
        as (x' & factors' & Hrun & Hinv'' & Hnd & Hle).
      exists x', factors'.
      split; [exact Hrun |]. split; [exact Hinv'' |]. split; [exact Hnd |].
      destruct Hsmall as [H1 H2]. revert H1 H2 Hle.
      generalize (x / d). intros q H1 H2 Hle. lia.
    + apply js_rem_nonzero_not_divide in Hrem; [| lia].
      exists x, factors.
      split; [reflexivity |]. split; [exact Hinv |]. split; [exact Hrem | lia].
Qed.

Lemma pf_inv_next n d x factors :
  trial_divisor d -> pf_inv n d x factors -> ~ (d | x) ->
  let d' := if d =? 2 then 3 else d + 2 in
  trial_divisor d' /\ pf_inv n d' x factors /\ d < d'.
Proof.
  intros Htd (Hx & Hprod & Hpr & Hsort & Hle & Hno) Hnd.
  destruct Htd as [-> | [Hd3 Hodd]]; simpl.
  - split; [right; split; [lia | reflexivity] |]. split; [| lia].
    repeat split; auto.
    + eapply Forall_impl; [| exact Hle]. simpl. intros; lia.
    + apply no_divisor_below_three. exact Hnd.
  - destruct (d =? 2) eqn:He; [apply Z.eqb_eq in He; lia |].
    split; [right; split; [lia | rewrite Z.odd_add, Hodd; reflexivity] |].
    split; [| lia].
    repeat split; auto.
    + eapply Forall_impl; [| exact Hle]. simpl. intros; lia.
    + apply no_divisor_below_step; auto; lia.
Qed.

Lemma primeFactors_outer_spec n :
  forall fuel d x factors,
    trial_divisor d -> pf_inv n d x factors ->
    x + 2 <= Z.of_nat fuel + d -> (1 <= fuel)%nat ->
    exists x' factors' d',
      primeFactors_outer fuel d x factors = Some (x', factors')
      /\ pf_inv n d' x' factors' /\ 2 <= d'
      /\ (x' < 2 \/ x' < d' * d').
Proof.
  induction fuel as [| fuel IH]; intros d x factors Htd Hinv Hfuel Hpos;
    [lia |].
  assert (Hd2 : 2 <= d) by (destruct Htd as [-> | [? _]]; lia).
  cbn [primeFactors_outer].
  destruct ((2 <=? x) && (d * d <=? x)) eqn:Hguard.
  - apply andb_true_iff in Hguard. destruct Hguard as [Hx2 Hdd].
    apply Z.leb_le in Hx2. apply Z.leb_le in Hdd.
    destruct (primeFactors_inner_spec n d Hd2 (S fuel) x factors Hinv
                ltac:(nia))
      as (x' & factors' & Hrun & Hinv' & Hnd & Hle).
    rewrite Hrun.
    destruct (pf_inv_next n d x' factors' Htd Hinv' Hnd)
      as (Htd' & Hinv'' & Hlt).
    apply IH; auto; try nia.
  - exists x, factors, d. split; [reflexivity |]. split; [exact Hinv |].
    split; [exact Hd2 |].
    apply andb_false_iff in Hguard. destruct Hguard as [H | H].
    + apply Z.leb_gt in H. left. lia.
    + apply Z.leb_gt in H. right. lia.
Qed.

(** More fuel never changes a result. *)
Lemma primeFactors_inner_mono d :
  forall fuel x factors r,
    primeFactors_inner fuel d x factors = Some r ->
    forall fuel', (fuel <= fuel')%nat ->
      primeFactors_inner fuel' d x factors = Some r.
Proof.
  induction fuel as [| fuel IH]; intros x factors r Hrun fuel' Hle;
    [discriminate |].
  destruct fuel' as [| fuel']; [lia |].
  simpl in *. destruct (js_rem x d =? 0).
  - apply (IH _ _ _ Hrun). lia.
  - exact Hrun.
Qed.

Lemma primeFactors_outer_mono :
  forall fuel d x factors r,
    primeFactors_outer fuel d x factors = Some r ->
    forall fuel', (fuel <= fuel')%nat ->
      primeFactors_outer fuel' d x factors = Some r.
Proof.
  induction fuel as [| fuel IH]; intros d x factors r Hrun fuel' Hle;
    [discriminate |].
  destruct fuel' as [| fuel']; [lia |].
  cbn [primeFactors_outer] in *.
  destruct ((2 <=? x) && (d * d <=? x)); [| exact Hrun].
  destruct (primeFactors_inner (S fuel) d x factors) as [[x' factors'] |]
    eqn:Hin; [| discriminate].
  rewrite (primeFactors_inner_mono d _ _ _ _ Hin (S fuel')) by lia.
  apply (IH _ _ _ _ Hrun). lia.
Qed.

Lemma pf_inv_init n : 2 <= n -> pf_inv n 2 n [].
Proof.
  intros Hn. repeat split.
  - lia.
  - rewrite productOf_nil. lia.
  - constructor.
  - constructor.
  - constructor.
  - intros k Hk. lia.
Qed.

(** The run of the loops of [primeFactors n] on [n >= 2]: the fuel given
    by [primeFactors] suffices and the exit state satisfies the invariant. *)
Lemma primeFactors_run n :
  2 <= n ->
  exists x' factors' d',
    primeFactors_outer (S (Z.to_nat n)) 2 n [] = Some (x', factors')
    /\ pf_inv n d' x' factors' /\ 2 <= d' /\ (x' < 2 \/ x' < d' * d').
Proof.
  intros Hn.
  apply primeFactors_outer_spec.
  - left. reflexivity.
  - apply pf_inv_init. exact Hn.
  - lia.
  - lia.
Qed.

Lemma primeFactors_below_two n : n < 2 -> primeFactors n = [].
Proof.
  intros Hn. unfold primeFactors, primeFactors_fuel.
  cbn [primeFactors_outer].
  replace (2 <=? n) with false by (symmetry; apply Z.leb_gt; lia).
  cbn [andb].
  replace (1 <? n) with false by (symmetry; apply Z.ltb_ge; lia).
  reflexivity.
Qed.

(** Termination: with at least [n + 1] units of fuel the loops of
    [primeFactors] finish, with the result of [primeFactors n]. *)
Lemma primeFactors_fuel_enough n fuel :
  (S (Z.to_nat n) <= fuel)%nat ->
  primeFactors_fuel fuel n = Some (primeFactors n).
Proof.
  intros Hfuel.
  assert (Hsome : exists r,
            primeFactors_outer (S (Z.to_nat n)) 2 n [] = Some r).
  { destruct (Z_lt_le_dec n 2) as [Hlt | Hge].
    - exists (n, []). cbn [primeFactors_outer].
      replace (2 <=? n) with false by (symmetry; apply Z.leb_gt; lia).
      reflexivity.
    - destruct (primeFactors_run n Hge) as (x' & f' & d' & Hrun & _).
      exists (x', f'). exact Hrun. }
  destruct Hsome as [[x' f'] Hrun].
  unfold primeFactors, primeFactors_fuel.
  rewrite Hrun.
  rewrite (primeFactors_outer_mono _ _ _ _ _ Hrun fuel Hfuel).
  reflexivity.
Qed.

(** The exit state read as the returned list. *)
Lemma primeFactors_shape n :
  2 <= n ->
  StronglySorted Z.le (primeFactors n) /\ Forall Z.prime (primeFactors n)
  /\ productOf (primeFactors n) = n.
Proof.
  intros Hn.
  destruct (primeFactors_run n Hn)
    as (x' & factors' & d' & Hrun & Hinv & Hd' & Hexit).
  unfold primeFactors, primeFactors_fuel. rewrite Hrun.
  destruct Hinv as (Hx & Hprod & Hpr & Hsort & Hle & Hno).
  destruct (1 <? x') eqn:H1.
  - apply Z.ltb_lt in H1.
    assert (Hdx : d' <= x').
    { destruct (Z_lt_le_dec x' d') as [Hlt | Hge]; [| exact Hge].
      exfalso. apply (Hno x'); [lia | apply Z.divide_refl]. }
    assert (Hxp : Z.prime x').
    { apply (no_small_divisor_prime d'); auto; lia. }
    split; [| split].
    + apply StronglySorted_snoc; [exact Hsort |].
      eapply Forall_impl; [| exact Hle]. simpl. intros; lia.
    + apply Forall_app. split; [exact Hpr |].
      constructor; [exact Hxp | constructor].
    + rewrite productOf_app, productOf_cons, productOf_nil. lia.
  - apply Z.ltb_ge in H1. assert (x' = 1) by lia. subst x'.
    split; [exact Hsort |]. split; [exact Hpr | lia].
Qed.

(** *** Main results on the kernel *)

Lemma isPrime_sieve_table :
  let primes := sieve 1000 in
  forallb (fun k => Bool.eqb (isPrime (Z.of_nat k))
                      (existsb (Z.eqb (Z.of_nat k)) primes))
    (seq 0 1001) = true.
Proof. vm_compute. reflexivity. Qed.

(** C6. For every integer [n] in [0, 1000], [isPrime n] is true exactly
    when [n] is prime, and it agrees with the reference sieve on
    [2 .. 1000]; it is false below 2, true at 2 and false on every even
    number above 2. *)
Theorem isPrime_matches_reference (n : Z) :
  0 <= n <= 1000 ->
  (isPrime n = true <-> Z.prime n)
  /\ isPrime n = in_sieve 1000 n
  /\ (n < 2 -> isPrime n = false)
  /\ (n = 2 -> isPrime n = true)
  /\ (2 < n -> Z.even n = true -> isPrime n = false).
Proof.
  intros Hn. split; [apply isPrime_correct |]. split.
  - pose proof isPrime_sieve_table as Htab. cbv zeta in Htab.
    fold (in_sieve 1000) in Htab.
    rewrite forallb_forall in Htab.
    specialize (Htab (Z.to_nat n)).
    rewrite Z2Nat.id in Htab by lia.
    apply eqb_prop. apply Htab. apply in_seq. lia.
  - split; [| split].
    + intros Hlt. unfold isPrime.
      replace (n <? 2) with true by (symmetry; apply Z.ltb_lt; lia).
      reflexivity.
    + intros ->. reflexivity.
    + intros Hgt Heven. apply isPrime_false_iff. intros [_ Hp].
      apply (Hp 2); [lia |].
      apply Z.even_spec in Heven. destruct Heven as [m Hm].
      exists m. lia.
Qed.

Lemma isPrime_matches_reference_witness :
  (isPrime 97 = true <-> Z.prime 97)
  /\ isPrime 97 = in_sieve 1000 97
  /\ (97 < 2 -> isPrime 97 = false)
  /\ (97 = 2 -> isPrime 97 = true)
  /\ (2 < 97 -> Z.even 97 = true -> isPrime 97 = false).
Proof. apply (isPrime_matches_reference 97). lia. Defined.

(** C3. For every integer [n >= 2], [primeFactors n] is sorted in
    ascending order, each of its elements is prime (and recognised by
    [isPrime]), and the product of its elements is [n]; for [n < 2] it is
    the empty sequence.  The loops finish within the fuel the function
    provides. *)
Theorem primeFactors_sorted_prime_product (n : Z) :
  (2 <= n ->
   Sorted Z.le (primeFactors n)
   /\ Forall (fun p => Z.prime p /\ isPrime p = true) (primeFactors n)
   /\ productOf (primeFactors n) = n)
  /\ (n < 2 -> primeFactors n = [])
  /\ primeFactors_fuel (S (Z.to_nat n)) n = Some (primeFactors n).
Proof.
  split; [| split].
  - intros Hn.
    destruct (primeFactors_shape n Hn) as (Hsort & Hpr & Hprod).
    split; [apply StronglySorted_Sorted; exact Hsort |].
    split; [| exact Hprod].
    eapply Forall_impl; [| exact Hpr].
    intros p Hp. split; [exact Hp | apply isPrime_correct; exact Hp].
  - apply primeFactors_below_two.
  - apply primeFactors_fuel_enough. lia.
Qed.

Lemma primeFactors_sorted_prime_product_witness :
  (Sorted Z.le (primeFactors 60)
   /\ Forall (fun p => Z.prime p /\ isPrime p = true) (primeFactors 60)
   /\ productOf (primeFactors 60) = 60)
  /\ primeFactors 1 = [].
Proof.
  split.
  - apply (primeFactors_sorted_prime_product 60). lia.
  - apply (primeFactors_sorted_prime_product 1). lia.
Defined.

(** C2, at the input where the code departs from it: 2 is prime, yet
    [smallestFactor 2] is 2, not none. *)
Theorem smallestFactor_two_not_none :
  Z.prime 2 /\ isPrime 2 = true /\ smallestFactor 2 = Some 2.
Proof.
  split; [apply Z.prime_2 |]. split; reflexivity.
Qed.

(** The rest of C2 holds: composites get a divisor whose square is at most
    [n], and every prime other than 2 gets none. *)
Lemma smallestFactor_except_two (n : Z) :
  2 <= n ->
  (isPrime n = false ->
   exists f, smallestFactor n = Some f /\ (f | n) /\ f * f <= n
             /\ f <= Z.sqrt n)
  /\ (isPrime n = true -> n <> 2 -> smallestFactor n = None).
Proof.
  intros Hn. split.
  - intros Hc.
    destruct (smallestFactor_composite n Hn Hc)
      as (f & Hf & H1 & Hdiv & Hsq & _).
    exists f. repeat split; auto.
    apply Z.sqrt_le_square; lia.
  - intros Hp Hn2. apply smallestFactor_odd_prime; [| exact Hn2].
    apply isPrime_correct. exact Hp.
Qed.

(* ================================================================= *)
(** ** Sorting, multiset comparison and unique factorisation *)
(* ================================================================= *)

Section Sorting.

Variable cmp : Z -> Z -> Z.

Lemma sort_insert_perm x l : Permutation (sort_insert cmp x l) (x :: l).
Proof.
  induction l as [| y t IH]; simpl.
  - apply Permutation_refl.
  - destruct (0 <? cmp x y).
    + apply perm_trans with (y :: x :: t).
      * apply perm_skip. exact IH.
      * apply perm_swap.
    + apply Permutation_refl.
Qed.

Lemma sort_perm l : Permutation (sort cmp l) l.
Proof.
  induction l as [| x t IH]; simpl.
  - apply perm_nil.
  - apply perm_trans with (x :: sort cmp t).
    + apply sort_insert_perm.
    + apply perm_skip. exact IH.
Qed.

Lemma sort_length l : List.length (sort cmp l) = List.length l.
Proof. apply Permutation_length. apply sort_perm. Qed.

End Sorting.

Lemma sort_insert_sorted x l :
  StronglySorted Z.le l -> StronglySorted Z.le (sort_insert ascending x l).
Proof.
  induction 1 as [| y t Hs IH Hy]; simpl.
  - repeat constructor.
  - unfold ascending at 1. destruct (0 <? x - y) eqn:Hc.
    + apply Z.ltb_lt in Hc. constructor; [exact IH |].
      apply (Permutation_Forall (x := x :: t)).
      * apply Permutation_sym. apply sort_insert_perm.
      * constructor; [lia | exact Hy].
    + apply Z.ltb_ge in Hc. constructor.
      * constructor; assumption.
      * constructor; [lia |].
        eapply Forall_impl; [| exact Hy]. simpl. intros; lia.
Qed.

Lemma sort_sorted l : StronglySorted Z.le (sort ascending l).
Proof.
  induction l as [| x t IH]; simpl.
  - constructor.
  - apply sort_insert_sorted. exact IH.
Qed.

Lemma sort_of_sorted l :
  StronglySorted Z.le l -> sort ascending l = l.
Proof.
  induction 1 as [| x t Hs IH Hx]; simpl; [reflexivity |].
  rewrite IH. destruct t as [| y t']; [reflexivity |].
  simpl. unfold ascending. inversion Hx; subst.
  replace (0 <? x - y) with false by (symmetry; apply Z.ltb_ge; lia).
  reflexivity.
Qed.

Lemma every_from_suffix (bb : list Z) :
  forall l pre, bb = pre ++ l ->
    every_from
      (fun v i => match nth_error bb i with
                  | Some w => v =? w
                  | None => false
                  end) (List.length pre) l = true.
Proof.
  induction l as [| v l IH]; intros pre Hbb; simpl; [reflexivity |].
  subst bb. rewrite nth_error_app2 by lia.
  rewrite Nat.sub_diag. simpl. rewrite Z.eqb_refl. simpl.
  specialize (IH (pre ++ [v])).
  rewrite length_app in IH. simpl in IH.
  rewrite Nat.add_1_r in IH. apply IH.
  rewrite <- app_assoc. reflexivity.
Qed.

(** Two arrays with the same sorted form are equal as multisets for
    [multisetEqual]. *)
Lemma multisetEqual_of_sort_eq a b :
  sort ascending a = sort ascending b -> multisetEqual a b = true.
Proof.
  intros Heq. unfold multisetEqual.
  assert (Hlen : List.length a = List.length b).
  { rewrite <- (sort_length ascending a), <- (sort_length ascending b).
    rewrite Heq. reflexivity. }
  rewrite Hlen, Nat.eqb_refl. simpl.
  fold ascending. rewrite Heq.
  apply (every_from_suffix (sort ascending b) (sort ascending b) []).
  reflexivity.
Qed.

Lemma productOf_perm l1 l2 :
  Permutation l1 l2 -> productOf l1 = productOf l2.
Proof.
  induction 1.
  - reflexivity.
  - rewrite !productOf_cons. congruence.
  - rewrite !productOf_cons. lia.
  - congruence.
Qed.

Lemma productOf_primes_pos l : Forall Z.prime l -> 1 <= productOf l.
Proof.
  induction 1 as [| p l Hp Hl IH].
  - rewrite productOf_nil. lia.
  - rewrite productOf_cons. apply Z.prime_ge_2 in Hp. nia.
Qed.

(** A prime dividing a product of primes is one of them. *)
Lemma prime_divides_product p l :
  Z.prime p -> Forall Z.prime l -> (p | productOf l) -> In p l.
Proof.
  intros Hp. induction 1 as [| q l Hq Hl IH]; intros Hdiv.
  - rewrite productOf_nil in Hdiv.
    apply Z.prime_ge_2 in Hp.
    apply Z.divide_1_r_nonneg in Hdiv; lia.
  - rewrite productOf_cons in Hdiv.
    apply Z.divide_prime_mul in Hdiv; [| exact Hp].
    destruct Hdiv as [Hd | Hd].
    + left. symmetry. apply Z.divide_prime_prime; assumption.
    + right. apply IH. exact Hd.
Qed.

(** Uniqueness of the factorisation into primes, on ascending lists. *)
Lemma sorted_primes_unique :
  forall l1 l2,
    Forall Z.prime l1 -> Forall Z.prime l2 ->
    StronglySorted Z.le l1 -> StronglySorted Z.le l2 ->
    productOf l1 = productOf l2 -> l1 = l2.
Proof.
  induction l1 as [| a l1 IH]; intros l2 Hp1 Hp2 Hs1 Hs2 Hprod.
  - destruct l2 as [| b l2]; [reflexivity |].
    inversion Hp2; subst.
    pose proof (productOf_primes_pos l2 ltac:(assumption)).
    rewrite productOf_nil, productOf_cons in Hprod.
    match goal with H : Z.prime b |- _ => apply Z.prime_ge_2 in H end. nia.
  - destruct l2 as [| b l2].
    + inversion Hp1; subst.
      pose proof (productOf_primes_pos l1 ltac:(assumption)).
      rewrite productOf_nil, productOf_cons in Hprod.
      match goal with H : Z.prime a |- _ => apply Z.prime_ge_2 in H end. nia.
    + inversion Hp1 as [| ? ? Hpa Hp1']; subst.
      inversion Hp2 as [| ? ? Hpb Hp2']; subst.
      inversion Hs1 as [| ? ? Hs1' Ha]; subst.
      inversion Hs2 as [| ? ? Hs2' Hb]; subst.
      assert (Hba : b <= a).
      { assert (Hin : In a (b :: l2)).
        { apply prime_divides_product; auto.
          rewrite <- Hprod, productOf_cons. exists (productOf l1). lia. }
        destruct Hin as [-> | Hin]; [lia |].
        rewrite Forall_forall in Hb. apply Hb. exact Hin. }
      assert (Hab : a <= b).
      { assert (Hin : In b (a :: l1)).
        { apply prime_divides_product; auto.
          rewrite Hprod, productOf_cons. exists (productOf l2). lia. }
        destruct Hin as [-> | Hin]; [lia |].
        rewrite Forall_forall in Ha. apply Ha. exact Hin. }
      assert (a = b) by lia. subst b. f_equal.
      apply IH; auto.
      rewrite !productOf_cons in Hprod.
      apply Z.prime_ge_2 in Hpa. nia.
Qed.

(** Every list of primes whose product is [n] is, as a multiset, the
    result of [primeFactors n]. *)
Lemma multisetEqual_primeFactors n ks :
  2 <= n -> Forall Z.prime ks -> productOf ks = n ->
  multisetEqual ks (primeFactors n) = true.
Proof.
  intros Hn Hpr Hprod.
  destruct (primeFactors_shape n Hn) as (Hsort & Hprimes & Hpn).
  apply multisetEqual_of_sort_eq.
  rewrite (sort_of_sorted (primeFactors n) Hsort).
  apply sorted_primes_unique; auto.
  - apply (Permutation_Forall (x := ks)); [| exact Hpr].
    apply Permutation_sym. apply sort_perm.
  - apply sort_sorted.
  - rewrite (productOf_perm _ _ (sort_perm ascending ks)). lia.
Qed.

(* ================================================================= *)
(** ** Texts that are read exactly *)
(* ================================================================= *)

Lemma normalizeFactorsInput_words text :
  normalizeFactorsInput text
  = filter Number_isFinite (map Number (words text)).
Proof.
  unfold normalizeFactorsInput, words.
  destruct (cleaned text); reflexivity.
Qed.

Lemma log2_exact_spec p k :
  log2_exact p = Some k -> 0 <= k /\ Z.pos p = 2 ^ k.
Proof.
  revert k. induction p as [p IH | p IH |]; intros k; cbn [log2_exact].
  - discriminate.
  - destruct (log2_exact p) as [k' |]; [| discriminate].
    intros [= <-]. destruct (IH k' eq_refl) as [Hk Hp].
    split; [lia |]. rewrite Z.pow_add_r, Z.pow_1_r by lia. lia.
  - intros [= <-]. split; [lia | reflexivity].
Qed.

Lemma binary64_check_sound q : binary64_check q = true -> binary64 q.
Proof.
  unfold binary64_check.
  destruct (log2_exact (Qden q)) as [k |] eqn:Hlog; [| discriminate].
  rewrite andb_true_iff, Z.ltb_lt, Z.leb_le. intros [Hm Hk].
  destruct (log2_exact_spec _ _ Hlog) as [Hk0 Hden].
  exists (Qnum q), (- k). split; [exact Hm |]. split; [lia |].
  rewrite Qpower_opp.
  change 2%Q with (inject_Z 2). rewrite <- Zpower_Qpower by exact Hk0.
  rewrite <- Hden. destruct q as [n d]. cbn [Qnum Qden].
  rewrite (Qmake_Qdiv n d). reflexivity.
Qed.

Lemma exact_number_check_sound x :
  exact_number_check x = true -> exact_number x.
Proof.
  destruct x as [q | | |]; cbn; [apply binary64_check_sound | trivial ..].
Qed.

Lemma read_exactly_check_sound text :
  read_exactly_check text = true -> read_exactly text.
Proof.
  unfold read_exactly_check, read_exactly. rewrite forallb_forall.
  intros H. apply Forall_forall. intros x Hx.
  apply exact_number_check_sound, H, Hx.
Qed.

(* ================================================================= *)
(** ** Grading *)
(* ================================================================= *)

Lemma string_eqb_eq a : forall b, string_eqb a b = true <-> a = b.
Proof.
  induction a as [| x a IH]; intros [| y b]; simpl;
    try (split; [discriminate | discriminate]); [tauto |].
  unfold char_eqb. rewrite andb_true_iff, N.eqb_eq, IH.
  split; [intros [-> ->]; reflexivity | intros H; inversion H; auto].
Qed.

Lemma string_eqb_refl a : string_eqb a a = true.
Proof. apply string_eqb_eq. reflexivity. Qed.

Lemma factorization_pool_bounds n : In n factorization_pool -> 12 <= n <= 60.
Proof.
  unfold factorization_pool. simpl. intuition lia.
Qed.

(** A factorisation exercise is graded by the factorisation branch. *)
Lemma submit_factorization ex n input :
  factorization_exercise ex n ->
  submit ex input = submit_fatoracao ex n input.
Proof.
  intros (Ht & Hin & Hv & _).
  apply factorization_pool_bounds in Hin.
  unfold submit. rewrite Ht, Hv, string_eqb_refl.
  unfold truthy.
  replace (n =? 0) with false by (symmetry; apply Z.eqb_neq; lia).
  reflexivity.
Qed.

Lemma forallb_integer_ge_2 factors :
  forallb (fun k => Number_isInteger k && num_ge k (of_Z 2)) factors = true
  <-> Forall (fun k => Number_isInteger k = true
                       /\ num_ge k (of_Z 2) = true) factors.
Proof.
  rewrite forallb_forall, Forall_forall.
  split; intros H k Hk; specialize (H k Hk).
  - apply andb_true_iff. exact H.
  - apply andb_true_iff in H. exact H.
Qed.

Lemma existsb_non_prime ks :
  existsb (fun k => negb (isPrime k)) ks = false <-> Forall Z.prime ks.
Proof.
  induction ks as [| k ks IH]; simpl.
  - split; [constructor | reflexivity].
  - rewrite orb_false_iff, IH, negb_false_iff, isPrime_correct.
    split; [intros [? ?]; constructor; assumption |].
    intros H; inversion H; auto.
Qed.





(** C1. For every factorisation exercise (subject value [n] of the pool,
    expected factors [primeFactors n]) and every submitted text whose
    parsed values are all integers at least 2, all prime, and of product
    [n], the answer is graded correct: the multiset comparison cannot fail
    there, and the feedback is the confirmation of the factorisation. *)
Theorem submit_accepts_prime_factorization
  (ex : Exercise) (n : Z) (input : jsstring) :
  factorization_exercise ex n ->
  Forall (fun k => Number_isInteger k = true /\ num_ge k (of_Z 2) = true)
    (normalizeFactorsInput input) ->
  Forall (fun k => Z.prime (to_integer k)) (normalizeFactorsInput input) ->
  productOf (map to_integer (normalizeFactorsInput input)) = n ->
  correct (submit ex input) = true
  /\ multisetEqual (map to_integer (normalizeFactorsInput input))
       (primeFactors n) = true
  /\ explanation (submit ex input)
     = js "Perfeito! " ++ Number_toString n ++ js " = "
       ++ join (js " × ") (map Number_toString (primeFactors n)) ++ js ".".
Proof.
  intros Hex Hint Hprime Hprod.
  rewrite (submit_factorization ex n input Hex).
  destruct Hex as (Ht & Hin & Hv & He).
  apply factorization_pool_bounds in Hin.
  assert (Hks : Forall Z.prime (map to_integer (normalizeFactorsInput input)))
    by (apply Forall_map; exact Hprime).
  assert (Hmulti : multisetEqual (map to_integer (normalizeFactorsInput input))
                     (primeFactors n) = true)
    by (apply multisetEqual_primeFactors; [lia | exact Hks | exact Hprod]).
  unfold submit_fatoracao.
  destruct (normalizeFactorsInput input) as [| k factors] eqn:Hfactors.
  - simpl in Hprod. rewrite productOf_nil in Hprod. lia.
  - cbn [List.length Nat.eqb].
    apply forallb_integer_ge_2 in Hint. rewrite Hint. cbn [negb].
    rewrite (proj2 (existsb_non_prime _) Hks).
    rewrite Hprod, Z.eqb_refl. cbn [negb]. rewrite He, Hmulti.
    cbn [correct explanation]. auto.
Qed.

Lemma submit_accepts_prime_factorization_witness :
  correct (submit exercise_12 (js "3 2 2")) = true
  /\ multisetEqual (map to_integer (normalizeFactorsInput (js "3 2 2")))
       (primeFactors 12) = true
  /\ explanation (submit exercise_12 (js "3 2 2"))
     = js "Perfeito! " ++ Number_toString 12 ++ js " = "
       ++ join (js " × ") (map Number_toString (primeFactors 12)) ++ js ".".
Proof.
  apply (submit_accepts_prime_factorization exercise_12 12 (js "3 2 2")).
  - unfold factorization_exercise. simpl. auto 6.
  - vm_compute. repeat constructor.
  - change (normalizeFactorsInput (js "3 2 2"))
      with [Finite (3 # 1); Finite (2 # 1); Finite (2 # 1)].
    repeat constructor; simpl; try apply Z.prime_3; apply Z.prime_2.
  - vm_compute. reflexivity.
Defined.







(* ================================================================= *)
(** ** The exercise generator *)
(* ================================================================= *)

Lemma random_floor_range (r : Q) (k : Z) :
  (0 <= r)%Q -> (r < 1)%Q -> 0 < k ->
  0 <= Math_floor (r * inject_Z k) < k.
Proof.
  intros H0 H1 Hk. unfold Math_floor. split.
  - change 0 with (Qfloor (inject_Z 0)) at 1.
    apply Qfloor_resp_le.
    apply Qmult_le_0_compat; [exact H0 |].
    change (inject_Z 0 <= inject_Z k)%Q. rewrite <- Zle_Qle. lia.
  - rewrite Zlt_Qlt.
    apply Qle_lt_trans with (r * inject_Z k)%Q; [apply Qfloor_le |].
    apply Qlt_le_trans with (1 * inject_Z k)%Q.
    + apply Qmult_lt_compat_r; [| exact H1].
      change (inject_Z 0 < inject_Z k)%Q. rewrite <- Zlt_Qlt. exact Hk.
    + rewrite Qmult_1_l. apply Qle_refl.
Qed.

Lemma random_below_run k s :
  random_below k s = (Math_floor (s 0%nat * inject_Z k), rest s).
Proof. reflexivity. Qed.

Lemma valid_source_rest s : valid_source s -> valid_source (rest s).
Proof. intros H i. apply H. Qed.

Lemma random_below_range k s :
  valid_source s -> 0 < k -> 0 <= fst (random_below k s) < k.
Proof.
  intros Hs Hk. rewrite random_below_run. simpl.
  destruct (Hs 0%nat) as [H0 H1].
  apply random_floor_range; assumption.
Qed.

Lemma index_number_in arr i :
  0 <= i < Z.of_nat (List.length arr) -> In (index_number arr i) arr.
Proof.
  intros Hi. unfold index_number, index.
  replace (i <? 0) with false by (symmetry; apply Z.ltb_ge; lia).
  destruct (nth_error arr (Z.to_nat i)) as [v |] eqn:Hnth.
  - apply nth_error_In with (Z.to_nat i). exact Hnth.
  - apply nth_error_None in Hnth. lia.
Qed.

(** With a valid source the generator runs one of its five cases, on the
    source past the draw of the topic. *)
Lemma generateExercise_cases s :
  valid_source s ->
  generateExercise s = divisibilidade_case (js "divisibilidade") (rest s)
  \/ generateExercise s = primos_case (js "primos") (rest s)
  \/ generateExercise s = fatoracao_case (js "fatoracao") (rest s)
  \/ generateExercise s = potenciacao_case (js "potenciacao") (rest s)
  \/ generateExercise s = resto_case (js "resto") (rest s).
Proof.
  intros Hs.
  pose proof (random_below_range 5 s Hs ltac:(lia)) as Hi.
  unfold generateExercise, bind.
  change (Z.of_nat (List.length TYPES)) with 5.
  rewrite random_below_run in *. cbn [fst] in Hi.
  remember (Math_floor (s 0%nat * inject_Z 5)) as i eqn:Hdraw.
  assert (Hcases : i = 0 \/ i = 1 \/ i = 2 \/ i = 3 \/ i = 4) by lia.
  clear Hdraw Hi.
  destruct Hcases as [-> | [-> | [-> | [-> | ->]]]].
  - left. reflexivity.
  - right. left. reflexivity.
  - do 2 right. left. reflexivity.
  - do 3 right. left. reflexivity.
  - do 4 right. reflexivity.
Qed.

(* ================================================================= *)
(** ** Decimal digits: [String(n)] and [Number(text)] on integers *)
(* ================================================================= *)

Lemma value_of_digits_snoc radix ds d :
  value_of_digits radix (ds ++ [d]) = value_of_digits radix ds * radix + d.
Proof.
  unfold value_of_digits. rewrite fold_left_app. reflexivity.
Qed.

Lemma decimal_digits_fuel_spec :
  forall fuel z,
    0 <= z < 2 ^ (Z.of_nat fuel + 1) ->
    Forall is_digit_value (decimal_digits_fuel fuel z)
    /\ value_of_digits 10 (decimal_digits_fuel fuel z) = z
    /\ decimal_digits_fuel fuel z <> [].
Proof.
  induction fuel as [| fuel IH]; intros z Hz.
  - simpl in *. assert (z = 0 \/ z = 1) as [-> | ->] by lia;
      (split; [repeat constructor; unfold is_digit_value; lia
              | split; [reflexivity | discriminate]]).
  - cbn [decimal_digits_fuel].
    destruct (z <? 10) eqn:Hlt.
    + apply Z.ltb_lt in Hlt.
      split; [repeat constructor; unfold is_digit_value; lia |].
      split; [unfold value_of_digits; simpl; lia | discriminate].
    + apply Z.ltb_ge in Hlt.
      assert (Hpow : 2 ^ (Z.of_nat (S fuel) + 1)
                     = 2 * 2 ^ (Z.of_nat fuel + 1)).
      { rewrite <- Z.pow_succ_r by lia. f_equal. lia. }
      assert (Hq : 0 <= z / 10 < 2 ^ (Z.of_nat fuel + 1)).
      { split; [apply Z.div_pos; lia |].
        apply Z.div_lt_upper_bound; lia. }
      destruct (IH (z / 10) Hq) as (Hall & Hval & Hne).
      pose proof (Z.mod_pos_bound z 10 ltac:(lia)) as Hmod.
      split; [| split].
      * apply Forall_app. split; [exact Hall |].
        repeat constructor; unfold is_digit_value; lia.
      * rewrite value_of_digits_snoc, Hval.
        pose proof (Z.div_mod z 10 ltac:(lia)). lia.
      * intros Hnil. apply app_eq_nil in Hnil. destruct Hnil; discriminate.
Qed.

Lemma decimal_digits_spec z :
  0 <= z ->
  Forall is_digit_value (decimal_digits z)
  /\ value_of_digits 10 (decimal_digits z) = z
  /\ decimal_digits z <> [].
Proof.
  intros Hz. unfold decimal_digits. apply decimal_digits_fuel_spec.
  rewrite Z2Nat.id by apply Z.log2_nonneg.
  destruct (Z.eq_dec z 0) as [-> | Hnz]; [simpl; lia |].
  pose proof (Z.log2_spec z ltac:(lia)) as Hlog.
  unfold Z.succ in Hlog. lia.
Qed.

(** A number below [10^k] has at most [k] digits. *)
Lemma decimal_digits_fuel_length :
  forall fuel k z,
    (1 <= k)%nat -> z < 10 ^ Z.of_nat k ->
    (List.length (decimal_digits_fuel fuel z) <= k)%nat.
Proof.
  induction fuel as [| fuel IH]; intros k z Hk Hz; simpl; [lia |].
  destruct (z <? 10) eqn:Hlt; [simpl; lia |].
  apply Z.ltb_ge in Hlt.
  rewrite length_app. simpl.
  destruct k as [| k]; [lia |].
  destruct k as [| k]; [simpl in Hz; lia |].
  assert (Hq : z / 10 < 10 ^ Z.of_nat (S k)).
  { apply Z.div_lt_upper_bound; [lia |].
    rewrite <- Z.pow_succ_r by lia.
    replace (Z.succ (Z.of_nat (S k))) with (Z.of_nat (S (S k))) by lia.
    exact Hz. }
  specialize (IH (S k) (z / 10) ltac:(lia) Hq). lia.
Qed.

(** Below 10^21 [String(n)] is the plain decimal expansion. *)
Lemma Number_toString_plain z :
  0 <= z < 10 ^ 21 ->
  Number_toString z = map digit_char (decimal_digits z).
Proof.
  intros Hz. unfold Number_toString.
  replace (z <? 0) with false by (symmetry; apply Z.ltb_ge; lia).
  unfold unsigned_toString.
  pose proof (decimal_digits_fuel_length (Z.to_nat (Z.log2 z)) 21 z
                ltac:(lia) ltac:(simpl; lia)) as Hlen.
  fold (decimal_digits z) in Hlen.
  replace (Z.of_nat (List.length (decimal_digits z)) <=? 21) with true
    by (symmetry; apply Z.leb_le; lia).
  reflexivity.
Qed.

Lemma digit_char_isDigit d : is_digit_value d -> isDigit (digit_char d) = true.
Proof.
  unfold is_digit_value. intros Hd.
  assert (d = 0 \/ d = 1 \/ d = 2 \/ d = 3 \/ d = 4 \/ d = 5 \/ d = 6
          \/ d = 7 \/ d = 8 \/ d = 9) as H by lia.
  repeat (destruct H as [-> | H]; [reflexivity |]). subst. reflexivity.
Qed.

Lemma digit_value_char d : is_digit_value d -> digit_value (digit_char d) = d.
Proof.
  unfold is_digit_value, digit_value, digit_char. intros Hd.
  rewrite Z2N.id by lia. lia.
Qed.

(** [Number] reads a one-digit string as that digit. *)
Lemma Number_digit d :
  is_digit_value d -> to_integer (Number [digit_char d]) = d.
Proof.
  unfold is_digit_value. intros Hd.
  assert (d = 0 \/ d = 1 \/ d = 2 \/ d = 3 \/ d = 4 \/ d = 5 \/ d = 6
          \/ d = 7 \/ d = 8 \/ d = 9) as H by lia.
  repeat (destruct H as [-> | H]; [reflexivity |]). subst. reflexivity.
Qed.

Lemma fold_left_add_digits ds :
  Forall is_digit_value ds ->
  forall a,
    fold_left (fun a b => a + to_integer (Number b))
      (map (fun d => [digit_char d]) ds) a
    = a + fold_right Z.add 0 ds.
Proof.
  induction 1 as [| d ds Hd Hds IH]; intros a; cbn [map fold_left fold_right].
  - lia.
  - rewrite IH, (Number_digit d Hd). lia.
Qed.

Lemma filter_digit_strings ds :
  Forall is_digit_value ds ->
  filter (fun c => existsb isDigit c) (map (fun d => [digit_char d]) ds)
  = map (fun d => [digit_char d]) ds.
Proof.
  induction 1 as [| d ds Hd Hds IH]; simpl; [reflexivity |].
  rewrite (digit_char_isDigit d Hd). simpl. rewrite IH. reflexivity.
Qed.

Lemma split_chars_digits ds :
  split_chars (map digit_char ds) = map (fun d => [digit_char d]) ds.
Proof.
  unfold split_chars. rewrite map_map. reflexivity.
Qed.

(** Below 10^21 both digit sums of the program are the sum of the decimal
    digits. *)
Lemma sumDigits_digit_sum n :
  0 <= n < 10 ^ 21 -> sumDigits n = digit_sum n.
Proof.
  intros Hn. unfold sumDigits, digit_sum.
  destruct (decimal_digits_spec n ltac:(lia)) as (Hall & _ & _).
  rewrite (Number_toString_plain n Hn), split_chars_digits.
  rewrite (filter_digit_strings _ Hall).
  rewrite (fold_left_add_digits _ Hall). lia.
Qed.

Lemma digit_total_digit_sum n :
  0 <= n < 10 ^ 21 -> digit_total n = digit_sum n.
Proof.
  intros Hn. unfold digit_total, digit_sum.
  destruct (decimal_digits_spec n ltac:(lia)) as (Hall & _ & _).
  rewrite (Number_toString_plain n Hn), split_chars_digits.
  rewrite (fold_left_add_digits _ Hall). lia.
Qed.

(** Casting out threes: a number and the sum of its digits leave the same
    remainder modulo 3. *)
Lemma value_of_digits_mod_3 ds :
  forall acc,
    fold_left (fun a d => a * 10 + d) ds acc mod 3
    = (acc + fold_right Z.add 0 ds) mod 3.
Proof.
  induction ds as [| d ds IH]; intros acc; cbn [fold_left fold_right].
  - f_equal. lia.
  - rewrite IH.
    replace (acc * 10 + d + fold_right Z.add 0 ds)
      with (acc + (d + fold_right Z.add 0 ds) + (3 * acc) * 3) by lia.
    apply Z_mod_plus_full.
Qed.

Lemma digit_sum_mod_3 n : 0 <= n -> digit_sum n mod 3 = n mod 3.
Proof.
  intros Hn. unfold digit_sum.
  destruct (decimal_digits_spec n Hn) as (_ & Hval & _).
  rewrite <- Hval at 2. unfold value_of_digits.
  rewrite value_of_digits_mod_3. reflexivity.
Qed.

Lemma digit_sum_nonneg n : 0 <= n -> 0 <= digit_sum n.
Proof.
  intros Hn. unfold digit_sum.
  destruct (decimal_digits_spec n Hn) as (Hall & _ & _).
  induction Hall as [| d ds Hd Hds IH]; simpl; [lia |].
  unfold is_digit_value in Hd. lia.
Qed.

Lemma js_rem_nonneg a b : 0 <= a -> 0 < b -> js_rem a b = a mod b.
Proof.
  intros Ha Hb. unfold js_rem. apply Z.rem_mod_nonneg; lia.
Qed.

(** The digit-sum flag and the direct test agree below 10^21. *)
Lemma by3_direct n :
  0 <= n < 10 ^ 21 ->
  by3 (divisibilityInfo n) = (js_rem n 3 =? 0).
Proof.
  intros Hn. unfold divisibilityInfo. cbn [by3].
  rewrite (sumDigits_digit_sum n Hn).
  rewrite (js_rem_nonneg (digit_sum n) 3) by (try apply digit_sum_nonneg; lia).
  rewrite (js_rem_nonneg n 3) by lia.
  rewrite digit_sum_mod_3 by lia. reflexivity.
Qed.

(* ================================================================= *)
(** ** The digit-sum rule and the generated exercises *)
(* ================================================================= *)

(** C9, as amended.  For every safe integer [0 <= n <= 2^53 - 1] the flag
    [by3] of [divisibilityInfo n], computed from the sum of the decimal
    digits, agrees with the direct test [n % 3 === 0]: it is true exactly
    when [n mod 3 = 0]. *)
Theorem by3_agrees_with_modulo (n : Z) :
  0 <= n <= MAX_SAFE_INTEGER ->
  (by3 (divisibilityInfo n) = true <-> n mod 3 = 0)
  /\ by3 (divisibilityInfo n) = (js_rem n 3 =? 0)
  /\ sumDigits n = digit_sum n.
Proof.
  intros Hn.
  assert (Hrange : 0 <= n < 10 ^ 21)
    by (unfold MAX_SAFE_INTEGER in Hn; simpl in *; lia).
  split; [| split].
  - rewrite (by3_direct n Hrange).
    rewrite (js_rem_nonneg n 3) by lia. apply Z.eqb_eq.
  - apply by3_direct. exact Hrange.
  - apply sumDigits_digit_sum. exact Hrange.
Qed.

Lemma by3_agrees_with_modulo_witness :
  (by3 (divisibilityInfo 15) = true <-> 15 mod 3 = 0)
  /\ by3 (divisibilityInfo 15) = (js_rem 15 3 =? 0)
  /\ sumDigits 15 = digit_sum 15.
Proof.
  apply (by3_agrees_with_modulo 15). unfold MAX_SAFE_INTEGER. simpl. lia.
Defined.

(** C9 as stated fails from 10^21 on, where [String(n)] switches to the
    exponent form: 12 * 10^21 prints as "1.2e+22", whose digits add up to
    7, although the number is a multiple of 3. *)
Lemma by3_differs_from_modulo_at_12e21 :
  Number_toString (12 * 10 ^ 21) = js "1.2e+22"
  /\ sumDigits (12 * 10 ^ 21) = 7
  /\ by3 (divisibilityInfo (12 * 10 ^ 21)) = false
  /\ (12 * 10 ^ 21) mod 3 = 0
  /\ ~ (by3 (divisibilityInfo (12 * 10 ^ 21)) = true
        <-> (12 * 10 ^ 21) mod 3 = 0).
Proof.
  assert (Hflag : by3 (divisibilityInfo (12 * 10 ^ 21)) = false)
    by (vm_compute; reflexivity).
  assert (Hmod : (12 * 10 ^ 21) mod 3 = 0) by (vm_compute; reflexivity).
  split; [vm_compute; reflexivity |].
  split; [vm_compute; reflexivity |].
  split; [exact Hflag |]. split; [exact Hmod |].
  intros [_ H]. exact (eq_true_false_abs _ (H Hmod) Hflag).
Qed.

Lemma divisibilidade_case_run t s :
  fst (divisibilidade_case t s)
  = let n := 10 + fst (random_below 190 s) in
    let by_ := index_number [2; 3; 5; 10] (fst (random_below 4 (rest s))) in
    let correct := js_rem n by_ =? 0 in
    {| type := t;
       value := None;
       expected := None;
       prompt := js "O número " ++ Number_toString n
                 ++ js " é divisível por " ++ Number_toString by_
                 ++ js "? (S/N)";
       answer := if correct then js "S" else js "N";
       explain :=
         if by_ =? 3
         then js "Soma dos algarismos de " ++ Number_toString n
              ++ js " = " ++ Number_toString (digit_total n) ++ js "; "
              ++ (if correct then js "é" else js "não é")
              ++ js " múltiplo de 3."
         else js "Regra prática de divisibilidade por "
              ++ Number_toString by_ ++ js "." |}.
Proof. reflexivity. Qed.

Lemma case_types t s :
  type (fst (divisibilidade_case t s)) = t
  /\ type (fst (primos_case t s)) = t
  /\ type (fst (fatoracao_case t s)) = t
  /\ type (fst (potenciacao_case t s)) = t
  /\ type (fst (resto_case t s)) = t.
Proof. repeat split; reflexivity. Qed.

(** A generated exercise of topic "divisibilidade" comes from the
    divisibility case. *)
Lemma generateExercise_divisibilidade s :
  valid_source s ->
  type (fst (generateExercise s)) = js "divisibilidade" ->
  generateExercise s = divisibilidade_case (js "divisibilidade") (rest s).
Proof.
  intros Hs Ht.
  destruct (case_types (js "primos") (rest s)) as (_ & T1 & _).
  destruct (case_types (js "fatoracao") (rest s)) as (_ & _ & T2 & _).
  destruct (case_types (js "potenciacao") (rest s)) as (_ & _ & _ & T3 & _).
  destruct (case_types (js "resto") (rest s)) as (_ & _ & _ & _ & T4).
  destruct (generateExercise_cases s Hs) as [H | [H | [H | [H | H]]]];
    [exact H | | | |]; rewrite H in Ht;
    rewrite ?T1, ?T2, ?T3, ?T4 in Ht; vm_compute in Ht; discriminate.
Qed.

(** A generated exercise of topic "fatoracao" is a factorisation exercise
    for a subject value of the pool. *)
Lemma generateExercise_factorization s :
  valid_source s ->
  type (fst (generateExercise s)) = js "fatoracao" ->
  exists n, factorization_exercise (fst (generateExercise s)) n.
Proof.
  intros Hs Ht.
  destruct (case_types (js "divisibilidade") (rest s)) as (T0 & _).
  destruct (case_types (js "primos") (rest s)) as (_ & T1 & _).
  destruct (case_types (js "potenciacao") (rest s)) as (_ & _ & _ & T3 & _).
  destruct (case_types (js "resto") (rest s)) as (_ & _ & _ & _ & T4).
  destruct (generateExercise_cases s Hs) as [H | [H | [H | [H | H]]]];
    rewrite H in Ht |- *;
    try (rewrite ?T0, ?T1, ?T3, ?T4 in Ht; vm_compute in Ht; discriminate).
  pose proof (random_below_range 8 (rest s) (valid_source_rest s Hs)
                ltac:(lia)) as Hi.
  exists (index_number factorization_pool (fst (random_below 8 (rest s)))).
  split; [reflexivity |]. split; [| split; reflexivity].
  apply index_number_in. exact Hi.
Qed.

(** C8, as amended.  Every generated divisibility exercise has a subject
    [n] in [10, 199] and a divisor [d] among 2, 3, 5, 10; its canonical
    answer is "S" exactly when [n mod d = 0] and "N" otherwise; when
    [d = 3] its explanation cites the sum of the decimal digits of [n],
    otherwise it names the rule.  For [n = 15], [d = 3] the answer is "S"
    and the explanation cites the digit sum 6. *)
Theorem divisibility_exercise_answer :
  (forall s : RandomSource,
      valid_source s ->
      type (fst (generateExercise s)) = js "divisibilidade" ->
      exists n d,
        10 <= n <= 199 /\ In d [2; 3; 5; 10]
        /\ prompt (fst (generateExercise s))
           = js "O número " ++ Number_toString n
             ++ js " é divisível por " ++ Number_toString d ++ js "? (S/N)"
        /\ (answer (fst (generateExercise s)) = js "S" <-> n mod d = 0)
        /\ (answer (fst (generateExercise s)) = js "N" <-> n mod d <> 0)
        /\ (d = 3 ->
            explain (fst (generateExercise s))
            = js "Soma dos algarismos de " ++ Number_toString n
              ++ js " = " ++ Number_toString (digit_sum n) ++ js "; "
              ++ (if n mod 3 =? 0 then js "é" else js "não é")
              ++ js " múltiplo de 3.")
        /\ (d <> 3 ->
            explain (fst (generateExercise s))
            = js "Regra prática de divisibilidade por "
              ++ Number_toString d ++ js "."))
  /\ (valid_source source_15_by_3
      /\ prompt (fst (generateExercise source_15_by_3))
         = js "O número 15 é divisível por 3? (S/N)"
      /\ answer (fst (generateExercise source_15_by_3)) = js "S"
      /\ explain (fst (generateExercise source_15_by_3))
         = js "Soma dos algarismos de 15 = 6; é múltiplo de 3."
      /\ digit_sum 15 = 1 + 5).
Proof.
  split.
  - intros s Hs Ht.
    rewrite (generateExercise_divisibilidade s Hs Ht).
    rewrite divisibilidade_case_run.
    apply valid_source_rest in Hs.
    pose proof (random_below_range 190 (rest s) Hs ltac:(lia)) as Hi.
    pose proof (random_below_range 4 (rest (rest s))
                  (valid_source_rest _ Hs) ltac:(lia)) as Hj.
    pose proof (index_number_in [2; 3; 5; 10] _ Hj) as Hd.
    set (n := 10 + fst (random_below 190 (rest s))) in *.
    set (d := index_number [2; 3; 5; 10]
                (fst (random_below 4 (rest (rest s))))) in *.
    exists n, d. cbn zeta. cbn [prompt answer explain].
    assert (Hn : 10 <= n <= 199) by (unfold n; lia).
    assert (Hdpos : 0 < d) by (simpl in Hd; intuition lia).
    rewrite (js_rem_nonneg n d) by lia.
    split; [exact Hn |]. split; [exact Hd |]. split; [reflexivity |].
    split; [| split; [| split]].
    + destruct (n mod d =? 0) eqn:He.
      * apply Z.eqb_eq in He. tauto.
      * apply Z.eqb_neq in He. split; [discriminate | tauto].
    + destruct (n mod d =? 0) eqn:He.
      * apply Z.eqb_eq in He. split; [discriminate | tauto].
      * apply Z.eqb_neq in He. tauto.
    + intros ->. cbn [Z.eqb Pos.eqb].
      rewrite (digit_total_digit_sum n) by (simpl; lia). reflexivity.
    + intros Hd3.
      replace (d =? 3) with false by (symmetry; apply Z.eqb_neq; exact Hd3).
      reflexivity.
  - split.
    + intros i. unfold source_15_by_3, const_source.
      do 3 (destruct i as [| i]; [split; vm_compute; congruence |]).
      destruct i; split; vm_compute; congruence.
    + repeat split; vm_compute; reflexivity.
Qed.

Lemma divisibility_exercise_answer_witness :
  exists n d,
    10 <= n <= 199 /\ In d [2; 3; 5; 10]
    /\ prompt (fst (generateExercise source_15_by_3))
       = js "O número " ++ Number_toString n
         ++ js " é divisível por " ++ Number_toString d ++ js "? (S/N)"
    /\ (answer (fst (generateExercise source_15_by_3)) = js "S"
        <-> n mod d = 0)
    /\ (answer (fst (generateExercise source_15_by_3)) = js "N"
        <-> n mod d <> 0)
    /\ (d = 3 ->
        explain (fst (generateExercise source_15_by_3))
        = js "Soma dos algarismos de " ++ Number_toString n
          ++ js " = " ++ Number_toString (digit_sum n) ++ js "; "
          ++ (if n mod 3 =? 0 then js "é" else js "não é")
          ++ js " múltiplo de 3.")
    /\ (d <> 3 ->
        explain (fst (generateExercise source_15_by_3))
        = js "Regra prática de divisibilidade por "
          ++ Number_toString d ++ js ".").
Proof.
  destruct divisibility_exercise_answer as [Hall (Hvalid & _)].
  apply (Hall source_15_by_3 Hvalid). vm_compute. reflexivity.
Defined.

(** C8 as stated names the answer "yes"; the generator never produces that
    text.  For [n = 15], [d = 3] the number is divisible and the canonical
    answer is "S". *)
Lemma divisibility_answer_is_not_yes :
  type (fst (generateExercise source_15_by_3)) = js "divisibilidade"
  /\ prompt (fst (generateExercise source_15_by_3))
     = js "O número 15 é divisível por 3? (S/N)"
  /\ 15 mod 3 = 0
  /\ answer (fst (generateExercise source_15_by_3)) = js "S"
  /\ ~ (answer (fst (generateExercise source_15_by_3)) = js "yes"
        <-> 15 mod 3 = 0).
Proof.
  repeat split; try (vm_compute; reflexivity).
  intros [_ H]. specialize (H eq_refl). vm_compute in H. discriminate.
Qed.

(** C5. For every exercise of a topic other than factorisation, the
    submitted text is graded correct exactly when, trimmed and lower-cased,
    it equals the lower-cased canonical answer as a string.  For the
    exponentiation exercise of base 2 and exponent 3 the canonical answer
    is "8": submitting "8" is correct, submitting "08" is not. *)
Theorem submit_exact_string_match :
  (forall (ex : Exercise) (input : jsstring),
      type ex <> js "fatoracao" ->
      (correct (submit ex input) = true
       <-> toLowerCase (trim input) = toLowerCase (answer ex))
      /\ explanation (submit ex input) = explain ex
      /\ expectedDisplay (submit ex input) = answer ex)
  /\ (type (fst (generateExercise source_2_pow_3)) = js "potenciacao"
      /\ prompt (fst (generateExercise source_2_pow_3))
         = js "Calcule 2^3 (2 elevado a 3)."
      /\ answer (fst (generateExercise source_2_pow_3)) = js "8"
      /\ correct (submit (fst (generateExercise source_2_pow_3)) (js "8"))
         = true
      /\ correct (submit (fst (generateExercise source_2_pow_3)) (js "08"))
         = false).
Proof.
  split.
  - intros ex input Ht. unfold submit.
    replace (string_eqb (type ex) (js "fatoracao")) with false.
    + cbn [andb correct explanation expectedDisplay].
      split; [apply string_eqb_eq | split; reflexivity].
    + symmetry. apply not_true_is_false. intros H.
      apply string_eqb_eq in H. contradiction.
  - repeat split; vm_compute; reflexivity.
Qed.

Lemma submit_exact_string_match_witness :
  correct (submit (fst (generateExercise source_2_pow_3)) (js " 8 ")) = true
  <-> toLowerCase (trim (js " 8 "))
      = toLowerCase (answer (fst (generateExercise source_2_pow_3))).
Proof.
  destruct submit_exact_string_match as [Hall _].
  apply (Hall (fst (generateExercise source_2_pow_3)) (js " 8 ")).
  vm_compute. discriminate.
Defined.

(* ================================================================= *)
(** ** Reading back what [String] prints *)
(* ================================================================= *)

Lemma numeral_char_cases c :
  is_numeral_char c = true ->
  (c = 48 \/ c = 49 \/ c = 50 \/ c = 51 \/ c = 52 \/ c = 53 \/ c = 54
   \/ c = 55 \/ c = 56 \/ c = 57 \/ c = 46 \/ c = 101 \/ c = 43)%N.
Proof.
  unfold is_numeral_char, isDigit.
  rewrite !orb_true_iff, andb_true_iff, !N.eqb_eq, !N.leb_le. lia.
Qed.

Lemma numeral_char_clean c :
  is_numeral_char c = true ->
  clean_char c = c /\ isWhiteSpace c = false /\ is_separator c = false.
Proof.
  intros H. apply numeral_char_cases in H.
  repeat (destruct H as [-> | H]; [repeat split; reflexivity |]).
  subst. repeat split; reflexivity.
Qed.

Lemma white_space_cases c :
  isWhiteSpace c = true ->
  (c = 9 \/ c = 10 \/ c = 11 \/ c = 12 \/ c = 13 \/ c = 32 \/ c = 160
   \/ c = 5760 \/ c = 8192 \/ c = 8193 \/ c = 8194 \/ c = 8195 \/ c = 8196
   \/ c = 8197 \/ c = 8198 \/ c = 8199 \/ c = 8200 \/ c = 8201 \/ c = 8202
   \/ c = 8232 \/ c = 8233 \/ c = 8239 \/ c = 8287 \/ c = 12288
   \/ c = 65279)%N.
Proof.
  unfold isWhiteSpace.
  rewrite !orb_true_iff, !andb_true_iff, !N.eqb_eq, !N.leb_le. lia.
Qed.

Lemma separator_char_clean c :
  is_separator c = true -> isWhiteSpace (clean_char c) = true.
Proof.
  unfold is_separator. rewrite !orb_true_iff.
  intros [[H | H] | H].
  - unfold isTimesSign in H. rewrite !orb_true_iff, !N.eqb_eq in H.
    destruct H as [[[[-> | ->] | ->] | ->] | ->]; reflexivity.
  - unfold isListSeparator in H. rewrite !orb_true_iff, !N.eqb_eq in H.
    destruct H as [-> | ->]; reflexivity.
  - apply white_space_cases in H.
    repeat (destruct H as [-> | H]; [reflexivity |]).
    subst. reflexivity.
Qed.

Lemma digit_char_numeral d :
  is_digit_value d -> is_numeral_char (digit_char d) = true.
Proof.
  intros Hd. unfold is_numeral_char.
  rewrite (digit_char_isDigit d Hd). reflexivity.
Qed.

Lemma digits_numeral ds :
  Forall is_digit_value ds ->
  forallb is_numeral_char (map digit_char ds) = true.
Proof.
  induction 1 as [| d ds Hd Hds IH]; simpl; [reflexivity |].
  rewrite (digit_char_numeral d Hd), IH. reflexivity.
Qed.

(** *** The two shapes of [String(z)] *)

Lemma strip_zeros_spec l : exists k, l = repeat 0 k ++ strip_zeros l.
Proof.
  induction l as [| d t [k IH]]; simpl.
  - exists 0%nat. reflexivity.
  - destruct (d =? 0) eqn:Hd.
    + apply Z.eqb_eq in Hd. subst d. exists (S k). simpl. f_equal. exact IH.
    + exists 0%nat. reflexivity.
Qed.

Lemma rev_repeat_zero k : rev (repeat 0 k) = repeat 0 k.
Proof.
  induction k as [| k IH]; simpl; [reflexivity |].
  rewrite IH. symmetry. apply repeat_cons.
Qed.

Lemma significand_spec ds : exists k, ds = significand ds ++ repeat 0 k.
Proof.
  unfold significand.
  destruct (strip_zeros_spec (rev ds)) as [k Hk].
  exists k. rewrite <- (rev_involutive ds) at 1.
  rewrite Hk at 1. rewrite rev_app_distr, rev_repeat_zero. reflexivity.
Qed.

Lemma value_of_digits_zeros l k :
  value_of_digits 10 (l ++ repeat 0 k)
  = value_of_digits 10 l * 10 ^ Z.of_nat k.
Proof.
  induction k as [| k IH].
  - simpl. rewrite app_nil_r. lia.
  - cbn [repeat]. rewrite repeat_cons, app_assoc, value_of_digits_snoc, IH.
    rewrite Nat2Z.inj_succ, Z.pow_succ_r by lia. lia.
Qed.

Lemma Number_toString_cases z :
  0 <= z ->
  Number_toString z = map digit_char (decimal_digits z)
  \/ exists d digits_after k,
       decimal_digits z = (d :: digits_after) ++ repeat 0 k
       /\ Number_toString z
          = digit_char d :: fraction_part digits_after
            ++ [101%N; 43%N]
            ++ map digit_char
                 (decimal_digits
                    (Z.of_nat (List.length (decimal_digits z)) - 1))
       /\ 21 < Z.of_nat (List.length (decimal_digits z)).
Proof.
  intros Hz. unfold Number_toString.
  replace (z <? 0) with false by (symmetry; apply Z.ltb_ge; lia).
  unfold unsigned_toString.
  destruct (Z.of_nat (List.length (decimal_digits z)) <=? 21) eqn:Hlen;
    [left; reflexivity |].
  apply Z.leb_gt in Hlen.
  destruct (significand_spec (decimal_digits z)) as [k Hk].
  destruct (significand (decimal_digits z)) as [| d digits_after];
    [left; reflexivity |].
  right. exists d, digits_after, k.
  split; [exact Hk |]. split; [| exact Hlen].
  unfold fraction_part. destruct digits_after; reflexivity.
Qed.

(** *** [Number] on those shapes *)

Lemma trimStart_noop s : starts_clean s -> trimStart s = s.
Proof.
  destruct s as [| c t]; simpl; [reflexivity |].
  intros ->. reflexivity.
Qed.

Lemma trim_noop s : starts_clean s -> starts_clean (rev s) -> trim s = s.
Proof.
  intros Hs Hr. unfold trim, trimEnd.
  rewrite (trimStart_noop s Hs), (trimStart_noop (rev s) Hr).
  apply rev_involutive.
Qed.

Lemma no_white_space_starts_clean s : no_white_space s -> starts_clean s.
Proof.
  unfold no_white_space. destruct s as [| c t]; simpl; [trivial |].
  rewrite andb_true_iff, negb_true_iff. tauto.
Qed.

Lemma no_white_space_rev s : no_white_space s -> no_white_space (rev s).
Proof.
  unfold no_white_space. rewrite !forallb_forall.
  intros H c Hc. apply H. apply in_rev. exact Hc.
Qed.

Lemma numeral_no_white_space s :
  forallb is_numeral_char s = true -> no_white_space s.
Proof.
  unfold no_white_space. rewrite !forallb_forall.
  intros H c Hc. apply negb_true_iff.
  apply numeral_char_clean. apply H. exact Hc.
Qed.

Lemma trim_numeral s : forallb is_numeral_char s = true -> trim s = s.
Proof.
  intros H. apply numeral_no_white_space in H.
  apply trim_noop; apply no_white_space_starts_clean;
    [exact H | apply no_white_space_rev; exact H].
Qed.

Lemma parse_non_decimal_numeral s :
  forallb is_numeral_char s = true -> parse_non_decimal s = None.
Proof.
  destruct s as [| z [| p [| q t]]]; try reflexivity.
  cbn [forallb]. rewrite !andb_true_iff. intros (_ & Hp & _).
  cbn [parse_non_decimal].
  destruct (z =? 48)%N; [| reflexivity].
  apply numeral_char_cases in Hp.
  repeat (destruct Hp as [-> | Hp]; [reflexivity |]).
  subst. reflexivity.
Qed.

Lemma parse_decimal_digit_first d t :
  is_digit_value d ->
  parse_decimal (digit_char d :: t)
  = match parse_unsigned_decimal (digit_char d :: t) with
    | Some q => Finite q
    | None => NaN
    end.
Proof.
  unfold is_digit_value. intros Hd.
  assert (d = 0 \/ d = 1 \/ d = 2 \/ d = 3 \/ d = 4 \/ d = 5 \/ d = 6
          \/ d = 7 \/ d = 8 \/ d = 9) as H by lia.
  repeat (destruct H as [-> | H]; [reflexivity |]). subst. reflexivity.
Qed.

Lemma span_digits_digits ds r :
  Forall is_digit_value ds -> starts_nondigit r ->
  span_digits (map digit_char ds ++ r) = (ds, r).
Proof.
  intros Hds Hr. induction Hds as [| d ds Hd Hds IH]; simpl.
  - destruct r as [| c t]; [reflexivity |].
    simpl in Hr. simpl. rewrite Hr. reflexivity.
  - rewrite (digit_char_isDigit d Hd), IH, (digit_value_char d Hd).
    reflexivity.
Qed.

Lemma scale10_nonneg m p : 0 <= p -> scale10 m p = inject_Z (m * 10 ^ p).
Proof.
  intros Hp. unfold scale10.
  replace (0 <=? p) with true by (symmetry; apply Z.leb_le; exact Hp).
  reflexivity.
Qed.

(** The plain decimal expansion reads back as the number. *)
Lemma parse_plain_digits ds :
  Forall is_digit_value ds -> ds <> [] ->
  parse_unsigned_decimal (map digit_char ds)
  = Some (inject_Z (value_of_digits 10 ds)).
Proof.
  intros Hds Hne. unfold parse_unsigned_decimal.
  rewrite <- (app_nil_r (map digit_char ds)).
  rewrite (span_digits_digits ds [] Hds I).
  destruct ds as [| d ds']; [congruence |].
  cbn [parse_exponent]. rewrite scale10_nonneg by lia.
  cbn [Z.opp Z.pow Z.pow_pos]. rewrite Z.mul_1_r. reflexivity.
Qed.

(** The exponent form [d.ddde+x] reads back as the digits scaled by the
    power of ten. *)
Lemma parse_exponent_form d digits_after es :
  Forall is_digit_value (d :: digits_after) ->
  Forall is_digit_value es -> es <> [] ->
  Z.of_nat (List.length digits_after) <= value_of_digits 10 es ->
  parse_unsigned_decimal
    (digit_char d :: fraction_part digits_after
     ++ [101%N; 43%N] ++ map digit_char es)
  = Some (inject_Z
            (value_of_digits 10 (d :: digits_after)
             * 10 ^ (value_of_digits 10 es
                     - Z.of_nat (List.length digits_after)))).
Proof.
  intros Hsig Hes Hne Hle.
  inversion Hsig as [| ? ? Hd Hafter]; subst.
  assert (Hexp : span_digits (map digit_char es) = (es, [])).
  { rewrite <- (app_nil_r (map digit_char es)).
    apply span_digits_digits; [exact Hes | exact I]. }
  unfold parse_unsigned_decimal.
  change (digit_char d :: fraction_part digits_after
          ++ [101%N; 43%N] ++ map digit_char es)
    with (map digit_char [d]
          ++ (fraction_part digits_after
              ++ [101%N; 43%N] ++ map digit_char es)).
  rewrite span_digits_digits;
    [| constructor; [exact Hd | constructor]
     | destruct digits_after; reflexivity].
  destruct digits_after as [| a after].
  - cbn [fraction_part app N.eqb Pos.eqb parse_exponent orb].
    rewrite Hexp. destruct es as [| e es']; [congruence |].
    rewrite scale10_nonneg by (simpl in Hle; lia).
    reflexivity.
  - cbn [fraction_part app N.eqb Pos.eqb].
    change (map digit_char (a :: after) ++ 101%N :: 43%N :: map digit_char es)
      with (map digit_char (a :: after)
            ++ (101%N :: 43%N :: map digit_char es)).
    rewrite span_digits_digits; [| exact Hafter | reflexivity].
    cbn [parse_exponent N.eqb Pos.eqb orb].
    rewrite Hexp. destruct es as [| e es']; [congruence |].
    rewrite scale10_nonneg by lia.
    reflexivity.
Qed.

Lemma Number_nonempty s :
  s <> [] -> trim s = s -> parse_non_decimal s = None ->
  Number s = parse_decimal s.
Proof.
  intros Hne Htrim Hnd. unfold Number. rewrite Htrim.
  destruct s as [| c t]; [congruence |].
  rewrite Hnd. reflexivity.
Qed.

Lemma fraction_part_numeral digits_after :
  Forall is_digit_value digits_after ->
  forallb is_numeral_char (fraction_part digits_after) = true.
Proof.
  intros H. destruct digits_after as [| a after]; [reflexivity |].
  unfold fraction_part. cbn [forallb].
  rewrite (digits_numeral _ H). reflexivity.
Qed.

(** [String(z)] starts with a digit and consists of numeral code units. *)
Lemma Number_toString_numeral z :
  0 <= z ->
  forallb is_numeral_char (Number_toString z) = true
  /\ exists d t, Number_toString z = digit_char d :: t /\ is_digit_value d.
Proof.
  intros Hz.
  destruct (decimal_digits_spec z Hz) as (Hall & _ & Hne).
  destruct (Number_toString_cases z Hz)
    as [-> | (d & after & k & Hds & -> & Hlen)].
  - split; [apply digits_numeral; exact Hall |].
    destruct (decimal_digits z) as [| d ds]; [congruence |].
    inversion Hall; subst. exists d, (map digit_char ds). auto.
  - rewrite Hds in Hall. apply Forall_app in Hall. destruct Hall as [Hsig _].
    inversion Hsig as [| ? ? Hd Hafter]; subst.
    destruct (decimal_digits_spec
                (Z.of_nat (List.length (decimal_digits z)) - 1) ltac:(lia))
      as (Hes & _ & _).
    split.
    + cbn [forallb]. rewrite (digit_char_numeral d Hd).
      rewrite !forallb_app, (fraction_part_numeral _ Hafter).
      cbn [andb]. apply andb_true_iff.
      split; [reflexivity | exact (digits_numeral _ Hes)].
    + eexists _, _. split; [reflexivity | exact Hd].
Qed.

(** [Number(String(z)) = z] for every non-negative integer. *)
Lemma Number_round_trip z : 0 <= z -> Number (Number_toString z) = of_Z z.
Proof.
  intros Hz.
  destruct (Number_toString_numeral z Hz) as (Hnum & d0 & t0 & Hhead & Hd0).
  rewrite Number_nonempty;
    [| rewrite Hhead; discriminate
     | apply trim_numeral; exact Hnum
     | apply parse_non_decimal_numeral; exact Hnum].
  rewrite Hhead, (parse_decimal_digit_first d0 t0 Hd0), <- Hhead.
  destruct (decimal_digits_spec z Hz) as (Hall & Hval & Hne).
  destruct (Number_toString_cases z Hz)
    as [-> | (d & after & k & Hds & -> & Hlen)].
  - rewrite (parse_plain_digits _ Hall Hne), Hval. reflexivity.
  - remember (Z.of_nat (List.length (decimal_digits z))) as n eqn:Hndef.
    assert (Hn1 : 0 <= n - 1) by lia.
    destruct (decimal_digits_spec (n - 1) Hn1) as (Hes & Hev & Hene).
    assert (Hn : n = 1 + Z.of_nat (List.length after) + Z.of_nat k).
    { rewrite Hndef, Hds, length_app, repeat_length. cbn [List.length]. lia. }
    assert (Hsig : Forall is_digit_value (d :: after)).
    { rewrite Hds in Hall. apply Forall_app in Hall. tauto. }
    rewrite parse_exponent_form; auto; [| rewrite Hev; lia].
    rewrite Hev. unfold of_Z. do 2 f_equal.
    rewrite <- Hval, Hds, value_of_digits_zeros.
    f_equal. f_equal. lia.
Qed.

(* ================================================================= *)
(** ** The cleaning pipeline of [normalizeFactorsInput] *)
(* ================================================================= *)

Lemma replace_class_space cls s :
  replace_class cls space s = map (fun c => if cls c then 32%N else c) s.
Proof.
  unfold replace_class. induction s as [| c t IH]; simpl; [reflexivity |].
  rewrite IH. destruct (cls c); reflexivity.
Qed.

Lemma cleaned_eq text :
  cleaned text = trim (replace_ws_runs space (map clean_char text)).
Proof.
  unfold cleaned, toLowerCase. rewrite !replace_class_space, !map_map.
  reflexivity.
Qed.

Lemma map_clean_numeral t :
  forallb is_numeral_char t = true -> map clean_char t = t.
Proof.
  induction t as [| c t IH]; simpl; [reflexivity |].
  rewrite andb_true_iff. intros [Hc Ht].
  rewrite (IH Ht). f_equal. apply numeral_char_clean. exact Hc.
Qed.

Lemma map_clean_separator sep :
  separator sep ->
  map clean_char sep <> [] /\ all_white_space (map clean_char sep).
Proof.
  intros [Hne Hall]. split.
  - destruct sep; [congruence | discriminate].
  - unfold all_white_space. rewrite forallb_forall in *.
    intros c Hc. apply in_map_iff in Hc. destruct Hc as (c0 & <- & Hc0).
    apply separator_char_clean. apply Hall. exact Hc0.
Qed.

Lemma interleave_cons (tok : jsstring) p pairs :
  interleave tok (p :: pairs) = tok ++ fst p ++ interleave (snd p) pairs.
Proof.
  unfold interleave. simpl. rewrite <- app_assoc. reflexivity.
Qed.

(** *** Collapsing the runs of white space *)

Lemma runs_no_white_space tok r :
  no_white_space tok ->
  replace_ws_runs_from false space (tok ++ r)
  = tok ++ replace_ws_runs_from false space r.
Proof.
  unfold no_white_space. induction tok as [| c t IH]; simpl; [reflexivity |].
  rewrite andb_true_iff, negb_true_iff. intros [Hc Ht].
  rewrite Hc, (IH Ht). reflexivity.
Qed.

Lemma runs_restart s :
  starts_clean s ->
  replace_ws_runs_from true space s = replace_ws_runs_from false space s.
Proof.
  destruct s as [| c t]; simpl; [reflexivity |].
  intros ->. reflexivity.
Qed.

Lemma runs_white_space_true ws r :
  all_white_space ws ->
  replace_ws_runs_from true space (ws ++ r)
  = replace_ws_runs_from true space r.
Proof.
  unfold all_white_space. induction ws as [| c t IH]; simpl; [reflexivity |].
  rewrite andb_true_iff. intros [Hc Ht].
  rewrite Hc, (IH Ht). reflexivity.
Qed.

Lemma runs_white_space ws r :
  ws <> [] -> all_white_space ws ->
  replace_ws_runs_from false space (ws ++ r)
  = 32%N :: replace_ws_runs_from true space r.
Proof.
  unfold all_white_space. destruct ws as [| c t]; [congruence |].
  intros _. simpl. rewrite andb_true_iff. intros [Hc Ht].
  rewrite Hc. simpl. f_equal. apply runs_white_space_true. exact Ht.
Qed.

Lemma token_starts_clean t r : token t -> starts_clean (t ++ r).
Proof.
  intros [Hne Hws]. destruct t as [| c t']; [congruence |].
  apply no_white_space_starts_clean in Hws. exact Hws.
Qed.

Lemma runs_interleave :
  forall (pairs : list (jsstring * jsstring)) (tok : jsstring),
    token tok ->
    Forall (fun p => fst p <> [] /\ all_white_space (fst p) /\ token (snd p))
      pairs ->
    replace_ws_runs space (interleave tok pairs)
    = interleave tok (map (fun p => (space, snd p)) pairs).
Proof.
  unfold replace_ws_runs.
  induction pairs as [| p pairs IH]; intros tok Htok Hall.
  - unfold interleave. simpl. rewrite !app_nil_r.
    rewrite <- (app_nil_r tok) at 1.
    rewrite runs_no_white_space by apply Htok.
    simpl. apply app_nil_r.
  - inversion Hall as [| ? ? (Hne & Hws & Hsnd) Hall']; subst.
    cbn [map]. rewrite !interleave_cons. cbn [fst snd].
    rewrite runs_no_white_space by apply Htok.
    rewrite runs_white_space by assumption.
    rewrite runs_restart by (apply token_starts_clean; exact Hsnd).
    rewrite (IH (snd p) Hsnd Hall'). reflexivity.
Qed.

(** *** Trimming and splitting *)

Lemma interleave_last :
  forall (pairs : list (jsstring * jsstring)) (tok : jsstring),
    token tok -> Forall (fun p => token (snd p)) pairs ->
    exists a b, interleave tok pairs = a ++ b /\ token b.
Proof.
  induction pairs as [| p pairs IH]; intros tok Htok Hall.
  - exists [], tok. unfold interleave. simpl. rewrite app_nil_r. auto.
  - inversion Hall as [| ? ? Hsnd Hall']; subst.
    destruct (IH (snd p) Hsnd Hall') as (a & b & Heq & Hb).
    exists (tok ++ fst p ++ a), b.
    rewrite interleave_cons, Heq, <- !app_assoc. auto.
Qed.

Lemma trim_interleave
  (tok : jsstring) (pairs : list (jsstring * jsstring)) :
  token tok -> Forall (fun p => token (snd p)) pairs ->
  trim (interleave tok pairs) = interleave tok pairs.
Proof.
  intros Htok Hall. apply trim_noop.
  - apply token_starts_clean. exact Htok.
  - destruct (interleave_last pairs tok Htok Hall) as (a & b & -> & Hb & Hws).
    rewrite rev_app_distr.
    apply token_starts_clean. split.
    + intros Hnil. apply Hb.
      rewrite <- (rev_involutive b), Hnil. reflexivity.
    + apply no_white_space_rev. exact Hws.
Qed.

Lemma split_no_space t : no_white_space t -> split 32%N t = [t].
Proof.
  unfold no_white_space. induction t as [| c t IH]; simpl; [reflexivity |].
  rewrite andb_true_iff, negb_true_iff. intros [Hc Ht].
  assert (Hc32 : char_eqb c 32 = false).
  { unfold char_eqb. apply N.eqb_neq. intros ->. discriminate. }
  rewrite Hc32, (IH Ht). reflexivity.
Qed.

Lemma split_token t r :
  no_white_space t -> split 32%N (t ++ 32%N :: r) = t :: split 32%N r.
Proof.
  unfold no_white_space. induction t as [| c t IH]; simpl; [reflexivity |].
  rewrite andb_true_iff, negb_true_iff. intros [Hc Ht].
  assert (Hc32 : char_eqb c 32 = false).
  { unfold char_eqb. apply N.eqb_neq. intros ->. discriminate. }
  rewrite Hc32, (IH Ht). reflexivity.
Qed.

Lemma split_interleave :
  forall (pairs : list (jsstring * jsstring)) (tok : jsstring),
    token tok -> Forall (fun p => token (snd p)) pairs ->
    split 32%N (interleave tok (map (fun p => (space, snd p)) pairs))
    = tok :: map snd pairs.
Proof.
  induction pairs as [| p pairs IH]; intros tok Htok Hall.
  - unfold interleave. simpl. rewrite app_nil_r.
    apply split_no_space. apply Htok.
  - inversion Hall as [| ? ? Hsnd Hall']; subst.
    cbn [map]. rewrite interleave_cons. cbn [fst snd].
    change (space ++ ?r) with (32%N :: r).
    rewrite split_token by apply Htok.
    rewrite (IH (snd p) Hsnd Hall'). reflexivity.
Qed.

(** The cleaned form of tokens joined by separators, and its pieces. *)
Lemma cleaned_interleave
  (tok : jsstring) (pairs : list (jsstring * jsstring)) :
  token tok -> forallb is_numeral_char tok = true ->
  Forall (fun p => separator (fst p) /\ token (snd p)
                   /\ forallb is_numeral_char (snd p) = true) pairs ->
  cleaned (interleave tok pairs)
  = interleave tok (map (fun p => (space, snd p)) pairs)
  /\ split 32%N (cleaned (interleave tok pairs)) = tok :: map snd pairs.
Proof.
  intros Htok Hnum Hall.
  set (wsp := map (fun p => (map clean_char (fst p), snd p)) pairs).
  assert (Hmap : map clean_char (interleave tok pairs) = interleave tok wsp).
  { unfold wsp. clear Htok. revert tok Hnum.
    induction Hall as [| p pairs (Hsep & Htokp & Hnump) Hall IH];
      intros tok Hnum.
    - unfold interleave. simpl. rewrite !app_nil_r.
      apply map_clean_numeral. exact Hnum.
    - cbn [map]. rewrite !interleave_cons, !map_app. cbn [fst snd].
      rewrite (map_clean_numeral tok Hnum), (IH (snd p) Hnump).
      reflexivity. }
  assert (Hwsp : Forall (fun p => fst p <> [] /\ all_white_space (fst p)
                                  /\ token (snd p)) wsp).
  { unfold wsp. apply Forall_map.
    eapply Forall_impl; [| exact Hall].
    intros p (Hsep & Htokp & _). cbn [fst snd].
    destruct (map_clean_separator _ Hsep). auto. }
  assert (Htoks : Forall (fun p : jsstring * jsstring => token (snd p)) pairs).
  { eapply Forall_impl; [| exact Hall]. intros p (_ & H & _). exact H. }
  assert (Hsame : map (fun p : jsstring * jsstring => (space, snd p)) wsp
                  = map (fun p => (space, snd p)) pairs).
  { unfold wsp. rewrite map_map. reflexivity. }
  assert (Hclean : cleaned (interleave tok pairs)
                   = interleave tok (map (fun p => (space, snd p)) pairs)).
  { rewrite cleaned_eq, Hmap, (runs_interleave wsp tok Htok Hwsp), Hsame.
    apply trim_interleave; [exact Htok |].
    apply Forall_map. exact Htoks. }
  split; [exact Hclean |].
  rewrite Hclean. apply split_interleave; assumption.
Qed.

Lemma Number_toString_token z :
  0 <= z ->
  token (Number_toString z)
  /\ forallb is_numeral_char (Number_toString z) = true.
Proof.
  intros Hz.
  destruct (Number_toString_numeral z Hz) as (Hnum & d & t & Hhead & _).
  split; [| exact Hnum]. split.
  - rewrite Hhead. discriminate.
  - apply numeral_no_white_space. exact Hnum.
Qed.

(** Integers printed by [String] and separated by arbitrary accepted
    separators, possibly a different one in each gap, are read back in
    order. *)
Lemma normalizeFactorsInput_mixed_separators
  (z : Z) (others : list (jsstring * Z)) :
  0 <= z ->
  Forall (fun p => separator (fst p) /\ 0 <= snd p) others ->
  normalizeFactorsInput
    (interleave (Number_toString z)
       (map (fun p => (fst p, Number_toString (snd p))) others))
  = of_Z z :: map (fun p => of_Z (snd p)) others.
Proof.
  intros Hz Hall.
  set (pairs := map (fun p : jsstring * Z =>
                       (fst p, Number_toString (snd p))) others).
  destruct (Number_toString_token z Hz) as [Htok Hnum].
  assert (Hpairs : Forall (fun p : jsstring * jsstring =>
                             separator (fst p) /\ token (snd p)
                             /\ forallb is_numeral_char (snd p) = true)
                     pairs).
  { unfold pairs. apply Forall_map.
    eapply Forall_impl; [| exact Hall].
    intros p [Hsep Hp]. cbn [fst snd].
    destruct (Number_toString_token (snd p) Hp). auto. }
  destruct (cleaned_interleave _ pairs Htok Hnum Hpairs) as [Hclean Hsplit].
  unfold normalizeFactorsInput.
  destruct (cleaned (interleave (Number_toString z) pairs)) as [| c rest']
    eqn:Hc.
  - exfalso. destruct Htok as [Hne _].
    unfold interleave in Hclean. symmetry in Hclean.
    apply app_eq_nil in Hclean. tauto.
  - rewrite Hsplit. cbn [map filter].
    rewrite (Number_round_trip z Hz). cbn [of_Z Number_isFinite].
    f_equal. unfold pairs. clear - Hall.
    induction Hall as [| p others [_ Hp] Hall IH]; [reflexivity |].
    cbn [map filter snd]. rewrite (Number_round_trip (snd p) Hp).
    cbn [of_Z Number_isFinite]. f_equal. exact IH.
Qed.

Lemma join_interleave (sep t : jsstring) (ts : list jsstring) :
  join sep (t :: ts) = interleave t (map (fun u => (sep, u)) ts).
Proof.
  revert t. induction ts as [| u ts IH]; intros t.
  - unfold interleave. simpl. rewrite app_nil_r. reflexivity.
  - cbn [map]. rewrite interleave_cons. cbn [fst snd].
    rewrite <- IH. reflexivity.
Qed.

(** C7. For every non-empty sequence of integers at least 2, printed in
    decimal and joined with an accepted separator ("x", "×", ",", ";", a
    mix of white space, or any other non-empty run of separator code
    units), [normalizeFactorsInput] applied to the joined text yields the
    original sequence, in the same order. *)
Theorem normalizeFactorsInput_round_trip (l : list Z) (sep : jsstring) :
  l <> [] -> Forall (fun z => 2 <= z) l -> separator sep ->
  normalizeFactorsInput (join sep (map Number_toString l)) = map of_Z l.
Proof.
  intros Hne Hall Hsep.
  destruct l as [| z l]; [congruence |].
  inversion Hall as [| ? ? Hz Hl]; subst. cbv beta in Hz.
  assert (Hz0 : 0 <= z) by lia.
  cbn [map]. rewrite join_interleave.
  pose proof (normalizeFactorsInput_mixed_separators z
                (map (fun k => (sep, k)) l) Hz0) as H.
  rewrite !map_map in H. cbn [fst snd] in H.
  rewrite map_map. apply H.
  apply Forall_map. eapply Forall_impl; [| exact Hl].
  intros k Hk. cbv beta in Hk. cbn [fst snd]. split; [exact Hsep | lia].
Qed.

Lemma normalizeFactorsInput_round_trip_witness :
  normalizeFactorsInput (join (js " × ") (map Number_toString [2; 2; 3]))
  = map of_Z [2; 2; 3].
Proof.
  apply (normalizeFactorsInput_round_trip [2; 2; 3] (js " × ")).
  - discriminate.
  - repeat constructor; lia.
  - split; [discriminate | reflexivity].
Defined.

(* ================================================================= *)
(** ** Further properties of the kernel *)
(* ================================================================= *)

(** *** [multisetEqual] is equality up to order *)

Lemma every_from_equal (bb : list Z) :
  forall l pre tl,
    bb = pre ++ tl -> List.length l = List.length tl ->
    every_from
      (fun v i => match nth_error bb i with
                  | Some w => v =? w
                  | None => false
                  end) (List.length pre) l = true ->
    l = tl.
Proof.
  induction l as [| v l IH]; intros pre tl Hbb Hlen Hall.
  - destruct tl; [reflexivity | discriminate].
  - destruct tl as [| w tl]; [discriminate |].
    cbn [every_from] in Hall. apply andb_true_iff in Hall.
    destruct Hall as [Hv Hrest].
    subst bb. rewrite nth_error_app2 in Hv by lia.
    rewrite Nat.sub_diag in Hv. cbn [nth_error] in Hv.
    apply Z.eqb_eq in Hv. subst w. f_equal.
    apply (IH (pre ++ [v]) tl).
    + rewrite <- app_assoc. reflexivity.
    + simpl in Hlen. lia.
    + rewrite length_app. cbn [List.length].
      rewrite Nat.add_1_r. exact Hrest.
Qed.

Lemma sorted_permutation_equal :
  forall l1 l2,
    StronglySorted Z.le l1 -> StronglySorted Z.le l2 ->
    Permutation l1 l2 -> l1 = l2.
Proof.
  induction l1 as [| a l1 IH]; intros l2 Hs1 Hs2 Hperm.
  - apply Permutation_nil in Hperm. subst. reflexivity.
  - destruct l2 as [| b l2].
    + apply Permutation_sym, Permutation_nil in Hperm. discriminate.
    + inversion Hs1 as [| ? ? Hs1' Ha]; subst.
      inversion Hs2 as [| ? ? Hs2' Hb]; subst.
      rewrite Forall_forall in Ha, Hb.
      assert (Hba : b <= a).
      { assert (Hin : In a (b :: l2))
          by (apply (Permutation_in a Hperm); left; reflexivity).
        destruct Hin as [-> | Hin]; [lia | apply Hb; exact Hin]. }
      assert (Hab : a <= b).
      { assert (Hin : In b (a :: l1))
          by (apply (Permutation_in b (Permutation_sym Hperm)); left;
              reflexivity).
        destruct Hin as [-> | Hin]; [lia | apply Ha; exact Hin]. }
      assert (a = b) by lia. subst b. f_equal.
      apply IH; auto. apply Permutation_cons_inv with a. exact Hperm.
Qed.

Lemma multisetEqual_permutation a b :
  multisetEqual a b = true -> Permutation a b.
Proof.
  unfold multisetEqual.
  destruct (Nat.eqb (List.length a) (List.length b)) eqn:Hlen;
    [| discriminate].
  apply Nat.eqb_eq in Hlen. cbn [negb]. intros Hall.
  assert (Heq : sort ascending a = sort ascending b).
  { apply (every_from_equal (sort ascending b) (sort ascending a) []
             (sort ascending b)); [reflexivity | | exact Hall].
    rewrite !sort_length. exact Hlen. }
  apply perm_trans with (sort ascending a).
  - apply Permutation_sym, sort_perm.
  - rewrite Heq. apply sort_perm.
Qed.

Lemma permutation_multisetEqual a b :
  Permutation a b -> multisetEqual a b = true.
Proof.
  intros Hperm. apply multisetEqual_of_sort_eq.
  apply sorted_permutation_equal; try apply sort_sorted.
  apply perm_trans with a; [apply sort_perm |].
  apply perm_trans with b; [exact Hperm |].
  apply Permutation_sym, sort_perm.
Qed.

(** X1. [multisetEqual a b] holds exactly when [b] is a rearrangement of
    [a]: same values with the same multiplicities, in any order. *)
Theorem multisetEqual_iff_permutation (a b : list Z) :
  multisetEqual a b = true <-> Permutation a b.
Proof.
  split; [apply multisetEqual_permutation | apply permutation_multisetEqual].
Qed.

(** *** [smallestFactor]: what each result means *)

Lemma smallestFactor_some n f :
  2 <= n -> smallestFactor n = Some f ->
  1 < f /\ (f | n) /\ no_divisor_below f n.
Proof.
  intros Hn. unfold smallestFactor.
  destruct (n <? 2) eqn:H2; [apply Z.ltb_lt in H2; lia |].
  destruct (js_rem n 2 =? 0) eqn:Hr.
  - intros [= <-]. apply js_rem_zero_divide in Hr; [| lia].
    split; [lia |]. split; [exact Hr |]. intros k Hk. lia.
  - pose proof (smallestFactor_loop_spec n _ 3 eq_refl ltac:(lia) eq_refl
                  ltac:(lia)
                  (no_divisor_below_three n (odd_of_rem n Hr))) as Hspec.
    intros Hf. rewrite Hf in Hspec.
    destruct Hspec as (H1 & _ & H3 & H4).
    split; [lia |]. split; assumption.
Qed.

Lemma smallestFactor_none n :
  2 <= n -> smallestFactor n = None -> Z.prime n /\ n <> 2.
Proof.
  intros Hn. unfold smallestFactor.
  destruct (n <? 2) eqn:H2; [apply Z.ltb_lt in H2; lia |].
  destruct (js_rem n 2 =? 0) eqn:Hr; [discriminate |].
  pose proof (smallestFactor_loop_spec n _ 3 eq_refl ltac:(lia) eq_refl
                ltac:(lia)
                (no_divisor_below_three n (odd_of_rem n Hr))) as Hspec.
  intros Hf. rewrite Hf in Hspec. split; [exact Hspec |].
  intros ->. vm_compute in Hr. discriminate.
Qed.

Lemma least_divisor_prime f n :
  1 < f -> (f | n) -> no_divisor_below f n -> Z.prime f.
Proof.
  intros Hf Hdiv Hno. split; [exact Hf |].
  intros k Hk Hkf. apply (Hno k); [lia |].
  apply Z.divide_trans with f; assumption.
Qed.

(** X2. The result of [smallestFactor] read by its callers: below 2 it is
    none; from 2 on, a returned [f] is a prime that divides [n] and no
    divisor of [n] above 1 is smaller, and none is returned only for a
    prime other than 2. *)
Theorem smallestFactor_meaning (n : Z) :
  (n < 2 -> smallestFactor n = None)
  /\ (2 <= n ->
      match smallestFactor n with
      | Some f =>
          Z.prime f /\ (f | n) /\ forall k, 1 < k -> (k | n) -> f <= k
      | None => Z.prime n /\ n <> 2
      end).
Proof.
  split.
  - intros Hn. unfold smallestFactor.
    replace (n <? 2) with true by (symmetry; apply Z.ltb_lt; exact Hn).
    reflexivity.
  - intros Hn. destruct (smallestFactor n) as [f |] eqn:Hf.
    + destruct (smallestFactor_some n f Hn Hf) as (H1 & Hdiv & Hno).
      split; [apply (least_divisor_prime f n); assumption |].
      split; [exact Hdiv |].
      intros k Hk Hkn. destruct (Z_lt_le_dec k f) as [Hlt | Hge];
        [| exact Hge].
      exfalso. apply (Hno k); [lia | exact Hkn].
    + apply smallestFactor_none; assumption.
Qed.

Lemma smallestFactor_meaning_witness :
  match smallestFactor 91 with
  | Some f => Z.prime f /\ (f | 91) /\ forall k, 1 < k -> (k | 91) -> f <= k
  | None => Z.prime 91 /\ 91 <> 2
  end.
Proof. apply (smallestFactor_meaning 91). lia. Defined.

(** *** [primeFactors]: membership, primes, products *)

Lemma primeFactors_one : primeFactors 1 = [].
Proof. reflexivity. Qed.

(** The facts of [primeFactors_shape] from 1 on. *)
Lemma primeFactors_shape_pos n :
  1 <= n ->
  StronglySorted Z.le (primeFactors n) /\ Forall Z.prime (primeFactors n)
  /\ productOf (primeFactors n) = n.
Proof.
  intros Hn. destruct (Z.eq_dec n 1) as [-> | Hne].
  - rewrite primeFactors_one. repeat constructor.
  - apply primeFactors_shape. lia.
Qed.

Lemma divides_productOf p l : In p l -> (p | productOf l).
Proof.
  induction l as [| q l IH]; [contradiction |].
  rewrite productOf_cons. intros [-> | Hin].
  - exists (productOf l). lia.
  - apply Z.divide_trans with (productOf l); [apply IH; exact Hin |].
    exists q. lia.
Qed.

(** X3. From 1 on, the elements of [primeFactors n] are exactly the prime
    divisors of [n]. *)
Theorem primeFactors_members (n p : Z) :
  1 <= n -> (In p (primeFactors n) <-> Z.prime p /\ (p | n)).
Proof.
  intros Hn.
  destruct (primeFactors_shape_pos n Hn) as (_ & Hpr & Hprod).
  split.
  - intros Hin. split.
    + rewrite Forall_forall in Hpr. apply Hpr. exact Hin.
    + rewrite <- Hprod. apply divides_productOf. exact Hin.
  - intros [Hp Hdiv]. apply prime_divides_product; auto.
    rewrite Hprod. exact Hdiv.
Qed.

Lemma primeFactors_members_witness :
  In 5 (primeFactors 60) <-> Z.prime 5 /\ (5 | 60).
Proof. apply (primeFactors_members 60 5). lia. Defined.

(** X4. [isPrime n] holds exactly when [primeFactors n] is the one-element
    list [n]. *)
Theorem isPrime_iff_single_factor (n : Z) :
  isPrime n = true <-> primeFactors n = [n].
Proof.
  rewrite isPrime_correct. split.
  - intros Hp. pose proof (Z.prime_ge_2 n Hp) as Hn.
    destruct (primeFactors_shape n Hn) as (Hsort & Hpr & Hprod).
    apply sorted_primes_unique.
    + exact Hpr.
    + constructor; [exact Hp | constructor].
    + exact Hsort.
    + constructor; constructor.
    + rewrite Hprod, productOf_cons, productOf_nil. lia.
  - intros Heq. destruct (Z_lt_le_dec n 2) as [Hlt | Hge].
    + rewrite (primeFactors_below_two n Hlt) in Heq. discriminate.
    + destruct (primeFactors_shape n Hge) as (_ & Hpr & _).
      rewrite Heq in Hpr. inversion Hpr. assumption.
Qed.

(** X5. The factors of a product are the factors of the two numbers put
    together in ascending order. *)
Theorem primeFactors_product (a b : Z) :
  1 <= a -> 1 <= b ->
  primeFactors (a * b) = sort ascending (primeFactors a ++ primeFactors b).
Proof.
  intros Ha Hb.
  destruct (primeFactors_shape_pos a Ha) as (_ & Hpa & Hproda).
  destruct (primeFactors_shape_pos b Hb) as (_ & Hpb & Hprodb).
  destruct (primeFactors_shape_pos (a * b) ltac:(nia))
    as (Hsort & Hp & Hprod).
  apply sorted_primes_unique; auto.
  - apply (Permutation_Forall (x := primeFactors a ++ primeFactors b)).
    + apply Permutation_sym, sort_perm.
    + apply Forall_app. split; assumption.
  - apply sort_sorted.
  - rewrite (productOf_perm _ _ (sort_perm ascending _)).
    rewrite productOf_app. lia.
Qed.

Lemma primeFactors_product_witness :
  primeFactors (12 * 45)
  = sort ascending (primeFactors 12 ++ primeFactors 45).
Proof. apply (primeFactors_product 12 45); lia. Defined.

(* ================================================================= *)
(** ** The animated factorisation and the animated division *)
(* ================================================================= *)

Lemma chained_product :
  forall steps v,
    chained v steps -> productOf (map Step.factor steps) = v.
Proof.
  induction steps as [| st steps IH]; intros v H; simpl in H.
  - subst. reflexivity.
  - destruct H as (_ & Hv & Hrest).
    cbn [map]. rewrite productOf_cons, (IH _ Hrest). lia.
Qed.

Lemma no_divisor_below_le m v : 2 <= v -> no_divisor_below m v -> m <= v.
Proof.
  intros Hv Hno. destruct (Z_lt_le_dec v m) as [Hlt | Hge]; [| exact Hge].
  exfalso. apply (Hno v); [lia | apply Z.divide_refl].
Qed.

Lemma no_divisor_below_quotient f v q :
  v = q * f -> no_divisor_below f v -> no_divisor_below f q.
Proof.
  intros Hv Hno k Hk Hkq. apply (Hno k Hk).
  apply Z.divide_trans with q; [exact Hkq | exists f; lia].
Qed.

(** The run of the loop of [buildSteps] from a value [v >= 2] that has no
    divisor below [m]: it appends a chain from [v] down to 1 whose factors
    are primes in ascending order, none below [m]. *)
Lemma buildSteps_loop_spec :
  forall fuel v arr m,
    2 <= v -> v <= Z.of_nat fuel -> no_divisor_below m v ->
    exists steps,
      buildSteps_loop fuel v arr = Some (arr ++ steps)
      /\ chained v steps
      /\ Forall Z.prime (map Step.factor steps)
      /\ StronglySorted Z.le (map Step.factor steps)
      /\ Forall (fun p => m <= p) (map Step.factor steps).
Proof.
  induction fuel as [| fuel IH]; intros v arr m Hv Hfuel Hno; [lia |].
  cbn [buildSteps_loop].
  replace (2 <=? v) with true by (symmetry; apply Z.leb_le; exact Hv).
  pose proof (no_divisor_below_le m v Hv Hno) as Hmv.
  destruct (smallestFactor v) as [f |] eqn:Hf.
  - destruct (smallestFactor_some v f Hv Hf) as (Hf1 & Hdiv & Hnof).
    replace (f =? 0) with false by (symmetry; apply Z.eqb_neq; lia).
    assert (Hfp : Z.prime f) by (apply (least_divisor_prime f v); assumption).
    assert (Hmf : m <= f).
    { destruct (Z_lt_le_dec f m) as [Hlt | Hge]; [| exact Hge].
      exfalso. apply (Hno f); [lia | exact Hdiv]. }
    destruct Hdiv as [q Hq].
    assert (Hquot : v / f = q) by (subst v; apply Z.div_mul; lia).
    rewrite Hquot.
    assert (Hq1 : 1 <= q) by nia.
    destruct (q =? 1) eqn:Hone.
    + apply Z.eqb_eq in Hone. subst q.
      eexists [_]. split; [reflexivity |].
      split; [cbn; lia |].
      split; [constructor; [exact Hfp | constructor] |].
      split; [repeat constructor |].
      constructor; [exact Hmf | constructor].
    + apply Z.eqb_neq in Hone.
      destruct (IH q
                  (arr ++ [{| Step.value := v; Step.factor := f;
                              Step.remaining := q |}]) f
                  ltac:(lia) ltac:(nia)
                  (no_divisor_below_quotient f v q Hq Hnof))
        as (steps & Hrun & Hch & Hpr & Hsort & Hge).
      exists ({| Step.value := v; Step.factor := f; Step.remaining := q |}
              :: steps).
      split; [rewrite Hrun, <- app_assoc; reflexivity |].
      split; [cbn; repeat split; [lia | exact Hch] |].
      split; [constructor; assumption |].
      split; [constructor; assumption |].
      constructor; [exact Hmf |].
      eapply Forall_impl; [| exact Hge]. intros p Hp. cbv beta in *. lia.
  - destruct (smallestFactor_none v Hv Hf) as [Hp _].
    eexists [_]. split; [reflexivity |].
    split; [cbn; lia |].
    split; [constructor; [exact Hp | constructor] |].
    split; [repeat constructor |].
    constructor; [exact Hmv | constructor].
Qed.

Lemma buildSteps_loop_mono :
  forall fuel v arr r,
    buildSteps_loop fuel v arr = Some r ->
    forall fuel', (fuel <= fuel')%nat ->
      buildSteps_loop fuel' v arr = Some r.
Proof.
  induction fuel as [| fuel IH]; intros v arr r Hrun fuel' Hle;
    [discriminate |].
  destruct fuel' as [| fuel']; [lia |].
  cbn [buildSteps_loop] in *.
  destruct (2 <=? v); [| exact Hrun].
  destruct (smallestFactor v) as [f |]; [| exact Hrun].
  destruct (f =? 0); [exact Hrun |].
  destruct (v / f =? 1); [exact Hrun |].
  apply (IH _ _ _ Hrun). lia.
Qed.

Lemma buildSteps_run x :
  2 <= x ->
  exists steps,
    buildSteps_loop (S (Z.to_nat x)) x [] = Some steps
    /\ chained x steps
    /\ Forall Z.prime (map Step.factor steps)
    /\ StronglySorted Z.le (map Step.factor steps).
Proof.
  intros Hx.
  destruct (buildSteps_loop_spec (S (Z.to_nat x)) x [] 2 Hx ltac:(lia)
              ltac:(intros k Hk; lia))
    as (steps & Hrun & Hch & Hpr & Hsort & _).
  exists steps. auto.
Qed.

(** Termination of [buildSteps]. *)
Lemma buildSteps_fuel_enough x fuel :
  (S (Z.to_nat x) <= fuel)%nat ->
  buildSteps_loop fuel x [] = Some (buildSteps x).
Proof.
  intros Hfuel.
  assert (Hsome : exists r, buildSteps_loop (S (Z.to_nat x)) x [] = Some r).
  { destruct (Z_lt_le_dec x 2) as [Hlt | Hge].
    - exists []. cbn [buildSteps_loop].
      replace (2 <=? x) with false by (symmetry; apply Z.leb_gt; lia).
      reflexivity.
    - destruct (buildSteps_run x Hge) as (steps & Hrun & _).
      exists steps. exact Hrun. }
  destruct Hsome as [r Hr].
  unfold buildSteps. rewrite Hr.
  apply (buildSteps_loop_mono _ _ _ _ Hr). exact Hfuel.
Qed.

(** X6. The animated factorisation shows the same factors as
    [primeFactors]: for [x >= 2] the factors of the steps of
    [buildSteps x] are, in order, the elements of [primeFactors x], and
    the steps form a chain from [x] down to 1 in which each value is its
    factor times the remainder the next step starts from.  Below 2 there
    is no step.  The loop finishes within the fuel provided. *)
Theorem buildSteps_factors (x : Z) :
  (x < 2 -> buildSteps x = [])
  /\ (2 <= x ->
      map Step.factor (buildSteps x) = primeFactors x
      /\ chained x (buildSteps x)
      /\ List.length (buildSteps x) = List.length (primeFactors x))
  /\ buildSteps_loop (S (Z.to_nat x)) x [] = Some (buildSteps x).
Proof.
  split; [| split].
  - intros Hx. unfold buildSteps. cbn [buildSteps_loop].
    replace (2 <=? x) with false by (symmetry; apply Z.leb_gt; lia).
    reflexivity.
  - intros Hx.
    destruct (buildSteps_run x Hx) as (steps & Hrun & Hch & Hpr & Hsort).
    unfold buildSteps. rewrite Hrun.
    destruct (primeFactors_shape x Hx) as (Hs & Hp & Hprod).
    assert (Heq : map Step.factor steps = primeFactors x).
    { apply sorted_primes_unique; auto.
      rewrite Hprod. apply chained_product. exact Hch. }
    split; [exact Heq |]. split; [exact Hch |].
    rewrite <- Heq, length_map. reflexivity.
  - apply buildSteps_fuel_enough. lia.
Qed.

Lemma buildSteps_factors_witness :
  map Step.factor (buildSteps 84) = primeFactors 84
  /\ chained 84 (buildSteps 84)
  /\ List.length (buildSteps 84) = List.length (primeFactors 84).
Proof. apply (buildSteps_factors 84). lia. Defined.

(** *** Groups of the divisor *)

Lemma groups_loop_spec :
  forall fuel divisor rest_ arr,
    0 < divisor -> 0 <= rest_ -> rest_ < Z.of_nat fuel ->
    groups_loop fuel divisor rest_ arr
    = Some (arr ++ repeat divisor (Z.to_nat (rest_ / divisor)),
            rest_ mod divisor).
Proof.
  induction fuel as [| fuel IH]; intros divisor rest_ arr Hd Hr Hfuel; [lia |].
  cbn [groups_loop].
  replace (0 <? divisor) with true by (symmetry; apply Z.ltb_lt; exact Hd).
  rewrite andb_true_r.
  destruct (divisor <=? rest_) eqn:Hle.
  - apply Z.leb_le in Hle.
    rewrite IH by lia.
    assert (Hq : rest_ / divisor = (rest_ - divisor) / divisor + 1).
    { replace rest_ with ((rest_ - divisor) + 1 * divisor) at 1 by lia.
      apply Z.div_add. lia. }
    assert (Hm : rest_ mod divisor = (rest_ - divisor) mod divisor).
    { replace rest_ with ((rest_ - divisor) + 1 * divisor) at 1 by lia.
      apply Z.mod_add. lia. }
    assert (Hq0 : 0 <= (rest_ - divisor) / divisor)
      by (apply Z.div_pos; lia).
    rewrite Hq, Hm, Z2Nat.inj_add by lia.
    rewrite Nat.add_comm. cbn [Z.to_nat Pos.to_nat Pos.iter_op Nat.add repeat].
    rewrite <- app_assoc. reflexivity.
  - apply Z.leb_gt in Hle.
    rewrite Z.div_small, Z.mod_small by lia.
    simpl. rewrite app_nil_r. reflexivity.
Qed.

Lemma groups_loop_mono :
  forall fuel divisor rest_ arr r,
    groups_loop fuel divisor rest_ arr = Some r ->
    forall fuel', (fuel <= fuel')%nat ->
      groups_loop fuel' divisor rest_ arr = Some r.
Proof.
  induction fuel as [| fuel IH]; intros divisor rest_ arr r Hrun fuel' Hle;
    [discriminate |].
  destruct fuel' as [| fuel']; [lia |].
  cbn [groups_loop] in *.
  destruct ((divisor <=? rest_) && (0 <? divisor)); [| exact Hrun].
  apply (IH _ _ _ _ Hrun). lia.
Qed.

(** The memo as quotient and remainder, with any fuel from
    [dividendo + 1] on. *)
Lemma groups_quotient_remainder dividendo divisor :
  0 <= dividendo -> 1 <= divisor ->
  forall fuel, (S (Z.to_nat dividendo) <= fuel)%nat ->
    groups_fuel fuel dividendo divisor
    = Some {| Divisao.groups := dividendo / divisor;
              Divisao.remainder := dividendo mod divisor |}.
Proof.
  intros Hn Hd fuel Hfuel.
  pose proof (Z.mod_pos_bound dividendo divisor ltac:(lia)) as Hmod.
  assert (Hq : 0 <= dividendo / divisor) by (apply Z.div_pos; lia).
  unfold groups_fuel.
  rewrite groups_loop_spec by lia.
  cbn [app]. rewrite repeat_length, Z2Nat.id by lia.
  rewrite Z.max_r by lia. reflexivity.
Qed.

Lemma groups_value dividendo divisor :
  0 <= dividendo -> 1 <= divisor ->
  groups dividendo divisor
  = {| Divisao.groups := dividendo / divisor;
       Divisao.remainder := dividendo mod divisor |}.
Proof.
  intros Hn Hd. unfold groups.
  rewrite (groups_quotient_remainder dividendo divisor Hn Hd) by lia.
  reflexivity.
Qed.

(** X7. The animated division computes the Euclidean division: for an
    integer dividend from 0 to [2^53 - 1], on which the subtractions of the
    loop are exact, and an integer divisor at least 1 (the least values the
    fields allow) with a quotient of at most [2^32 - 1], the largest length
    of the array of groups, the number of groups is the quotient and the
    remainder is the remainder, so that
    [dividendo = groups * divisor + remainder] with
    [0 <= remainder < divisor].  The loop finishes within the fuel
    provided. *)
Theorem groups_is_euclidean_division (dividendo divisor : Z) :
  0 <= dividendo <= MAX_SAFE_INTEGER -> 1 <= divisor ->
  dividendo / divisor <= MAX_ARRAY_LENGTH ->
  groups dividendo divisor
  = {| Divisao.groups := dividendo / divisor;
       Divisao.remainder := dividendo mod divisor |}
  /\ dividendo
     = Divisao.groups (groups dividendo divisor) * divisor
       + Divisao.remainder (groups dividendo divisor)
  /\ 0 <= Divisao.remainder (groups dividendo divisor) < divisor
  /\ forall fuel, (S (Z.to_nat dividendo) <= fuel)%nat ->
       groups_fuel fuel dividendo divisor = Some (groups dividendo divisor).
Proof.
  intros [Hn _] Hd _.
  pose proof (Z.mod_pos_bound dividendo divisor ltac:(lia)) as Hmod.
  pose proof (Z.div_mod dividendo divisor ltac:(lia)) as Hdm.
  rewrite (groups_value dividendo divisor Hn Hd).
  cbn [Divisao.groups Divisao.remainder].
  split; [reflexivity |]. split; [lia |]. split; [lia |].
  apply groups_quotient_remainder; assumption.
Qed.

Lemma groups_is_euclidean_division_witness :
  groups 13 4 = {| Divisao.groups := 13 / 4; Divisao.remainder := 13 mod 4 |}
  /\ 13 = Divisao.groups (groups 13 4) * 4 + Divisao.remainder (groups 13 4)
  /\ 0 <= Divisao.remainder (groups 13 4) < 4
  /\ forall fuel, (S (Z.to_nat 13) <= fuel)%nat ->
       groups_fuel fuel 13 4 = Some (groups 13 4).
Proof.
  apply (groups_is_euclidean_division 13 4).
  - split; [lia | vm_compute; discriminate].
  - lia.
  - vm_compute. discriminate.
Defined.

(** X8. The remainder displayed while the groups appear one by one, for
    a dividend, a divisor and a quotient in the ranges above, on which the
    groups are computed and the product [shown * divisor] is exact: with
    [step] groups requested, [shown] never exceeds the number of groups;
    as long as groups are missing the display shows what is not grouped
    yet, which is at least the divisor, and once [step] reaches the number
    of groups it shows the remainder of the division. *)
Theorem displayed_rest_reaches_remainder (step dividendo divisor : Z) :
  0 <= dividendo <= MAX_SAFE_INTEGER -> 1 <= divisor ->
  dividendo / divisor <= MAX_ARRAY_LENGTH ->
  0 <= step <= MAX_SAFE_INTEGER ->
  0 <= shown step dividendo divisor <= dividendo / divisor
  /\ (step < dividendo / divisor ->
      displayed_rest step dividendo divisor = dividendo - step * divisor
      /\ divisor <= displayed_rest step dividendo divisor)
  /\ (dividendo / divisor <= step ->
      displayed_rest step dividendo divisor = dividendo mod divisor).
Proof.
  intros [Hn _] Hd _ [Hs _].
  pose proof (groups_value dividendo divisor Hn Hd) as Hg.
  pose proof (Z.mod_pos_bound dividendo divisor ltac:(lia)) as Hmod.
  pose proof (Z.div_mod dividendo divisor ltac:(lia)) as Hdm.
  assert (Hq : 0 <= dividendo / divisor) by (apply Z.div_pos; lia).
  unfold displayed_rest, shown. rewrite Hg. cbn [Divisao.groups].
  split; [lia |]. split.
  - intros Hlt. rewrite Z.min_l by lia.
    assert (divisor <= dividendo - step * divisor) by nia.
    rewrite Z.max_r by lia. split; [reflexivity | assumption].
  - intros Hge. rewrite Z.min_r by lia.
    rewrite Z.max_r by nia. nia.
Qed.

Lemma displayed_rest_reaches_remainder_witness :
  0 <= shown 5 13 4 <= 13 / 4
  /\ (5 < 13 / 4 ->
      displayed_rest 5 13 4 = 13 - 5 * 4 /\ 4 <= displayed_rest 5 13 4)
  /\ (13 / 4 <= 5 -> displayed_rest 5 13 4 = 13 mod 4).
Proof.
  apply (displayed_rest_reaches_remainder 5 13 4).
  - split; [lia | vm_compute; discriminate].
  - lia.
  - vm_compute. discriminate.
  - split; [lia | vm_compute; discriminate].
Defined.

(* ================================================================= *)
(** ** The five topics of the generator, and grading their answers *)
(* ================================================================= *)

(** A valid source makes the generator run the case of the topic it
    reports. *)
Lemma generateExercise_topic s :
  valid_source s ->
  (type (fst (generateExercise s)) = js "divisibilidade"
   /\ generateExercise s
      = divisibilidade_case (js "divisibilidade") (rest s))
  \/ (type (fst (generateExercise s)) = js "primos"
      /\ generateExercise s = primos_case (js "primos") (rest s))
  \/ (type (fst (generateExercise s)) = js "fatoracao"
      /\ generateExercise s = fatoracao_case (js "fatoracao") (rest s))
  \/ (type (fst (generateExercise s)) = js "potenciacao"
      /\ generateExercise s = potenciacao_case (js "potenciacao") (rest s))
  \/ (type (fst (generateExercise s)) = js "resto"
      /\ generateExercise s = resto_case (js "resto") (rest s)).
Proof.
  intros Hs.
  destruct (generateExercise_cases s Hs) as [H | [H | [H | [H | H]]]];
    rewrite H.
  - left. split; [apply case_types | reflexivity].
  - right; left. split; [apply case_types | reflexivity].
  - do 2 right; left. split; [apply case_types | reflexivity].
  - do 3 right; left. split; [apply case_types | reflexivity].
  - do 4 right. split; [apply case_types | reflexivity].
Qed.

(** Closes a goal whose context says that one exercise has two different
    topics. *)
Ltac topic_clash :=
  match goal with
  | H1 : type ?e = js ?a, H2 : type ?e = js ?b |- _ =>
      exfalso; rewrite H1 in H2; vm_compute in H2; discriminate
  end.

Lemma generateExercise_primos s :
  valid_source s -> type (fst (generateExercise s)) = js "primos" ->
  generateExercise s = primos_case (js "primos") (rest s).
Proof.
  intros Hs Ht.
  destruct (generateExercise_topic s Hs)
    as [[T H] | [[T H] | [[T H] | [[T H] | [T H]]]]];
    try exact H; topic_clash.
Qed.

Lemma generateExercise_potenciacao s :
  valid_source s -> type (fst (generateExercise s)) = js "potenciacao" ->
  generateExercise s = potenciacao_case (js "potenciacao") (rest s).
Proof.
  intros Hs Ht.
  destruct (generateExercise_topic s Hs)
    as [[T H] | [[T H] | [[T H] | [[T H] | [T H]]]]];
    try exact H; topic_clash.
Qed.

Lemma generateExercise_resto s :
  valid_source s -> type (fst (generateExercise s)) = js "resto" ->
  generateExercise s = resto_case (js "resto") (rest s).
Proof.
  intros Hs Ht.
  destruct (generateExercise_topic s Hs)
    as [[T H] | [[T H] | [[T H] | [[T H] | [T H]]]]];
    try exact H; topic_clash.
Qed.

Lemma generateExercise_fatoracao s :
  valid_source s -> type (fst (generateExercise s)) = js "fatoracao" ->
  generateExercise s = fatoracao_case (js "fatoracao") (rest s).
Proof.
  intros Hs Ht.
  destruct (generateExercise_topic s Hs)
    as [[T H] | [[T H] | [[T H] | [[T H] | [T H]]]]];
    try exact H; topic_clash.
Qed.

(** Grading outside the factorisation topic. *)
Lemma submit_other_topic ex input :
  type ex <> js "fatoracao" ->
  submit ex input
  = {| correct := string_eqb (toLowerCase (trim input))
                    (toLowerCase (answer ex));
       explanation := explain ex;
       expectedDisplay := answer ex |}.
Proof.
  intros Ht. unfold submit.
  replace (string_eqb (type ex) (js "fatoracao")) with false; [reflexivity |].
  symmetry. apply not_true_is_false. intros H.
  apply string_eqb_eq in H. contradiction.
Qed.

Lemma toLowerCase_numeral t :
  forallb is_numeral_char t = true -> toLowerCase t = t.
Proof.
  unfold toLowerCase. induction t as [| c t IH]; simpl; [reflexivity |].
  rewrite andb_true_iff. intros [Hc Ht]. rewrite (IH Ht). f_equal.
  apply numeral_char_cases in Hc.
  repeat (destruct Hc as [-> | Hc]; [reflexivity |]). subst. reflexivity.
Qed.

(** A printed non-negative integer is graded as itself. *)
Lemma printed_answer_accepted ex :
  type ex <> js "fatoracao" ->
  (exists z, 0 <= z /\ answer ex = Number_toString z) ->
  correct (submit ex (answer ex)) = true.
Proof.
  intros Ht (z & Hz & Ha).
  rewrite (submit_other_topic ex _ Ht). cbn [correct].
  destruct (Number_toString_numeral z Hz) as (Hnum & _).
  rewrite Ha, (trim_numeral _ Hnum). apply string_eqb_refl.
Qed.

(** *** Primality exercises *)

Lemma primos_case_run t s :
  fst (primos_case t s)
  = let n := index_number candidates
               (fst (random_below (Z.of_nat (List.length candidates)) s)) in
    {| type := t;
       value := None;
       expected := None;
       prompt := Number_toString n ++ js " é primo? (S/N)";
       answer := if isPrime n then js "sim" else js "não";
       explain :=
         if isPrime n
         then Number_toString n
              ++ js " tem apenas dois divisores (1 e ele mesmo)."
         else Number_toString n ++ js " não é primo; menor divisor: "
              ++ (match smallestFactor n with
                  | Some f => Number_toString f
                  | None => js "—"
                  end)
              ++ js "." |}.
Proof. reflexivity. Qed.

Lemma candidates_bounds n : In n candidates -> 11 <= n <= 33.
Proof. unfold candidates. simpl. intuition lia. Qed.

(** X9. Every generated primality exercise asks about a candidate [n]
    between 11 and 33; its canonical answer is "sim" exactly when [n] is
    prime and "não" otherwise; for a composite [n] the explanation names
    the least divisor above 1, never the dash.  The prompt offers "(S/N)",
    but a submitted text is graded correct exactly when, trimmed and
    lower-cased, it is that canonical word: "S" and "N" are graded
    incorrect. *)
Theorem primality_exercise (s : RandomSource) :
  valid_source s ->
  type (fst (generateExercise s)) = js "primos" ->
  exists n,
    In n candidates /\ 11 <= n <= 33
    /\ prompt (fst (generateExercise s))
       = Number_toString n ++ js " é primo? (S/N)"
    /\ (answer (fst (generateExercise s)) = js "sim" <-> Z.prime n)
    /\ (answer (fst (generateExercise s)) = js "não" <-> ~ Z.prime n)
    /\ (Z.prime n ->
        explain (fst (generateExercise s))
        = Number_toString n
          ++ js " tem apenas dois divisores (1 e ele mesmo).")
    /\ (~ Z.prime n ->
        exists f,
          smallestFactor n = Some f /\ Z.prime f /\ (f | n)
          /\ explain (fst (generateExercise s))
             = Number_toString n ++ js " não é primo; menor divisor: "
               ++ Number_toString f ++ js ".")
    /\ (forall input,
          correct (submit (fst (generateExercise s)) input) = true
          <-> toLowerCase (trim input)
              = (if isPrime n then js "sim" else js "não"))
    /\ correct (submit (fst (generateExercise s)) (js "S")) = false
    /\ correct (submit (fst (generateExercise s)) (js "N")) = false.
Proof.
  intros Hs Ht.
  assert (Hnf : type (fst (generateExercise s)) <> js "fatoracao")
    by (rewrite Ht; vm_compute; discriminate).
  assert (Hsub := submit_other_topic (fst (generateExercise s))).
  rewrite (generateExercise_primos s Hs Ht) in *.
  rewrite primos_case_run in *.
  pose proof (random_below_range (Z.of_nat (List.length candidates))
                (rest s) (valid_source_rest s Hs) ltac:(simpl; lia)) as Hi.
  pose proof (index_number_in candidates _ Hi) as Hin.
  set (n := index_number candidates
              (fst (random_below (Z.of_nat (List.length candidates))
                      (rest s)))) in *.
  pose proof (candidates_bounds n Hin) as Hn.
  exists n. cbn zeta in *. cbn [prompt answer explain] in *.
  split; [exact Hin |]. split; [exact Hn |]. split; [reflexivity |].
  pose proof (isPrime_correct n) as Hpc.
  split; [| split; [| split; [| split; [| split; [| split]]]]].
  - destruct (isPrime n); split; intros H; try reflexivity;
      try (apply Hpc; reflexivity).
    + vm_compute in H. discriminate.
    + apply Hpc in H. discriminate.
  - destruct (isPrime n); split; intros H; try reflexivity.
    + vm_compute in H. discriminate.
    + exfalso. apply H. apply Hpc. reflexivity.
    + intros Hp. apply Hpc in Hp. discriminate.
  - intros Hp. apply Hpc in Hp. rewrite Hp. reflexivity.
  - intros Hnp.
    assert (Hfalse : isPrime n = false)
      by (apply isPrime_false_iff; exact Hnp).
    destruct (smallestFactor_composite n ltac:(lia) Hfalse)
      as (f & Hf & H1 & Hdiv & _ & Hno).
    exists f. rewrite Hfalse, Hf.
    split; [reflexivity |].
    split; [apply (least_divisor_prime f n); assumption |].
    split; [exact Hdiv | reflexivity].
  - intros input. rewrite (Hsub input Hnf). cbn [correct answer].
    rewrite string_eqb_eq.
    destruct (isPrime n); reflexivity.
  - rewrite (Hsub _ Hnf). cbn [correct answer].
    destruct (isPrime n); vm_compute; reflexivity.
  - rewrite (Hsub _ Hnf). cbn [correct answer].
    destruct (isPrime n); vm_compute; reflexivity.
Qed.

Lemma const_source_valid l :
  Forall (fun q => (0 <= q)%Q /\ (q < 1)%Q) l -> valid_source (const_source l).
Proof.
  intros Hl i. unfold const_source. revert i.
  induction Hl as [| q l Hq Hl IH]; intros i.
  - destruct i; simpl; split; vm_compute; congruence.
  - destruct i as [| i]; simpl; [exact Hq | apply IH].
Qed.

Lemma primality_exercise_witness :
  correct (submit (fst (generateExercise source_primos_11)) (js "S")) = false.
Proof.
  assert (Hs : valid_source source_primos_11).
  { apply const_source_valid.
    repeat constructor; vm_compute; congruence. }
  destruct (primality_exercise source_primos_11 Hs
              ltac:(vm_compute; reflexivity))
    as (n & _ & _ & _ & _ & _ & _ & _ & _ & H & _).
  exact H.
Defined.

(** *** Remainder exercises *)

Lemma resto_case_run t s :
  fst (resto_case t s)
  = let a := 10 + fst (random_below 90 s) in
    let b := 3 + fst (random_below 9 (rest s)) in
    let q := a / b in
    let r := js_rem a b in
    {| type := t;
       value := None;
       expected := None;
       prompt := js "Em " ++ Number_toString a ++ js " ÷ "
                 ++ Number_toString b ++ js ", qual é o resto?";
       answer := Number_toString r;
       explain := Number_toString a ++ js " = " ++ Number_toString b
                  ++ js " × " ++ Number_toString q ++ js " + "
                  ++ Number_toString r ++ js "." |}.
Proof. reflexivity. Qed.

(** X10. Every generated remainder exercise divides [a] in [10, 99] by
    [b] in [3, 11]; its canonical answer is the decimal text of
    [r = a mod b], and its explanation states the identity
    [a = b × q + r] for the quotient [q], which does hold with
    [0 <= r < b]. *)
Theorem remainder_exercise (s : RandomSource) :
  valid_source s ->
  type (fst (generateExercise s)) = js "resto" ->
  exists a b q r,
    10 <= a <= 99 /\ 3 <= b <= 11
    /\ a = b * q + r /\ 0 <= r < b /\ q = a / b /\ r = a mod b
    /\ prompt (fst (generateExercise s))
       = js "Em " ++ Number_toString a ++ js " ÷ "
         ++ Number_toString b ++ js ", qual é o resto?"
    /\ answer (fst (generateExercise s)) = Number_toString r
    /\ explain (fst (generateExercise s))
       = Number_toString a ++ js " = " ++ Number_toString b
         ++ js " × " ++ Number_toString q ++ js " + "
         ++ Number_toString r ++ js ".".
Proof.
  intros Hs Ht.
  rewrite (generateExercise_resto s Hs Ht), resto_case_run.
  apply valid_source_rest in Hs.
  pose proof (random_below_range 90 (rest s) Hs ltac:(lia)) as Hi.
  pose proof (random_below_range 9 (rest (rest s))
                (valid_source_rest _ Hs) ltac:(lia)) as Hj.
  set (a := 10 + fst (random_below 90 (rest s))) in *.
  set (b := 3 + fst (random_below 9 (rest (rest s)))) in *.
  exists a, b, (a / b), (a mod b).
  cbn zeta. cbn [prompt answer explain].
  rewrite (js_rem_nonneg a b) by lia.
  pose proof (Z.div_mod a b ltac:(lia)).
  pose proof (Z.mod_pos_bound a b ltac:(lia)).
  repeat (split; [lia || reflexivity |]). reflexivity.
Qed.

Lemma remainder_exercise_witness :
  exists a b q r,
    10 <= a <= 99 /\ 3 <= b <= 11
    /\ a = b * q + r /\ 0 <= r < b /\ q = a / b /\ r = a mod b
    /\ prompt (fst (generateExercise source_resto_17_5))
       = js "Em " ++ Number_toString a ++ js " ÷ "
         ++ Number_toString b ++ js ", qual é o resto?"
    /\ answer (fst (generateExercise source_resto_17_5)) = Number_toString r
    /\ explain (fst (generateExercise source_resto_17_5))
       = Number_toString a ++ js " = " ++ Number_toString b
         ++ js " × " ++ Number_toString q ++ js " + "
         ++ Number_toString r ++ js ".".
Proof.
  apply (remainder_exercise source_resto_17_5).
  - apply const_source_valid. repeat constructor; vm_compute; congruence.
  - vm_compute. reflexivity.
Defined.

(** *** Exponentiation exercises *)

Lemma potenciacao_case_run t s :
  fst (potenciacao_case t s)
  = let base := index_number [2; 3; 4; 5] (fst (random_below 4 s)) in
    let exp := index_number [2; 3; 4] (fst (random_below 3 (rest s))) in
    {| type := t;
       value := None;
       expected := None;
       prompt := js "Calcule " ++ Number_toString base ++ js "^"
                 ++ Number_toString exp ++ js " ("
                 ++ Number_toString base ++ js " elevado a "
                 ++ Number_toString exp ++ js ").";
       answer := Number_toString (base ^ exp);
       explain := Number_toString base ++ js " multiplicado por si mesmo "
                  ++ Number_toString exp ++ js " vezes = "
                  ++ Number_toString (base ^ exp) |}.
Proof. reflexivity. Qed.

(** X11. Every generated exponentiation exercise has a base among 2, 3,
    4, 5 and an exponent among 2, 3, 4; its canonical answer is the
    decimal text of the exact power, a number between 4 and 625, which
    [Number] reads back as that power. *)
Theorem exponentiation_exercise (s : RandomSource) :
  valid_source s ->
  type (fst (generateExercise s)) = js "potenciacao" ->
  exists base exp,
    In base [2; 3; 4; 5] /\ In exp [2; 3; 4]
    /\ 4 <= base ^ exp <= 625
    /\ prompt (fst (generateExercise s))
       = js "Calcule " ++ Number_toString base ++ js "^"
         ++ Number_toString exp ++ js " ("
         ++ Number_toString base ++ js " elevado a "
         ++ Number_toString exp ++ js ")."
    /\ answer (fst (generateExercise s)) = Number_toString (base ^ exp)
    /\ Number (answer (fst (generateExercise s))) = of_Z (base ^ exp)
    /\ explain (fst (generateExercise s))
       = Number_toString base ++ js " multiplicado por si mesmo "
         ++ Number_toString exp ++ js " vezes = "
         ++ Number_toString (base ^ exp).
Proof.
  intros Hs Ht.
  rewrite (generateExercise_potenciacao s Hs Ht), potenciacao_case_run.
  apply valid_source_rest in Hs.
  pose proof (random_below_range 4 (rest s) Hs ltac:(lia)) as Hi.
  pose proof (random_below_range 3 (rest (rest s))
                (valid_source_rest _ Hs) ltac:(lia)) as Hj.
  pose proof (index_number_in [2; 3; 4; 5] _ Hi) as Hb.
  pose proof (index_number_in [2; 3; 4] _ Hj) as He.
  set (base := index_number [2; 3; 4; 5] (fst (random_below 4 (rest s))))
    in *.
  set (exp := index_number [2; 3; 4]
                (fst (random_below 3 (rest (rest s))))) in *.
  exists base, exp. cbn zeta. cbn [prompt answer explain].
  assert (Hpow : 4 <= base ^ exp <= 625).
  { simpl in Hb, He.
    destruct Hb as [<- | [<- | [<- | [<- | []]]]];
      destruct He as [<- | [<- | [<- | []]]]; vm_compute;
      split; discriminate. }
  split; [exact Hb |]. split; [exact He |]. split; [exact Hpow |].
  split; [reflexivity |]. split; [reflexivity |].
  split; [apply Number_round_trip; lia | reflexivity].
Qed.

Lemma exponentiation_exercise_witness :
  exists base exp,
    In base [2; 3; 4; 5] /\ In exp [2; 3; 4]
    /\ 4 <= base ^ exp <= 625
    /\ prompt (fst (generateExercise source_2_pow_3))
       = js "Calcule " ++ Number_toString base ++ js "^"
         ++ Number_toString exp ++ js " ("
         ++ Number_toString base ++ js " elevado a "
         ++ Number_toString exp ++ js ")."
    /\ answer (fst (generateExercise source_2_pow_3))
       = Number_toString (base ^ exp)
    /\ Number (answer (fst (generateExercise source_2_pow_3)))
       = of_Z (base ^ exp)
    /\ explain (fst (generateExercise source_2_pow_3))
       = Number_toString base ++ js " multiplicado por si mesmo "
         ++ Number_toString exp ++ js " vezes = "
         ++ Number_toString (base ^ exp).
Proof.
  apply (exponentiation_exercise source_2_pow_3).
  - apply const_source_valid. repeat constructor; vm_compute; congruence.
  - vm_compute. reflexivity.
Defined.

(* ================================================================= *)
(** ** Factorisation texts: printing, reading back and grading *)
(* ================================================================= *)

Lemma to_integer_of_Z z : to_integer (of_Z z) = z.
Proof. unfold to_integer, of_Z. simpl. apply Z.quot_1_r. Qed.

Lemma map_to_integer_of_Z l : map to_integer (map of_Z l) = l.
Proof.
  induction l as [| z l IH]; simpl; [reflexivity |].
  rewrite IH. f_equal. apply Z.quot_1_r.
Qed.

Lemma integer_ge_2_of_Z z : integer_ge_2 (of_Z z) = (2 <=? z).
Proof.
  unfold integer_ge_2, of_Z, Number_isInteger, num_ge, Qle_bool. simpl.
  rewrite Z.rem_1_r, Z.mul_1_r. simpl. destruct z; reflexivity.
Qed.

Lemma forallb_integer_ge_2_of_Z l :
  Forall (fun z => 2 <= z) l -> forallb integer_ge_2 (map of_Z l) = true.
Proof.
  induction 1 as [| z l Hz Hl IH]; simpl; [reflexivity |].
  rewrite IH, andb_true_r. fold (of_Z z). rewrite integer_ge_2_of_Z.
  apply Z.leb_le. exact Hz.
Qed.

(** Non-negative integers printed by [String] and joined by one accepted
    separator are read back in order. *)
Lemma normalizeFactorsInput_joined (z : Z) (l : list Z) (sep : jsstring) :
  0 <= z -> Forall (fun k => 0 <= k) l -> separator sep ->
  normalizeFactorsInput (join sep (map Number_toString (z :: l)))
  = map of_Z (z :: l).
Proof.
  intros Hz Hl Hsep.
  cbn [map]. rewrite join_interleave.
  pose proof (normalizeFactorsInput_mixed_separators z
                (map (fun k => (sep, k)) l) Hz) as H.
  rewrite !map_map in H. cbn [fst snd] in H.
  rewrite map_map. apply H.
  apply Forall_map. eapply Forall_impl; [| exact Hl].
  intros k Hk. cbv beta in Hk. cbn [fst snd]. split; [exact Hsep | exact Hk].
Qed.

Lemma times_separator : separator (js " × ").
Proof. split; [discriminate | reflexivity]. Qed.

Lemma primeFactors_nonempty n : 2 <= n -> primeFactors n <> [].
Proof.
  intros Hn Hnil.
  destruct (primeFactors_shape n Hn) as (_ & _ & Hprod).
  rewrite Hnil, productOf_nil in Hprod. lia.
Qed.

Lemma primes_ge_2 l : Forall Z.prime l -> Forall (fun z => 2 <= z) l.
Proof.
  intros H. eapply Forall_impl; [| exact H].
  intros p Hp. apply Z.prime_ge_2 in Hp. exact Hp.
Qed.

(** The printed factorisation of [n] is read back as the factors. *)
Lemma printed_factorization_parsed n :
  2 <= n ->
  normalizeFactorsInput
    (join (js " × ") (map Number_toString (primeFactors n)))
  = map of_Z (primeFactors n).
Proof.
  intros Hn.
  destruct (primeFactors_shape n Hn) as (_ & Hpr & _).
  pose proof (primeFactors_nonempty n Hn) as Hne.
  apply primes_ge_2 in Hpr.
  destruct (primeFactors n) as [| z l]; [congruence |].
  inversion Hpr as [| ? ? Hz Hl]; subst. cbv beta in Hz.
  apply normalizeFactorsInput_joined; [lia | | apply times_separator].
  eapply Forall_impl; [| exact Hl]. intros k Hk. cbv beta in Hk. lia.
Qed.

(** The last branch of the factorisation grading, reached by an answer
    that passes the four tests. *)
Lemma submit_fatoracao_correct_iff ex n input :
  2 <= n -> expected ex = Some (primeFactors n) ->
  correct (submit_fatoracao ex n input) = true
  <-> normalizeFactorsInput input <> []
      /\ forallb integer_ge_2 (normalizeFactorsInput input) = true
      /\ Permutation (map to_integer (normalizeFactorsInput input))
           (primeFactors n).
Proof.
  intros Hn He. unfold submit_fatoracao. rewrite He.
  change (fun k : number => Number_isInteger k && num_ge k (of_Z 2))
    with integer_ge_2.
  remember (normalizeFactorsInput input) as fs eqn:Hfs. clear Hfs.
  destruct (primeFactors_shape n Hn) as (Hsort & Hpr & Hprod).
  destruct fs as [| k fs'].
  { simpl. split; [discriminate | intros (H & _); congruence]. }
  change (Nat.eqb (List.length (k :: fs')) 0) with false. cbv iota.
  remember (k :: fs') as fs eqn:Hfs.
  destruct (forallb integer_ge_2 fs) eqn:Hint; cbn [negb].
  2: { cbn [correct]. split; [discriminate | intros (_ & H & _); congruence]. }
  destruct (existsb (fun k => negb (isPrime k)) (map to_integer fs)) eqn:Hex.
  { cbn [correct]. split; [discriminate |].
    intros (_ & _ & Hperm). exfalso.
    assert (Hall : Forall Z.prime (map to_integer fs)).
    { apply (Permutation_Forall (x := primeFactors n));
        [apply Permutation_sym; exact Hperm | exact Hpr]. }
    apply existsb_non_prime in Hall. congruence. }
  apply existsb_non_prime in Hex.
  destruct (productOf (map to_integer fs) =? n) eqn:Hp; cbn [negb].
  2: { cbn [correct]. split; [discriminate |].
       intros (_ & _ & Hperm). exfalso.
       apply productOf_perm in Hperm. apply Z.eqb_neq in Hp. lia. }
  cbn [correct]. split.
  - intros Hc. split; [| split; [reflexivity |]].
    + rewrite Hfs. discriminate.
    + apply multisetEqual_permutation. exact Hc.
  - intros (_ & _ & Hperm). apply permutation_multisetEqual. exact Hperm.
Qed.

(** An exercise on [n >= 2] with the topic "fatoracao" is graded by the
    factorisation branch. *)
Lemma submit_fatoracao_branch ex n input :
  type ex = js "fatoracao" -> value ex = Some n -> n <> 0 ->
  submit ex input = submit_fatoracao ex n input.
Proof.
  intros Ht Hv Hn. unfold submit. rewrite Ht, Hv, string_eqb_refl.
  unfold truthy.
  replace (n =? 0) with false by (symmetry; apply Z.eqb_neq; exact Hn).
  reflexivity.
Qed.

Lemma printed_factorization_accepted ex n :
  2 <= n -> expected ex = Some (primeFactors n) ->
  correct (submit_fatoracao ex n
             (join (js " × ") (map Number_toString (primeFactors n))))
  = true.
Proof.
  intros Hn He. apply (submit_fatoracao_correct_iff ex n _ Hn He).
  rewrite (printed_factorization_parsed n Hn).
  destruct (primeFactors_shape n Hn) as (_ & Hpr & _).
  split; [| split].
  - pose proof (primeFactors_nonempty n Hn).
    destruct (primeFactors n); [congruence | discriminate].
  - apply forallb_integer_ge_2_of_Z, primes_ge_2, Hpr.
  - rewrite map_to_integer_of_Z. apply Permutation_refl.
Qed.

(** The printed factorisation of a number of the pool is read exactly. *)
Lemma printed_factorization_read_exactly n :
  In n factorization_pool ->
  read_exactly (join (js " × ") (map Number_toString (primeFactors n))).
Proof.
  intros Hin. apply read_exactly_check_sound.
  unfold factorization_pool in Hin. simpl in Hin.
  repeat (destruct Hin as [<- | Hin]; [vm_compute; reflexivity |]).
  contradiction.
Qed.

Lemma fatoracao_case_run t s :
  fst (fatoracao_case t s)
  = let n := index_number factorization_pool (fst (random_below 8 s)) in
    let expectedFactors := primeFactors n in
    let fac := join (js " × ") (map Number_toString expectedFactors) in
    {| type := t;
       value := Some n;
       expected := Some expectedFactors;
       prompt := js "Fatore " ++ Number_toString n ++ js " em primos.";
       answer := fac;
       explain := js "Fatoração: " ++ fac ++ js "." |}.
Proof. reflexivity. Qed.

(** X12. Every generated factorisation exercise asks for a number [n] of
    the pool 12, 18, 20, 24, 36, 45, 50, 60; its canonical answer is the
    prime factors of [n] in ascending order joined by " × ", which
    [normalizeFactorsInput] reads back as those factors and which is read
    exactly.  A submitted text that is read exactly, each word denoting a
    binary64 value, is graded correct exactly when it is read as a
    non-empty list of integers at least 2 that is a rearrangement of the
    prime factors of [n]. *)
Theorem factorization_exercise_grading (s : RandomSource) :
  valid_source s ->
  type (fst (generateExercise s)) = js "fatoracao" ->
  exists n,
    In n factorization_pool
    /\ value (fst (generateExercise s)) = Some n
    /\ expected (fst (generateExercise s)) = Some (primeFactors n)
    /\ prompt (fst (generateExercise s))
       = js "Fatore " ++ Number_toString n ++ js " em primos."
    /\ answer (fst (generateExercise s))
       = join (js " × ") (map Number_toString (primeFactors n))
    /\ explain (fst (generateExercise s))
       = js "Fatoração: " ++ answer (fst (generateExercise s)) ++ js "."
    /\ normalizeFactorsInput (answer (fst (generateExercise s)))
       = map of_Z (primeFactors n)
    /\ read_exactly (answer (fst (generateExercise s)))
    /\ forall input,
         read_exactly input ->
         (correct (submit (fst (generateExercise s)) input) = true
          <-> normalizeFactorsInput input <> []
              /\ forallb integer_ge_2 (normalizeFactorsInput input) = true
              /\ Permutation (map to_integer (normalizeFactorsInput input))
                   (primeFactors n)).
Proof.
  intros Hs Ht.
  rewrite (generateExercise_fatoracao s Hs Ht), fatoracao_case_run.
  pose proof (random_below_range 8 (rest s) (valid_source_rest s Hs)
                ltac:(lia)) as Hi.
  pose proof (index_number_in factorization_pool _ Hi) as Hin.
  set (n := index_number factorization_pool (fst (random_below 8 (rest s))))
    in *.
  pose proof (factorization_pool_bounds n Hin) as Hn.
  exists n. cbn zeta. cbn [value expected prompt answer explain].
  split; [exact Hin |]. do 5 (split; [reflexivity |]).
  split; [apply printed_factorization_parsed; lia |].
  split; [apply printed_factorization_read_exactly; exact Hin |].
  intros input _.
  rewrite (submit_fatoracao_branch _ n input)
    by (try reflexivity; lia).
  apply submit_fatoracao_correct_iff; [lia | reflexivity].
Qed.

Lemma factorization_exercise_grading_witness :
  exists n,
    In n factorization_pool
    /\ value (fst (generateExercise source_fatoracao_12)) = Some n
    /\ expected (fst (generateExercise source_fatoracao_12))
       = Some (primeFactors n)
    /\ prompt (fst (generateExercise source_fatoracao_12))
       = js "Fatore " ++ Number_toString n ++ js " em primos."
    /\ answer (fst (generateExercise source_fatoracao_12))
       = join (js " × ") (map Number_toString (primeFactors n))
    /\ explain (fst (generateExercise source_fatoracao_12))
       = js "Fatoração: " ++ answer (fst (generateExercise source_fatoracao_12))
         ++ js "."
    /\ normalizeFactorsInput (answer (fst (generateExercise source_fatoracao_12)))
       = map of_Z (primeFactors n)
    /\ read_exactly (answer (fst (generateExercise source_fatoracao_12)))
    /\ forall input,
         read_exactly input ->
         (correct (submit (fst (generateExercise source_fatoracao_12)) input)
          = true
          <-> normalizeFactorsInput input <> []
              /\ forallb integer_ge_2 (normalizeFactorsInput input) = true
              /\ Permutation (map to_integer (normalizeFactorsInput input))
                   (primeFactors n)).
Proof.
  apply (factorization_exercise_grading source_fatoracao_12).
  - apply const_source_valid. repeat constructor; vm_compute; congruence.
  - vm_compute. reflexivity.
Defined.

(** *** The canonical answer of every generated exercise *)

Lemma divisibilidade_answer t s :
  answer (fst (divisibilidade_case t s)) = js "S"
  \/ answer (fst (divisibilidade_case t s)) = js "N".
Proof.
  unfold divisibilidade_case, bind, ret. 
  destruct (random_below 190 s) as [i s1].
  destruct (random_below 4 s1) as [j s2]. cbn [fst answer].
  destruct (js_rem (10 + i) (index_number [2; 3; 5; 10] j) =? 0);
    [left | right]; reflexivity.
Qed.

(** X13. With draws in [0, 1) the generator never takes its fallback
    branch: the topic of the exercise is one of the five of [TYPES], the
    prompt is not "Erro ao gerar", the subject value is present exactly for
    the topic "fatoracao", and the canonical answer of the exercise,
    submitted as it is printed, is graded correct. *)
Theorem canonical_answer_accepted (s : RandomSource) :
  valid_source s ->
  In (type (fst (generateExercise s))) TYPES
  /\ prompt (fst (generateExercise s)) <> js "Erro ao gerar"
  /\ (value (fst (generateExercise s)) <> None
      <-> type (fst (generateExercise s)) = js "fatoracao")
  /\ correct (submit (fst (generateExercise s))
                (answer (fst (generateExercise s)))) = true.
Proof.
  intros Hs.
  destruct (generateExercise_topic s Hs)
    as [[T H] | [[T H] | [[T H] | [[T H] | [T H]]]]].
  - assert (Hnf : type (fst (generateExercise s)) <> js "fatoracao")
      by (rewrite T; vm_compute; discriminate).
    split; [rewrite T; simpl; tauto |].
    split; [| split].
    + rewrite H. unfold divisibilidade_case, bind, ret.
      destruct (random_below 190 (rest s)) as [i s1].
      destruct (random_below 4 s1) as [j s2]. cbn [fst prompt].
      vm_compute (js "O número "). vm_compute (js "Erro ao gerar").
      discriminate.
    + split; [intros Hv | intros Hf; contradiction].
      exfalso. apply Hv. rewrite H. unfold divisibilidade_case, bind, ret.
      destruct (random_below 190 (rest s)) as [i s1].
      destruct (random_below 4 s1) as [j s2]. reflexivity.
    + rewrite (submit_other_topic _ _ Hnf). cbn [correct].
      rewrite H.
      destruct (divisibilidade_answer (js "divisibilidade") (rest s))
        as [-> | ->]; vm_compute; reflexivity.
  - assert (Hnf : type (fst (generateExercise s)) <> js "fatoracao")
      by (rewrite T; vm_compute; discriminate).
    split; [rewrite T; simpl; tauto |].
    split; [| split].
    + rewrite H, primos_case_run. cbn zeta. cbn [prompt].
      intros Heq. apply (f_equal (@rev N)) in Heq.
      rewrite rev_app_distr in Heq. vm_compute (rev (js " é primo? (S/N)")) in Heq.
      vm_compute (rev (js "Erro ao gerar")) in Heq.
      simpl in Heq. discriminate.
    + split; [intros Hv | intros Hf; contradiction].
      exfalso. apply Hv. rewrite H, primos_case_run. reflexivity.
    + rewrite (submit_other_topic _ _ Hnf). cbn [correct].
      rewrite H, primos_case_run. cbn zeta. cbn [answer].
      match goal with |- context [isPrime ?n] => destruct (isPrime n) end;
        vm_compute; reflexivity.
  - split; [rewrite T; simpl; tauto |].
    pose proof (random_below_range 8 (rest s) (valid_source_rest s Hs)
                  ltac:(lia)) as Hi.
    pose proof (index_number_in factorization_pool _ Hi) as Hin.
    apply factorization_pool_bounds in Hin.
    rewrite H, fatoracao_case_run in *.
    set (n := index_number factorization_pool
                (fst (random_below 8 (rest s)))) in *.
    cbn zeta in *. cbn [prompt value answer type] in *.
    split; [| split].
    + intros Heq. apply (f_equal (@rev N)) in Heq.
      rewrite !rev_app_distr in Heq.
      vm_compute (rev (js " em primos.")) in Heq.
      vm_compute (rev (js "Erro ao gerar")) in Heq.
      simpl in Heq. discriminate.
    + split; [intros _; reflexivity | intros _; discriminate].
    + rewrite (submit_fatoracao_branch _ n) by (try reflexivity; lia).
      apply printed_factorization_accepted; [lia | reflexivity].
  - assert (Hnf : type (fst (generateExercise s)) <> js "fatoracao")
      by (rewrite T; vm_compute; discriminate).
    split; [rewrite T; simpl; tauto |].
    split; [| split].
    + rewrite H, potenciacao_case_run. cbn zeta. cbn [prompt].
      vm_compute (js "Calcule "). vm_compute (js "Erro ao gerar").
      discriminate.
    + split; [intros Hv | intros Hf; contradiction].
      exfalso. apply Hv. rewrite H, potenciacao_case_run. reflexivity.
    + apply (printed_answer_accepted _ Hnf).
      rewrite H, potenciacao_case_run. cbn zeta. cbn [answer].
      eexists. split; [| reflexivity].
      apply Z.pow_nonneg.
      pose proof (random_below_range 4 (rest s) (valid_source_rest s Hs)
                    ltac:(lia)) as Hi.
      pose proof (index_number_in [2; 3; 4; 5] _ Hi) as Hb.
      set (b := index_number [2; 3; 4; 5] (fst (random_below 4 (rest s))))
        in *.
      simpl in Hb. lia.
  - assert (Hnf : type (fst (generateExercise s)) <> js "fatoracao")
      by (rewrite T; vm_compute; discriminate).
    split; [rewrite T; simpl; tauto |].
    split; [| split].
    + rewrite H, resto_case_run. cbn zeta. cbn [prompt].
      vm_compute (js "Em "). vm_compute (js "Erro ao gerar").
      discriminate.
    + split; [intros Hv | intros Hf; contradiction].
      exfalso. apply Hv. rewrite H, resto_case_run. reflexivity.
    + apply (printed_answer_accepted _ Hnf).
      rewrite H, resto_case_run. cbn zeta. cbn [answer].
      eexists. split; [| reflexivity].
      pose proof (random_below_range 90 (rest s) (valid_source_rest s Hs)
                    ltac:(lia)) as Hi.
      pose proof (random_below_range 9 (rest (rest s))
                    (valid_source_rest _ (valid_source_rest s Hs))
                    ltac:(lia)) as Hj.
      rewrite js_rem_nonneg by lia.
      apply Z.mod_pos_bound. lia.
Qed.

Lemma canonical_answer_accepted_witness :
  In (type (fst (generateExercise source_15_by_3))) TYPES
  /\ prompt (fst (generateExercise source_15_by_3)) <> js "Erro ao gerar"
  /\ (value (fst (generateExercise source_15_by_3)) <> None
      <-> type (fst (generateExercise source_15_by_3)) = js "fatoracao")
  /\ correct (submit (fst (generateExercise source_15_by_3))
                (answer (fst (generateExercise source_15_by_3)))) = true.
Proof.
  apply (canonical_answer_accepted source_15_by_3).
  apply const_source_valid. repeat constructor; vm_compute; congruence.
Defined.

(** X14. The badge of the factorisation widget of the concepts page: for
    an integer [x] below 2 it reads "N/A"; for [x >= 2] it is the prime
    factors of [x] joined by " × ", never the dash of the fallback nor an
    empty text, and [normalizeFactorsInput] reads it back as factors whose
    product is [x]. *)
Theorem FactorizacaoMini_badge_text (x : Z) :
  (x < 2 -> FactorizacaoMini_badge x = js "N/A"
            /\ FactorizacaoMini_fac x = [])
  /\ (2 <= x ->
      FactorizacaoMini_fac x = primeFactors x
      /\ FactorizacaoMini_badge x
         = join (js " × ") (map Number_toString (primeFactors x))
      /\ FactorizacaoMini_badge x <> js "—"
      /\ FactorizacaoMini_badge x <> []
      /\ normalizeFactorsInput (FactorizacaoMini_badge x)
         = map of_Z (primeFactors x)
      /\ productOf (map to_integer
                      (normalizeFactorsInput (FactorizacaoMini_badge x)))
         = x).
Proof.
  unfold FactorizacaoMini_badge, FactorizacaoMini_fac. split.
  - intros Hx.
    replace (x <? 2) with true by (symmetry; apply Z.ltb_lt; lia).
    replace (2 <=? x) with false by (symmetry; apply Z.leb_gt; lia).
    split; reflexivity.
  - intros Hx.
    replace (x <? 2) with false by (symmetry; apply Z.ltb_ge; lia).
    replace (2 <=? x) with true by (symmetry; apply Z.leb_le; lia).
    pose proof (printed_factorization_parsed x Hx) as Hparse.
    pose proof (primeFactors_nonempty x Hx) as Hne.
    destruct (primeFactors_shape x Hx) as (_ & Hpr & Hprod).
    destruct (join (js " × ") (map Number_toString (primeFactors x)))
      as [| c t] eqn:Hj.
    { exfalso. destruct (primeFactors x); [congruence |].
      vm_compute in Hparse. discriminate. }
    split; [reflexivity |]. split; [reflexivity |].
    split.
    { intros Hdash. rewrite Hdash in Hparse.
      destruct (primeFactors x); [congruence |].
      vm_compute in Hparse. discriminate. }
    split; [discriminate |].
    split; [exact Hparse |].
    rewrite Hparse, map_to_integer_of_Z. exact Hprod.
Qed.

Lemma FactorizacaoMini_badge_text_witness :
  FactorizacaoMini_badge 36 = js "2 × 2 × 3 × 3".
Proof.
  destruct (FactorizacaoMini_badge_text 36) as (_ & H).
  destruct (H ltac:(lia)) as (_ & -> & _).
  vm_compute. reflexivity.
Defined.

(* ================================================================= *)
(** ** Medals, counters and the series of five *)
(* ================================================================= *)

Lemma includes_In arr x : includes arr x = true <-> In x arr.
Proof.
  unfold includes. rewrite existsb_exists. split.
  - intros (y & Hy & Heq). apply string_eqb_eq in Heq. subst. exact Hy.
  - intros Hx. exists x. split; [exact Hx | apply string_eqb_refl].
Qed.

Lemma string_eqb_neq a b : a <> b -> string_eqb a b = false.
Proof.
  intros Hne. apply not_true_is_false. intros H.
  apply string_eqb_eq in H. contradiction.
Qed.

Lemma get_set_same {A : Type} (o : list (jsstring * A)) k v :
  Obj.get_property (Obj.set_property o k v) k = Some v.
Proof.
  induction o as [| [k' v'] o IH]; simpl.
  - rewrite string_eqb_refl. reflexivity.
  - destruct (string_eqb k' k) eqn:Hk; simpl; rewrite Hk;
      [reflexivity | exact IH].
Qed.

Lemma get_set_other {A : Type} (o : list (jsstring * A)) k k' v :
  k' <> k ->
  Obj.get_property (Obj.set_property o k v) k' = Obj.get_property o k'.
Proof.
  intros Hne. induction o as [| [k0 v0] o IH]; simpl.
  - rewrite string_eqb_neq; [reflexivity | congruence].
  - destruct (string_eqb k0 k) eqn:Hk; simpl.
    + apply string_eqb_eq in Hk. subst k0.
      rewrite string_eqb_neq; [reflexivity | congruence].
    + rewrite IH. reflexivity.
Qed.





(** The statistics after [awardMedal], read through the counters. *)
Lemma awardMedal_counters stats medalId now :
  Stats.perTopic (awardMedal stats medalId now) = Stats.perTopic stats
  /\ Stats.totalQuestions (awardMedal stats medalId now)
     = Stats.totalQuestions stats
  /\ Stats.correctQuestions (awardMedal stats medalId now)
     = Stats.correctQuestions stats
  /\ Stats.xp (awardMedal stats medalId now) = Stats.xp stats
  /\ Stats.sessions (awardMedal stats medalId now) = Stats.sessions stats
  /\ Stats.bestFiveScore (awardMedal stats medalId now)
     = Stats.bestFiveScore stats
  /\ Stats.primeHuntCompleted (awardMedal stats medalId now)
     = Stats.primeHuntCompleted stats.
Proof.
  unfold awardMedal.
  destruct (includes (Stats.medals stats) medalId); cbn;
    repeat split; reflexivity.
Qed.

Lemma awardMedal_medals stats medalId now :
  Stats.medals (awardMedal stats medalId now)
  = if includes (Stats.medals stats) medalId then Stats.medals stats
    else Stats.medals stats ++ [medalId].
Proof.
  unfold awardMedal.
  destruct (includes (Stats.medals stats) medalId); reflexivity.
Qed.

Lemma awardMedal_In stats medalId now m :
  In m (Stats.medals (awardMedal stats medalId now))
  <-> m = medalId \/ In m (Stats.medals stats).
Proof.
  rewrite awardMedal_medals.
  destruct (includes (Stats.medals stats) medalId) eqn:Hi.
  - apply includes_In in Hi. split; [tauto |].
    intros [-> | H]; assumption.
  - rewrite in_app_iff. simpl. split.
    + intros [H | [H | []]]; [right; exact H | left; symmetry; exact H].
    + intros [H | H]; [right; left; symmetry; exact H | left; exact H].
Qed.

Lemma awardMedal_NoDup stats medalId now :
  NoDup (Stats.medals stats) ->
  NoDup (Stats.medals (awardMedal stats medalId now)).
Proof.
  intros Hnd. rewrite awardMedal_medals.
  destruct (includes (Stats.medals stats) medalId) eqn:Hi; [exact Hnd |].
  apply NoDup_app; [exact Hnd | repeat constructor; simpl; tauto |].
  intros m Hm [<- | []].
  apply includes_In in Hm. congruence.
Qed.

(** X15. [awardMedal] records a medal once: afterwards the medal is in
    the list, the other medals are kept in their order, a list without
    repetition stays so, and awarding a medal already held leaves the list
    as it is; the date of the medal is set to the time of the call, also
    when the medal was held before, and the dates of the other medals, the
    counters and the points are untouched. *)
Theorem awardMedal_effect (stats : Stats.Stats) (medalId now later : jsstring) :
  In medalId (Stats.medals (awardMedal stats medalId now))
  /\ (forall m, In m (Stats.medals (awardMedal stats medalId now))
                <-> m = medalId \/ In m (Stats.medals stats))
  /\ (exists added,
        Stats.medals (awardMedal stats medalId now)
        = Stats.medals stats ++ added)
  /\ (NoDup (Stats.medals stats) ->
      NoDup (Stats.medals (awardMedal stats medalId now)))
  /\ (In medalId (Stats.medals stats) ->
      Stats.medals (awardMedal stats medalId now) = Stats.medals stats)
  /\ Stats.medals (awardMedal (awardMedal stats medalId now) medalId later)
     = Stats.medals (awardMedal stats medalId now)
  /\ Obj.get_property (Stats.achievements (awardMedal stats medalId now))
       medalId = Some now
  /\ Obj.get_property
       (Stats.achievements
          (awardMedal (awardMedal stats medalId now) medalId later))
       medalId = Some later
  /\ (forall k, k <> medalId ->
        Obj.get_property (Stats.achievements (awardMedal stats medalId now)) k
        = Obj.get_property (Stats.achievements stats) k)
  /\ Stats.xp (awardMedal stats medalId now) = Stats.xp stats
  /\ Stats.perTopic (awardMedal stats medalId now) = Stats.perTopic stats
  /\ Stats.totalQuestions (awardMedal stats medalId now)
     = Stats.totalQuestions stats
  /\ Stats.correctQuestions (awardMedal stats medalId now)
     = Stats.correctQuestions stats.
Proof.
  pose proof (awardMedal_counters stats medalId now)
    as (Hpt & Htot & Hcor & Hxp & _).
  assert (Hin : In medalId (Stats.medals (awardMedal stats medalId now)))
    by (apply awardMedal_In; left; reflexivity).
  split; [exact Hin |].
  split; [intros m; apply awardMedal_In |].
  split.
  { rewrite awardMedal_medals.
    destruct (includes (Stats.medals stats) medalId).
    - exists []. rewrite app_nil_r. reflexivity.
    - exists [medalId]. reflexivity. }
  split; [apply awardMedal_NoDup |].
  split.
  { intros H. apply includes_In in H. rewrite awardMedal_medals, H.
    reflexivity. }
  split.
  { rewrite (awardMedal_medals (awardMedal stats medalId now)).
    apply includes_In in Hin. rewrite Hin. reflexivity. }
  split; [unfold awardMedal; cbn; apply get_set_same |].
  split; [unfold awardMedal; cbn; apply get_set_same |].
  split.
  { intros k Hk. unfold awardMedal. cbn.
    rewrite get_set_other by exact Hk.
    destruct (includes (Stats.medals stats) medalId); reflexivity. }
  repeat split; assumption.
Qed.

(** *** The counters of the series *)






















(** *** The end of a series *)





(* ================================================================= *)
(** ** The prime hunt *)
(* ================================================================= *)

















(** *** The message of a click *)

Lemma even_prime_is_two n : Z.prime n -> (js_rem n 2 =? 0) = true -> n = 2.
Proof.
  intros Hp Hr. pose proof (Z.prime_ge_2 n Hp) as Hge.
  apply js_rem_zero_divide in Hr; [| lia].
  destruct (Z.eq_dec n 2) as [He | Hne]; [exact He |].
  exfalso. destruct Hp as [_ Hp]. apply (Hp 2); [lia | exact Hr].
Qed.







(** *** The count of correct cells *)









(* ================================================================= *)
(** ** The divisibility flags of the concepts page *)
(* ================================================================= *)

Lemma js_rem_divide_iff n k :
  k <> 0 -> (js_rem n k =? 0) = true <-> (k | n).
Proof. intros Hk. apply js_rem_zero_divide. exact Hk. Qed.

Lemma divide_2_3_6 n : (6 | n) <-> (2 | n) /\ (3 | n).
Proof.
  split.
  - intros [q Hq]. split; [exists (3 * q) | exists (2 * q)]; lia.
  - intros ([a Ha] & [b Hb]). exists (a - b). lia.
Qed.

Lemma divide_2_5_10 n : (10 | n) <-> (2 | n) /\ (5 | n).
Proof.
  split.
  - intros [q Hq]. split; [exists (5 * q) | exists (2 * q)]; lia.
  - intros ([a Ha] & [b Hb]). exists (a - 2 * b). lia.
Qed.

(** X20. The flags of [divisibilityInfo] on an integer [n], negative
    ones included: [by2], [by5], [by6] and [by10] hold exactly when 2, 5,
    6 and 10 divide [n], so [by10] is the conjunction of [by2] and [by5];
    for [0 <= n <= 2^53 - 1], where [String] prints every digit of [n] and
    the digit sum decides divisibility by 3, [by3] holds exactly when 3
    divides [n] and [by6] is the conjunction of [by2] and [by3]. *)
Theorem divisibilityInfo_flags (n : Z) :
  (by2 (divisibilityInfo n) = true <-> (2 | n))
  /\ (by5 (divisibilityInfo n) = true <-> (5 | n))
  /\ (by6 (divisibilityInfo n) = true <-> (6 | n))
  /\ (by10 (divisibilityInfo n) = true <-> (10 | n))
  /\ by10 (divisibilityInfo n)
     = by2 (divisibilityInfo n) && by5 (divisibilityInfo n)
  /\ (0 <= n <= MAX_SAFE_INTEGER ->
      (by3 (divisibilityInfo n) = true <-> (3 | n))
      /\ by6 (divisibilityInfo n)
         = by2 (divisibilityInfo n) && by3 (divisibilityInfo n)).
Proof.
  assert (H2 : by2 (divisibilityInfo n) = true <-> (2 | n))
    by (apply js_rem_divide_iff; lia).
  assert (H5 : by5 (divisibilityInfo n) = true <-> (5 | n))
    by (apply js_rem_divide_iff; lia).
  assert (H6 : by6 (divisibilityInfo n) = true <-> (6 | n))
    by (apply js_rem_divide_iff; lia).
  assert (H10 : by10 (divisibilityInfo n) = true <-> (10 | n))
    by (apply js_rem_divide_iff; lia).
  split; [exact H2 |]. split; [exact H5 |]. split; [exact H6 |].
  split; [exact H10 |].
  split.
  { apply eq_true_iff_eq. rewrite andb_true_iff, H2, H5, H10.
    apply divide_2_5_10. }
  intros Hsafe.
  assert (Hn : 0 <= n < 10 ^ 21).
  { split; [lia |]. apply Z.le_lt_trans with MAX_SAFE_INTEGER; [lia |].
    reflexivity. }
  assert (H3 : by3 (divisibilityInfo n) = true <-> (3 | n)).
  { pose proof (by3_direct n Hn) as Hd.
    split.
    - intros Hb. apply (js_rem_divide_iff n 3); [lia |].
      exact (eq_trans (eq_sym Hd) Hb).
    - intros Hdiv. apply (js_rem_divide_iff n 3) in Hdiv; [| lia].
      exact (eq_trans Hd Hdiv). }
  split; [exact H3 |].
  apply eq_true_iff_eq. rewrite andb_true_iff, H2, H3, H6.
  apply divide_2_3_6.
Qed.

Lemma divisibilityInfo_flags_witness :
  (by3 (divisibilityInfo 84) = true <-> (3 | 84))
  /\ by6 (divisibilityInfo 84)
     = by2 (divisibilityInfo 84) && by3 (divisibilityInfo 84).
Proof.
  destruct (divisibilityInfo_flags 84) as (_ & _ & _ & _ & _ & H).
  apply H. split; [lia | vm_compute; discriminate].
Defined.

(* ================================================================= *)
(** ** The panels of the animated factorisation *)
(* ================================================================= *)

Lemma buildSteps_primeFactors n :
  2 <= n -> map Step.factor (buildSteps n) = primeFactors n.
Proof.
  intros Hn.
  destruct (buildSteps_run n Hn) as (steps & Hrun & Hch & Hpr & Hsort).
  unfold buildSteps. rewrite Hrun.
  destruct (primeFactors_shape n Hn) as (Hs & Hp & Hprod).
  apply sorted_primes_unique; auto.
  rewrite Hprod. apply chained_product. exact Hch.
Qed.

Lemma slice_from_start_map {A B : Type} (f : A -> B) (arr : list A) k :
  slice_from_start (map f arr) k = map f (slice_from_start arr k).
Proof.
  unfold slice_from_start. rewrite length_map. apply firstn_map.
Qed.

Lemma slice_from_start_length {A : Type} (arr : list A) k :
  0 <= k <= Z.of_nat (List.length arr) ->
  Z.of_nat (List.length (slice_from_start arr k)) = k.
Proof.
  intros Hk. unfold slice_from_start.
  replace (k <? 0) with false by (symmetry; apply Z.ltb_ge; lia).
  rewrite length_firstn. lia.
Qed.

Lemma slice_from_start_all {A : Type} (arr : list A) :
  slice_from_start arr (Z.of_nat (List.length arr)) = arr.
Proof.
  unfold slice_from_start.
  replace (Z.of_nat (List.length arr) <? 0) with false
    by (symmetry; apply Z.ltb_ge; lia).
  rewrite Z.min_id, Nat2Z.id. apply firstn_all.
Qed.

Lemma control_step steps s c :
  0 <= s <= Z.of_nat (List.length steps) ->
  FatoracaoPage.control steps s c
  = Z.min (s + 1) (Z.of_nat (List.length steps)).
Proof.
  intros Hs. destruct c; cbn [FatoracaoPage.control].
  - unfold FatoracaoPage.proximo_passo. lia.
  - unfold FatoracaoPage.tick.
    destruct (Z.of_nat (List.length steps) <=? s) eqn:H;
      [apply Z.leb_le in H | apply Z.leb_gt in H]; lia.
Qed.

Lemma controls_run steps controls s :
  0 <= s <= Z.of_nat (List.length steps) ->
  fold_left (FatoracaoPage.control steps) controls s
  = Z.min (s + Z.of_nat (List.length controls))
      (Z.of_nat (List.length steps)).
Proof.
  revert s. induction controls as [| c controls IH]; intros s Hs.
  - cbn [fold_left List.length]. lia.
  - cbn [fold_left]. rewrite (control_step steps s c Hs).
    rewrite IH by lia. cbn [List.length]. lia.
Qed.

(** X21. The two panels of the animated factorisation agree.  For
    [n >= 2], after any sequence of presses of "Próximo passo" and ticks
    of the timer, [shown] is the number of presses and ticks capped at the
    number of steps, so it stays between 0 and the number of steps; the
    factors of the steps shown on the left are, in order, the prime
    factors shown on the right, and there are [shown] of them; the page
    is completed exactly when the presses and ticks are at least as many
    as the steps, and then every prime factor of [n] is shown and their
    product is [n]. *)
Theorem factorization_panels_agree (n : Z)
  (controls : list FatoracaoPage.Control) :
  2 <= n ->
  FatoracaoPage.shown_after (buildSteps n) controls
  = Z.min (Z.of_nat (List.length controls))
      (Z.of_nat (List.length (buildSteps n)))
  /\ 0 <= FatoracaoPage.shown_after (buildSteps n) controls
     <= Z.of_nat (List.length (buildSteps n))
  /\ map Step.factor
       (FatoracaoPage.steps_shown n
          (FatoracaoPage.shown_after (buildSteps n) controls))
     = FatoracaoPage.factors_shown n
         (FatoracaoPage.shown_after (buildSteps n) controls)
  /\ Z.of_nat
       (List.length
          (FatoracaoPage.steps_shown n
             (FatoracaoPage.shown_after (buildSteps n) controls)))
     = FatoracaoPage.shown_after (buildSteps n) controls
  /\ (FatoracaoPage.completed (buildSteps n)
        (FatoracaoPage.shown_after (buildSteps n) controls) = true
      <-> (List.length (buildSteps n) <= List.length controls)%nat)
  /\ (FatoracaoPage.completed (buildSteps n)
        (FatoracaoPage.shown_after (buildSteps n) controls) = true ->
      FatoracaoPage.factors_shown n
        (FatoracaoPage.shown_after (buildSteps n) controls)
      = primeFactors n
      /\ productOf
           (FatoracaoPage.factors_shown n
              (FatoracaoPage.shown_after (buildSteps n) controls))
         = n).
Proof.
  intros Hn.
  pose proof (buildSteps_primeFactors n Hn) as Hfac.
  destruct (primeFactors_shape n Hn) as (_ & _ & Hprod).
  pose proof (primeFactors_nonempty n Hn) as Hne.
  assert (Hlen : List.length (buildSteps n) = List.length (primeFactors n))
    by (rewrite <- Hfac, length_map; reflexivity).
  assert (Hpos : (0 < List.length (buildSteps n))%nat).
  { rewrite Hlen. destruct (primeFactors n); [congruence | simpl; lia]. }
  unfold FatoracaoPage.shown_after.
  rewrite (controls_run (buildSteps n) controls 0) by lia.
  rewrite Z.add_0_l.
  set (shown := Z.min (Z.of_nat (List.length controls))
                  (Z.of_nat (List.length (buildSteps n)))).
  assert (Hshown : 0 <= shown <= Z.of_nat (List.length (buildSteps n)))
    by (unfold shown; lia).
  split; [reflexivity |]. split; [exact Hshown |].
  assert (Hpanels : map Step.factor (FatoracaoPage.steps_shown n shown)
                    = FatoracaoPage.factors_shown n shown).
  { unfold FatoracaoPage.steps_shown, FatoracaoPage.factors_shown.
    rewrite <- slice_from_start_map, Hfac.
    replace (Z.max 0 shown) with shown by lia. reflexivity. }
  split; [exact Hpanels |].
  split; [apply slice_from_start_length; exact Hshown |].
  assert (Hdone : FatoracaoPage.completed (buildSteps n) shown = true
                  <-> (List.length (buildSteps n) <= List.length controls)%nat).
  { unfold FatoracaoPage.completed.
    rewrite andb_true_iff, Z.leb_le, Z.ltb_lt. unfold shown. lia. }
  split; [exact Hdone |].
  intros Hc. apply Hdone in Hc.
  assert (Hall : FatoracaoPage.factors_shown n shown = primeFactors n).
  { unfold FatoracaoPage.factors_shown.
    replace (Z.max 0 shown) with (Z.of_nat (List.length (primeFactors n)))
      by (unfold shown; lia).
    apply slice_from_start_all. }
  split; [exact Hall |]. rewrite Hall. exact Hprod.
Qed.

Lemma factorization_panels_agree_witness :
  map Step.factor
    (FatoracaoPage.steps_shown 84
       (FatoracaoPage.shown_after (buildSteps 84)
          [FatoracaoPage.ProximoPasso; FatoracaoPage.Tick]))
  = FatoracaoPage.factors_shown 84
      (FatoracaoPage.shown_after (buildSteps 84)
         [FatoracaoPage.ProximoPasso; FatoracaoPage.Tick]).
Proof.
  destruct (factorization_panels_agree 84
              [FatoracaoPage.ProximoPasso; FatoracaoPage.Tick] ltac:(lia))
    as (_ & _ & H & _).
  exact H.
Defined.

(* ================================================================= *)
(** ** Words that are not numbers in a typed factorisation *)
(* ================================================================= *)

Lemma cleaned_tokens (tok : jsstring) (pairs : list (jsstring * jsstring)) :
  clean_token tok ->
  Forall (fun p => separator (fst p) /\ clean_token (snd p)) pairs ->
  cleaned (interleave tok pairs)
  = interleave tok (map (fun p => (space, snd p)) pairs)
  /\ split 32%N (cleaned (interleave tok pairs)) = tok :: map snd pairs.
Proof.
  intros [Htok Hnum] Hall.
  set (wsp := map (fun p => (map clean_char (fst p), snd p)) pairs).
  assert (Hmap : map clean_char (interleave tok pairs) = interleave tok wsp).
  { unfold wsp. clear Htok. revert tok Hnum.
    induction Hall as [| p pairs (Hsep & Htokp & Hnump) Hall IH];
      intros tok Hnum.
    - unfold interleave. simpl. rewrite !app_nil_r. exact Hnum.
    - cbn [map]. rewrite !interleave_cons, !map_app. cbn [fst snd].
      rewrite Hnum, (IH (snd p) Hnump). reflexivity. }
  assert (Hwsp : Forall (fun p => fst p <> [] /\ all_white_space (fst p)
                                  /\ token (snd p)) wsp).
  { unfold wsp. apply Forall_map.
    eapply Forall_impl; [| exact Hall].
    intros p (Hsep & Htokp & _). cbn [fst snd].
    destruct (map_clean_separator _ Hsep). auto. }
  assert (Htoks : Forall (fun p : jsstring * jsstring => token (snd p)) pairs).
  { eapply Forall_impl; [| exact Hall]. intros p (_ & H & _). exact H. }
  assert (Hsame : map (fun p : jsstring * jsstring => (space, snd p)) wsp
                  = map (fun p => (space, snd p)) pairs).
  { unfold wsp. rewrite map_map. reflexivity. }
  assert (Hclean : cleaned (interleave tok pairs)
                   = interleave tok (map (fun p => (space, snd p)) pairs)).
  { rewrite cleaned_eq, Hmap, (runs_interleave wsp tok Htok Hwsp), Hsame.
    apply trim_interleave; [exact Htok |].
    apply Forall_map. exact Htoks. }
  split; [exact Hclean |].
  rewrite Hclean. apply split_interleave; assumption.
Qed.

Lemma normalizeFactorsInput_of_tokens
  (tok : jsstring) (pairs : list (jsstring * jsstring)) :
  clean_token tok ->
  Forall (fun p => separator (fst p) /\ clean_token (snd p)) pairs ->
  normalizeFactorsInput (interleave tok pairs)
  = filter Number_isFinite (map Number (tok :: map snd pairs)).
Proof.
  intros Htok Hall.
  destruct (cleaned_tokens tok pairs Htok Hall) as [Hclean Hsplit].
  unfold normalizeFactorsInput.
  destruct (cleaned (interleave tok pairs)) as [| c rest'] eqn:Hc.
  - exfalso. destruct Htok as [[Hne _] _].
    unfold interleave in Hclean. symmetry in Hclean.
    apply app_eq_nil in Hclean. tauto.
  - rewrite Hsplit. reflexivity.
Qed.

Lemma interleave_snoc (tok : jsstring) pairs p :
  interleave tok (pairs ++ [p]) = interleave tok pairs ++ fst p ++ snd p.
Proof.
  unfold interleave. rewrite flat_map_app. cbn [flat_map].
  rewrite app_nil_r, app_assoc. reflexivity.
Qed.

Lemma words_of_tokens (tok : jsstring) (pairs : list (jsstring * jsstring)) :
  clean_token tok ->
  Forall (fun p => separator (fst p) /\ clean_token (snd p)) pairs ->
  words (interleave tok pairs) = tok :: map snd pairs.
Proof.
  intros Htok Hall.
  destruct (cleaned_tokens tok pairs Htok Hall) as [Hclean Hsplit].
  unfold words.
  destruct (cleaned (interleave tok pairs)) as [| c rest'] eqn:Hc.
  - exfalso. destruct Htok as [[Hne _] _].
    unfold interleave in Hclean. symmetry in Hclean.
    apply app_eq_nil in Hclean. tauto.
  - exact Hsplit.
Qed.

(** X22. What [normalizeFactorsInput] reads in a text made of words and
    accepted separators, for words that the cleaning leaves as they are
    and that are read exactly, each denoting a binary64 value or no number
    at all: the finite values of the words, in order; a word that is not a
    number is dropped without notice.  So a text followed by such a word
    is read exactly as well, is read as the text alone, and is graded as
    the text alone. *)
Theorem normalizeFactorsInput_drops_words
  (tok : jsstring) (pairs : list (jsstring * jsstring))
  (sep word : jsstring) (ex : Exercise) :
  clean_token tok ->
  Forall (fun p => separator (fst p) /\ clean_token (snd p)) pairs ->
  separator sep -> clean_token word ->
  read_exactly (interleave tok pairs) ->
  Number_isFinite (Number word) = false ->
  normalizeFactorsInput (interleave tok pairs)
  = filter Number_isFinite (map Number (tok :: map snd pairs))
  /\ read_exactly (interleave tok pairs ++ sep ++ word)
  /\ normalizeFactorsInput (interleave tok pairs ++ sep ++ word)
     = normalizeFactorsInput (interleave tok pairs)
  /\ (type ex = js "fatoracao" -> truthy (value ex) = true ->
      submit ex (interleave tok pairs ++ sep ++ word)
      = submit ex (interleave tok pairs)).
Proof.
  intros Htok Hall Hsep Hword Hread Hnan.
  pose proof (normalizeFactorsInput_of_tokens tok pairs Htok Hall) as Hparse.
  assert (Hall' : Forall (fun p => separator (fst p) /\ clean_token (snd p))
                    (pairs ++ [(sep, word)])).
  { apply Forall_app. split; [exact Hall |].
    constructor; [split; assumption | constructor]. }
  assert (Htext : interleave tok pairs ++ sep ++ word
                  = interleave tok (pairs ++ [(sep, word)])).
  { rewrite interleave_snoc. reflexivity. }
  assert (Hsame : normalizeFactorsInput (interleave tok pairs ++ sep ++ word)
                  = normalizeFactorsInput (interleave tok pairs)).
  { rewrite Htext.
    rewrite (normalizeFactorsInput_of_tokens tok (pairs ++ [(sep, word)])
               Htok Hall').
    rewrite Hparse, map_app. cbn [map snd filter].
    rewrite map_app, filter_app. cbn [map filter].
    rewrite Hnan, app_nil_r. reflexivity. }
  split; [exact Hparse |].
  split.
  { rewrite Htext. unfold read_exactly in *.
    rewrite (words_of_tokens tok _ Htok Hall').
    rewrite (words_of_tokens tok pairs Htok Hall) in Hread.
    rewrite (map_app snd). cbn [map snd] in Hread |- *.
    rewrite (map_app Number). cbn [map]. rewrite app_comm_cons.
    apply Forall_app. split; [exact Hread |].
    constructor; [| constructor].
    destruct (Number word); [discriminate | exact I ..]. }
  split; [exact Hsame |].
  intros Ht Hv. unfold submit. rewrite Ht, string_eqb_refl, Hv.
  cbn [andb]. unfold submit_fatoracao. rewrite Hsame. reflexivity.
Qed.

Lemma normalizeFactorsInput_drops_words_witness :
  submit exercise_12 (js "2 2 3 abc") = submit exercise_12 (js "2 2 3").
Proof.
  assert (Hsep : separator (js " ")) by (split; [discriminate | reflexivity]).
  assert (Htok : forall t, t = js "2" \/ t = js "3" \/ t = js "abc" ->
                           clean_token t).
  { intros t [-> | [-> | ->]];
      (split; [split; [discriminate | reflexivity] | reflexivity]). }
  destruct (normalizeFactorsInput_drops_words (js "2")
              [(js " ", js "2"); (js " ", js "3")] (js " ") (js "abc")
              exercise_12)
    as (_ & _ & _ & H).
  - apply Htok. left. reflexivity.
  - constructor; [split; [exact Hsep | apply Htok; left; reflexivity] |].
    constructor; [split; [exact Hsep | apply Htok; right; left; reflexivity] |].
    constructor.
  - exact Hsep.
  - apply Htok. right. right. reflexivity.
  - apply read_exactly_check_sound. vm_compute. reflexivity.
  - vm_compute. reflexivity.
  - exact (H eq_refl eq_refl).
Defined.
